(** * Citadel CLI infrastructure: circuit breaker, concurrency limiter,
    process supervisor and stale-while-revalidate cache.

  A shallow embedding of [src/cli/circuitBreaker.ts],
  [src/cli/concurrencyLimiter.ts], [src/cli/processSupervisor.ts] and
  [src/cli/swrCache.ts].  JavaScript numbers that hold counters and
  millisecond timestamps are integers here ([Z]); [Date.now()] is an
  explicit argument of every operation that reads the clock; promises are
  cells of a store indexed by allocation order; callbacks that the event
  loop runs later are events of a step function. *)

From Stdlib Require Import ZArith Lia.
From stdpp Require Import base gmap list strings pretty sorting.

Local Open Scope Z_scope.

(* ===================================================================== *)
(** ** circuitBreaker.ts *)
(* ===================================================================== *)

Module CircuitBreaker.

Inductive CircuitState := CLOSED | OPEN | HALF_OPEN.

Record t := mk {
  state : CircuitState;
  failureCount : Z;
  lastFailureTime : Z;
  successCount : Z;
  threshold : Z;
  resetTimeMs : Z
}.

Definition halfOpenSuccessThreshold : Z := 2.

(** [new CircuitBreaker(threshold, resetTimeMs)] *)
Definition create (threshold resetTimeMs : Z) : t :=
  mk CLOSED 0 0 0 threshold resetTimeMs.

(** [new CircuitBreaker()] *)
Definition default : t := create 5 60000.

Definition reset (b : t) : t :=
  mk CLOSED 0 0 0 (threshold b) (resetTimeMs b).

Definition canExecute (now : Z) (b : t) : bool * t :=
  match state b with
  | CLOSED => (true, b)
  | OPEN =>
      if resetTimeMs b <=? now - lastFailureTime b
      then (true, mk HALF_OPEN (failureCount b) (lastFailureTime b) 0
                     (threshold b) (resetTimeMs b))
      else (false, b)
  | HALF_OPEN => (true, b)
  end.

Definition recordSuccess (b : t) : t :=
  match state b with
  | HALF_OPEN =>
      let b' := mk HALF_OPEN (failureCount b) (lastFailureTime b)
                   (successCount b + 1) (threshold b) (resetTimeMs b) in
      if halfOpenSuccessThreshold <=? successCount b' then reset b' else b'
  | CLOSED =>
      mk CLOSED 0 (lastFailureTime b) (successCount b)
         (threshold b) (resetTimeMs b)
  | OPEN => b
  end.

Definition recordFailure (now : Z) (b : t) : t :=
  let b' := mk (state b) (failureCount b + 1) now (successCount b)
               (threshold b) (resetTimeMs b) in
  match state b' with
  | HALF_OPEN =>
      mk OPEN (failureCount b') (lastFailureTime b') (successCount b')
         (threshold b') (resetTimeMs b')
  | _ =>
      if threshold b' <=? failureCount b'
      then mk OPEN (failureCount b') (lastFailureTime b') (successCount b')
              (threshold b') (resetTimeMs b')
      else b'
  end.

Definition getState (b : t) : CircuitState := state b.

(** [n] consecutive [recordFailure()] calls, at the times of [times]. *)
Definition recordFailures (times : list Z) (b : t) : t :=
  foldl (fun acc now => recordFailure now acc) b times.

(** The operations a client can invoke, and what each lets it see: the
    boolean answer of [canExecute] and the state reported by [getState]. *)
Inductive Op :=
| OpCanExecute (now : Z)
| OpRecordSuccess
| OpRecordFailure (now : Z)
| OpReset.

Definition apply (op : Op) (b : t) : option bool * t :=
  match op with
  | OpCanExecute now => let '(r, b') := canExecute now b in (Some r, b')
  | OpRecordSuccess => (None, recordSuccess b)
  | OpRecordFailure now => (None, recordFailure now b)
  | OpReset => (None, reset b)
  end.

Fixpoint observe (ops : list Op) (b : t) : list (option bool * CircuitState) :=
  match ops with
  | [] => []
  | op :: rest =>
      let '(r, b') := apply op b in (r, getState b') :: observe rest b'
  end.

(** Two breakers that differ at most in a success count that is not being
    used (the breaker is not half-open) cannot be told apart. *)
Definition same_behaviour (b1 b2 : t) : Prop :=
  state b1 = state b2 /\ failureCount b1 = failureCount b2 /\
  lastFailureTime b1 = lastFailureTime b2 /\
  threshold b1 = threshold b2 /\ resetTimeMs b1 = resetTimeMs b2 /\
  (state b1 = HALF_OPEN -> successCount b1 = successCount b2).

(** [getStats()] *)
Record Stats := mkStats {
  stats_state : CircuitState;
  stats_failureCount : Z;
  stats_successCount : Z;
  stats_lastFailureTime : Z
}.

Definition getStats (b : t) : Stats :=
  mkStats (state b) (failureCount b) (successCount b) (lastFailureTime b).

(** The breaker after a sequence of operations. *)
Definition run (ops : list Op) (b : t) : t :=
  foldl (fun acc op => snd (apply op acc)) b ops.

(** The time of the last [recordFailure()] call of a history, [seen] being
    the one before the history if any. *)
Fixpoint last_failure_from (seen : option Z) (ops : list Op) : option Z :=
  match ops with
  | [] => seen
  | OpRecordFailure now :: rest => last_failure_from (Some now) rest
  | _ :: rest => last_failure_from seen rest
  end.

Definition last_failure (ops : list Op) : option Z :=
  last_failure_from None ops.

(** The number of [recordFailure()] calls of a history. *)
Fixpoint failures (ops : list Op) : Z :=
  match ops with
  | [] => 0
  | OpRecordFailure _ :: rest => 1 + failures rest
  | _ :: rest => failures rest
  end.

(** A history during which a breaker whose last failure was recorded at
    [t0] is cooling down: there is no [reset()], and every [canExecute()]
    reads a time less than [T] after the last failure recorded until then,
    be it the one at [t0] or a later one of the history itself. *)
Fixpoint cooling (t0 T : Z) (ops : list Op) : Prop :=
  match ops with
  | [] => True
  | OpCanExecute now :: rest => now - t0 < T /\ cooling t0 T rest
  | OpRecordFailure now :: rest => cooling now T rest
  | OpRecordSuccess :: rest => cooling t0 T rest
  | OpReset :: _ => False
  end.

(** What [observe] shows of a breaker that fails fast: it is Open and no
    [canExecute] has answered true. *)
Definition refused (seen : option bool * CircuitState) : Prop :=
  snd seen = OPEN /\ fst seen <> Some true.

End CircuitBreaker.

(* ===================================================================== *)
(** ** concurrencyLimiter.ts *)
(* ===================================================================== *)

Module ConcurrencyLimiter.

Record CLICommandConfig := mkConfig {
  command : string;
  args : list string;
  timeout : option Z;
  cwd : option string;
  (** [Some false] disables deduplication; absent ([None]) means true. *)
  dedupe : option bool
}.

(** [Array.prototype.join] on an array of strings. *)
Fixpoint join (sep : string) (l : list string) : string :=
  match l with
  | [] => EmptyString
  | x :: rest =>
      match rest with
      | [] => x
      | _ :: _ => x +:+ sep +:+ join sep rest
      end
  end.

Definition getDedupeKey (config : CLICommandConfig) : string :=
  command config +:+ ":" +:+ join ":" (args config).

(** [config.dedupe !== false] *)
Definition dedupeEnabled (config : CLICommandConfig) : bool :=
  match dedupe config with
  | Some false => false
  | _ => true
  end.

(** How a promise has settled.  An [Error] is represented by its message. *)
Inductive Outcome (T : Type) :=
| Fulfilled (value : T)
| Rejected (message : string).
Arguments Fulfilled {T} value.
Arguments Rejected {T} message.

Record QueuedRequest := mkRequest {
  config : CLICommandConfig;
  (** The promise that the request's [resolve] and [reject] settle: the one
      created by [new Promise] in [execute]. *)
  promise : nat
}.

Section Limiter.

(** [T] is the type of results; [E] is whatever state the executors touch
    when they are invoked. *)
Context {T E : Type}.

(** The synchronous part of a call [executor(cfg)]: it may read the clock and
    gets the identity of the promise it returns. *)
Definition Executor : Type := Z -> CLICommandConfig -> nat -> E -> E.

(** One iteration of the loop of [processQueue] that has begun executing and
    whose [finally] callback has not run yet. *)
Record Call := mkCall {
  request : QueuedRequest;
  key : string;
  (** [executor(request.config).then(..).catch(..).finally(..)] *)
  chain : nat;
  (** the [executor] captured by the [finally] callback *)
  executor : Executor;
  (** [Some o] once the executor's promise has settled with [o] and the
      [then]/[catch] callback has passed it to the request *)
  settled : option (Outcome T)
}.

Record State := mkState {
  (* the fields of the class *)
  queue : list QueuedRequest;
  inFlight : gmap string nat;
  activeCount : Z;
  maxConcurrency : Z;
  (* the run time around the object *)
  (** settled promises; an allocated promise that is absent is pending *)
  promises : gmap nat (Outcome T);
  calls : list Call;
  fresh : nat;
  ext : E;
  (* history, never read by the operations *)
  enqueued : list nat;
  started : list Call;
  cleared : list nat
}.

(** [new ConcurrencyLimiter(maxConcurrency)] *)
Definition create (maxConcurrency : Z) (e : E) : State :=
  mkState [] ∅ 0 maxConcurrency ∅ [] 0%nat e [] [] [].

(** Settling a promise that is already settled has no effect. *)
Definition settle (p : nat) (o : Outcome T)
    (m : gmap nat (Outcome T)) : gmap nat (Outcome T) :=
  match m !! p with
  | Some _ => m
  | None => <[p := o]> m
  end.

Definition set_queue (q : list QueuedRequest) (s : State) : State :=
  mkState q (inFlight s) (activeCount s) (maxConcurrency s)
    (promises s) (calls s) (fresh s) (ext s)
    (enqueued s) (started s) (cleared s).

(** The body of the loop of [processQueue], after [queue.shift()]. *)
Definition begin (now : Z) (ex : Executor) (req : QueuedRequest)
    (s : State) : State :=
  let k := getDedupeKey (config req) in
  let id := fresh s in
  let call := mkCall req k id ex None in
  mkState (queue s)
    (if dedupeEnabled (config req) then <[k := id]> (inFlight s) else inFlight s)
    (activeCount s + 1) (maxConcurrency s)
    (promises s) (calls s ++ [call]) (S (fresh s))
    (ex now (config req) id (ext s))
    (enqueued s) (started s ++ [call]) (cleared s).

(** The loop of [processQueue], by recursion on the queue it consumes. *)
Fixpoint drain (now : Z) (ex : Executor) (pending : list QueuedRequest)
    (s : State) : State :=
  match pending with
  | [] => set_queue [] s
  | req :: rest =>
      if activeCount s <? maxConcurrency s
      then drain now ex rest (begin now ex req (set_queue rest s))
      else set_queue pending s
  end.

Definition processQueue (now : Z) (ex : Executor) (s : State) : State :=
  drain now ex (queue s) s.

(** [new Promise(...)] in [execute], up to [this.queue.push(request)]. *)
Definition push (cfg : CLICommandConfig) (s : State) : State :=
  mkState (queue s ++ [mkRequest cfg (fresh s)]) (inFlight s) (activeCount s)
    (maxConcurrency s) (promises s) (calls s) (S (fresh s)) (ext s)
    (enqueued s ++ [fresh s]) (started s) (cleared s).

(** [execute(config, executor)]: the promise handed to the caller and the new
    state.  The promise of the [async] function settles exactly as the one it
    returns, and is identified with it. *)
Definition execute (now : Z) (cfg : CLICommandConfig) (ex : Executor)
    (s : State) : nat * State :=
  match (if dedupeEnabled cfg then inFlight s !! getDedupeKey cfg else None) with
  | Some existing => (existing, s)
  | None => (fresh s, processQueue now ex (push cfg s))
  end.

Definition find_call (c : nat) (l : list Call) : option Call :=
  List.find (fun k => Nat.eqb (chain k) c) l.

Definition remove_call (c : nat) (l : list Call) : list Call :=
  filter (fun k => chain k <> c) l.

Definition mark_settled (c : nat) (o : Outcome T) (l : list Call) : list Call :=
  (fun k => if decide (chain k = c)
            then mkCall (request k) (key k) (chain k) (executor k) (Some o)
            else k) <$> l.

(** The executor's promise of call [c] settles with [o]; the [then] callback
    ([request.resolve(result)]) or the [catch] callback
    ([request.reject(error)]) runs. *)
Definition on_settled (c : nat) (o : Outcome T) (s : State) : State :=
  match find_call c (calls s) with
  | Some call =>
      match settled call with
      | Some _ => s
      | None =>
          mkState (queue s) (inFlight s) (activeCount s) (maxConcurrency s)
            (settle (promise (request call)) o (promises s))
            (mark_settled c o (calls s)) (fresh s) (ext s)
            (enqueued s) (started s) (cleared s)
      end
  | None => s
  end.

(** The first two statements of the [finally] callback of [call]. *)
Definition release (call : Call) (s : State) : State :=
  mkState (queue s) (delete (key call) (inFlight s))
    (activeCount s - 1) (maxConcurrency s)
    (promises s) (remove_call (chain call) (calls s)) (fresh s) (ext s)
    (enqueued s) (started s) (cleared s).

Definition set_promises (m : gmap nat (Outcome T)) (s : State) : State :=
  mkState (queue s) (inFlight s) (activeCount s) (maxConcurrency s) m
    (calls s) (fresh s) (ext s) (enqueued s) (started s) (cleared s).

(** The [finally] callback of call [c] runs; afterwards the chained promise
    settles as the executor's did. *)
Definition on_finally (now : Z) (c : nat) (s : State) : State :=
  match find_call c (calls s) with
  | Some call =>
      match settled call with
      | Some o =>
          let s' := processQueue now (executor call) (release call s) in
          set_promises (settle c o (promises s')) s'
      | None => s
      end
  | None => s
  end.

Definition queue_cleared : string := "Queue cleared".

Definition clear (s : State) : State :=
  mkState [] ∅ (activeCount s) (maxConcurrency s)
    (foldl (fun m req => settle (promise req) (Rejected queue_cleared) m)
           (promises s) (queue s))
    (calls s) (fresh s) (ext s)
    (enqueued s) (started s) (cleared s ++ (promise <$> queue s)).

(** The state of the executors changes without the limiter being involved. *)
Definition touch (f : E -> E) (s : State) : State :=
  mkState (queue s) (inFlight s) (activeCount s) (maxConcurrency s)
    (promises s) (calls s) (fresh s) (f (ext s))
    (enqueued s) (started s) (cleared s).

(** [getStats()] *)
Definition getStats (s : State) : Z * Z * Z :=
  (Z.of_nat (length (queue s)), activeCount s, maxConcurrency s).

(** What can happen to a limiter: calls of its methods and the callbacks that
    the event loop runs for it. *)
Inductive Event :=
| Execute (now : Z) (cfg : CLICommandConfig) (ex : Executor)
| Settled (c : nat) (o : Outcome T)
| Finally (now : Z) (c : nat)
| Clear
| External (f : E -> E).

Definition step (s : State) (ev : Event) : State :=
  match ev with
  | Execute now cfg ex => snd (execute now cfg ex s)
  | Settled c o => on_settled c o s
  | Finally now c => on_finally now c s
  | Clear => clear s
  | External f => touch f s
  end.

Definition run (s : State) (evs : list Event) : State := foldl step s evs.

(** A promise as a caller sees it. *)
Definition outcome (p : nat) (s : State) : option (Outcome T) := promises s !! p.

End Limiter.

Arguments Call : clear implicits.
Arguments State : clear implicits.
Arguments Event : clear implicits.
Arguments Executor : clear implicits.

(** *** Invariants of the limiter, used to state and prove its properties *)

Section Invariants.

Context {T E : Type}.
Implicit Types (s : State T E).

Definition target (c : Call T E) : nat := promise (request c).

(** Every promise that the limiter may still settle. *)
Definition ids (s : State T E) : list nat :=
  (promise <$> queue s) ++ (target <$> calls s) ++ (chain <$> calls s).

Record wf (s : State T E) : Prop := mk_wf {
  wf_count : activeCount s = Z.of_nat (length (calls s));
  wf_nodup : NoDup (ids s);
  wf_fresh : forall i : nat, i ∈ ids s -> (i < fresh s)%nat;
  wf_store : forall (p : nat) o, promises s !! p = Some o -> (p < fresh s)%nat;
  wf_pending : forall r, r ∈ queue s -> promises s !! promise r = None;
  wf_chain : forall c, c ∈ calls s -> promises s !! chain c = None;
  wf_target : forall c, c ∈ calls s -> promises s !! target c = settled c
}.

Definition reject_all (q : list QueuedRequest) (m : gmap nat (Outcome T))
    : gmap nat (Outcome T) :=
  foldl (fun m req => settle (promise req) (Rejected queue_cleared) m) m q.

Definition bounded (s : State T E) : Prop :=
  activeCount s <= maxConcurrency s.

(** The queue only holds requests while every slot is taken. *)
Definition saturated (s : State T E) : Prop :=
  queue s = [] \/ maxConcurrency s <= activeCount s.

(** The calls whose executor has not settled yet. *)
Definition executing (s : State T E) : list (Call T E) :=
  filter (fun c => settled c = None) (calls s).

Definition resolve_request (call : Call T E) (o : Outcome T) s : State T E :=
  mkState (queue s) (inFlight s) (activeCount s) (maxConcurrency s)
    (settle (target call) o (promises s))
    (mark_settled (chain call) o (calls s)) (fresh s) (ext s)
    (enqueued s) (started s) (cleared s).

Definition pipeline (s : State T E) : list nat :=
  (target <$> started s) ++ (promise <$> queue s).

Record fifo (s : State T E) : Prop := mk_fifo {
  fifo_enqueued : StronglySorted lt (enqueued s);
  fifo_fresh : forall p : nat, p ∈ enqueued s -> (p < fresh s)%nat;
  fifo_pipeline : StronglySorted lt (pipeline s);
  fifo_known : forall p : nat, p ∈ pipeline s -> p ∈ enqueued s;
  fifo_accounted : forall p : nat, p ∈ enqueued s ->
     p ∈ pipeline s \/ p ∈ cleared s
}.

Record tracked (s : State T E) : Prop := mk_tracked {
  tracked_sound : forall (k : string) (c : nat),
    inFlight s !! k = Some c ->
    exists call, call ∈ calls s /\ chain call = c /\ key call = k /\
                 dedupeEnabled (config (request call)) = true;
  tracked_keyed : forall call, call ∈ calls s ->
    key call = getDedupeKey (config (request call))
}.

Record paired (s : State T E) : Prop := mk_paired {
  paired_nodup : NoDup (chain <$> started s);
  paired_fresh : forall st, st ∈ started s -> (chain st < fresh s)%nat;
  paired_apart : forall st, st ∈ started s -> chain st ∉ enqueued s;
  paired_calls : forall k, k ∈ calls s ->
    exists k0, k0 ∈ started s /\ request k0 = request k /\ chain k0 = chain k;
  paired_outcome : forall st o, st ∈ started s ->
    promises s !! chain st = Some o -> promises s !! target st = Some o
}.

Record sane (s : State T E) : Prop := mk_sane {
  sane_wf : wf s;
  sane_fifo : fifo s;
  sane_tracked : tracked s;
  sane_paired : paired s
}.

Definition resolving (ev : Event T E) : Prop :=
  match ev with
  | Settled _ (Rejected _) => False
  | _ => True
  end.

Record honest (s : State T E) : Prop := mk_honest {
  honest_rejected : forall (p : nat) (msg : string),
    promises s !! p = Some (Rejected msg) -> msg = queue_cleared /\ p ∈ cleared s;
  honest_calls : forall k o, k ∈ calls s -> settled k = Some o ->
    exists v, o = Fulfilled v;
  honest_cleared : forall p : nat, p ∈ cleared s ->
    promises s !! p = Some (Rejected queue_cleared);
  honest_accounted : forall i : nat, (i < fresh s)%nat ->
    i ∈ ids s \/ is_Some (promises s !! i)
}.

(** A request removed by [clear] is neither queued nor started. *)
Definition cleared_apart (s : State T E) : Prop :=
  forall p : nat, p ∈ cleared s -> (p ∉ pipeline s) /\ (p < fresh s)%nat.

(** Every promise that has been allocated belongs to a queued or executing
    request or has settled. *)
Definition accounted (s : State T E) : Prop :=
  forall i : nat, (i < fresh s)%nat ->
    i ∈ ids s \/ is_Some (promises s !! i).

(** Every value that has been delivered, or is on its way to the chained
    promise, satisfies [P]. *)
Definition delivering (P : T -> Prop) (s : State T E) : Prop :=
  (forall (p : nat) (v : T), promises s !! p = Some (Fulfilled v) -> P v) /\
  (forall k (v : T), k ∈ calls s -> settled k = Some (Fulfilled v) -> P v).

(** An event that brings no value outside [P]. *)
Definition carrying (P : T -> Prop) (ev : Event T E) : Prop :=
  match ev with
  | Settled _ (Fulfilled v) => P v
  | _ => True
  end.

End Invariants.

End ConcurrencyLimiter.

(* ===================================================================== *)
(** ** processSupervisor.ts *)
(* ===================================================================== *)

Module ProcessSupervisor.

Module CL := ConcurrencyLimiter.

(** [constants.ts] *)
Definition DEFAULT_CLI_TIMEOUT : Z := 30000.

Section Supervisor.

(** [J] is the type of the parsed JSON values other than [null].
    [JSON_parse] is [JSON.parse]: it throws ([None]), or yields [null]
    ([Some None]) or another value. *)
Context {J : Type} (JSON_parse : string -> option (option J)).

(** The error with which [execFile] (or [resolveCommand], [getEnvWithPath])
    throws synchronously for a command and a timeout, if it does: Node
    validates its arguments before it starts a process and throws, for
    example, for a negative timeout or an argument that contains a NUL
    character. *)
Context (execFile_throws : CL.CLICommandConfig -> Z -> option string).

(** A payload other than [null]: a value that [JSON.parse(stdout)] yields,
    or the raw [stdout] when parsing throws. *)
Inductive Data :=
| Json (value : J)
| Text (stdout : string).

Record CLIResult := mkResult {
  success : bool;
  data : option Data;
  error : option string;
  exitCode : Z;
  duration : Z;
  command : string
}.

Record ProcessSupervisorConfig := mkConfig {
  defaultTimeout : Z;
  maxConcurrency : Z;
  circuitBreakerThreshold : Z;
  circuitBreakerResetTime : Z
}.

Definition DEFAULT_SUPERVISOR_CONFIG : ProcessSupervisorConfig :=
  mkConfig DEFAULT_CLI_TIMEOUT 4 5 15000.

(** What the callbacks of one [executeCommand] call have captured. *)
Record Invocation := mkInvocation {
  startTime : Z;
  timeout : Z;
  formatted : string
}.

(** The state that [executeCommand] touches when it is called.  The process
    id is the identity of the promise it returns; [invocations] holds the
    closures of the callbacks; [killed] lists the processes sent SIGKILL;
    [thrown] holds the promises that [executeCommand] returned rejected,
    because [execFile] threw, with the error. *)
Record Processes := mkProcesses {
  activeProcesses : gmap nat Invocation;
  totalSpawned : Z;
  invocations : gmap nat Invocation;
  killed : list nat;
  thrown : gmap nat string
}.

Record State := mkState {
  config : ProcessSupervisorConfig;
  limiter : CL.State CLIResult Processes;
  circuitBreaker : CircuitBreaker.t;
  destroyed : bool
}.

(** [new ProcessSupervisor(config)] *)
Definition create (cfg : ProcessSupervisorConfig) : State :=
  mkState cfg
    (CL.create (maxConcurrency cfg) (mkProcesses ∅ 0 ∅ [] ∅))
    (CircuitBreaker.create (circuitBreakerThreshold cfg)
                           (circuitBreakerResetTime cfg))
    false.

Definition formatCommand (c : CL.CLICommandConfig) : string :=
  CL.command c +:+ " " +:+ CL.join " " (CL.args c).

Definition failResult (message : string) (c : CL.CLICommandConfig) : CLIResult :=
  mkResult false None (Some message) (-1) 0 (formatCommand c).

Definition destroyed_message : string := "Process supervisor has been destroyed".
Definition open_message : string := "Circuit breaker is open — CLI is unavailable".

(** [config.timeout ?? this.config.defaultTimeout] *)
Definition effective_timeout (cfg : ProcessSupervisorConfig)
    (c : CL.CLICommandConfig) : Z :=
  match CL.timeout c with Some t => t | None => defaultTimeout cfg end.

(** The synchronous part of [executeCommand], which runs inside
    [new Promise((resolve) => ...)]: [totalSpawned] is incremented, then
    [execFile] is called.  If that throws, nothing catches it: the promise
    is rejected with the error, no process is tracked and no callback
    exists.  Otherwise the process is tracked and its callbacks are
    registered; what goes wrong with the process is reported later, through
    the callback or the [error] event. *)
Definition executeCommand (cfg : ProcessSupervisorConfig)
    : CL.Executor Processes :=
  fun now c id e =>
    let timeout := effective_timeout cfg c in
    match execFile_throws c timeout with
    | Some message =>
        mkProcesses (activeProcesses e) (totalSpawned e + 1)
                    (invocations e) (killed e) (<[id := message]> (thrown e))
    | None =>
        let inv := mkInvocation now timeout (formatCommand c) in
        mkProcesses (<[id := inv]> (activeProcesses e)) (totalSpawned e + 1)
                    (<[id := inv]> (invocations e)) (killed e) (thrown e)
    end.

(** What a caller of [execute] holds: a promise that is already resolved with
    a result, or the promise handed out by the limiter. *)
Inductive Returned :=
| Resolved (result : CLIResult)
| Awaiting (p : nat).

Definition execute (now : Z) (c : CL.CLICommandConfig) (s : State)
    : Returned * State :=
  if destroyed s then (Resolved (failResult destroyed_message c), s)
  else
    let '(ok, b) := CircuitBreaker.canExecute now (circuitBreaker s) in
    if ok then
      let '(p, l) := CL.execute now c (executeCommand (config s)) (limiter s) in
      (Awaiting p, mkState (config s) l b (destroyed s))
    else
      (Resolved (failResult open_message c),
       mkState (config s) (limiter s) b (destroyed s)).

(** [String.prototype.includes] *)
Fixpoint includes (needle hay : string) : bool :=
  String.prefix needle hay ||
  match hay with
  | EmptyString => false
  | String _ rest => includes needle rest
  end.

(** The error object that [execFile] passes to its callback. *)
Record ExecError := mkExecError {
  err_killed : bool;
  err_message : string;
  (** [Some n] when [typeof error.code === 'number'] *)
  err_code : option Z
}.

Definition forget (id : nat) (e : Processes) : Processes :=
  mkProcesses (delete id (activeProcesses e)) (totalSpawned e)
              (invocations e) (killed e) (thrown e).

(** The result that the callback of [execFile] resolves the promise with.
    [data] is [None] for [null]: in a failure, and in a success whose
    [stdout] is JSON for [null]. *)
Definition completion (now : Z) (inv : Invocation) (err : option ExecError)
    (stdout stderr : string) : CLIResult :=
  let duration := now - startTime inv in
  match err with
  | Some e =>
      let isTimeout := err_killed e || includes "ETIMEDOUT" (err_message e) in
      let errorMessage :=
        if err_killed e then "Process was killed"
        else if isTimeout
             then "Command timed out after " +:+ pretty (timeout inv) +:+ "ms"
             else if String.eqb stderr EmptyString then err_message e else stderr in
      mkResult false None (Some errorMessage)
               (match err_code e with Some n => n | None => -1 end)
               duration (formatted inv)
  | None =>
      mkResult true
               (match JSON_parse stdout with
                | Some (Some v) => Some (Json v)
                | Some None => None
                | None => Some (Text stdout)
                end)
               None 0 duration (formatted inv)
  end.

(** The callback given to [execFile] runs for invocation [id]. *)
Definition on_exit (now : Z) (id : nat) (err : option ExecError)
    (stdout stderr : string) (s : State) : State :=
  match invocations (CL.ext (limiter s)) !! id with
  | None => s
  | Some inv =>
      let l := CL.touch (forget id) (limiter s) in
      let b := match err with
               | Some _ => CircuitBreaker.recordFailure now (circuitBreaker s)
               | None => CircuitBreaker.recordSuccess (circuitBreaker s)
               end in
      mkState (config s)
        (CL.on_settled id (CL.Fulfilled (completion now inv err stdout stderr)) l)
        b (destroyed s)
  end.

(** The [error] listener of the child process runs for invocation [id]. *)
Definition on_error (now : Z) (id : nat) (message : string) (s : State) : State :=
  match invocations (CL.ext (limiter s)) !! id with
  | None => s
  | Some inv =>
      let l := CL.touch (forget id) (limiter s) in
      let r := mkResult false None
                 (Some ("Failed to spawn process: " +:+ message))
                 (-1) (now - startTime inv) (formatted inv) in
      mkState (config s)
        (CL.on_settled id (CL.Fulfilled r) l)
        (CircuitBreaker.recordFailure now (circuitBreaker s))
        (destroyed s)
  end.

Definition resetCircuitBreaker (s : State) : State :=
  mkState (config s) (limiter s) (CircuitBreaker.reset (circuitBreaker s))
          (destroyed s).

Definition kill_all (e : Processes) : Processes :=
  mkProcesses ∅ (totalSpawned e) (invocations e)
              (killed e ++ map fst (map_to_list (activeProcesses e)))
              (thrown e).

(** The promise that [executeCommand] returned for execution [id] was
    rejected; the [catch] callback of the limiter runs. *)
Definition on_rejection (id : nat) (s : State) : State :=
  match thrown (CL.ext (limiter s)) !! id with
  | None => s
  | Some message =>
      mkState (config s)
        (CL.on_settled id (CL.Rejected message) (limiter s))
        (circuitBreaker s) (destroyed s)
  end.

Definition destroy (s : State) : State :=
  mkState (config s)
    (CL.clear (CL.touch kill_all (limiter s)))
    (circuitBreaker s) true.

Definition isDestroyed (s : State) : bool := destroyed s.

(** Calls of the supervisor's methods and the callbacks that the event loop
    runs for it. *)
Inductive Event :=
| Execute (now : Z) (c : CL.CLICommandConfig)
| Exit (now : Z) (id : nat) (err : option ExecError) (stdout stderr : string)
| SpawnError (now : Z) (id : nat) (message : string)
| Rejection (id : nat)
| Finally (now : Z) (id : nat)
| ResetCircuitBreaker
| Destroy.

Definition step (s : State) (ev : Event) : State :=
  match ev with
  | Execute now c => snd (execute now c s)
  | Exit now id err stdout stderr => on_exit now id err stdout stderr s
  | SpawnError now id message => on_error now id message s
  | Rejection id => on_rejection id s
  | Finally now id =>
      mkState (config s) (CL.on_finally now id (limiter s))
              (circuitBreaker s) (destroyed s)
  | ResetCircuitBreaker => resetCircuitBreaker s
  | Destroy => destroy s
  end.

Definition run (s : State) (evs : list Event) : State := foldl step s evs.

(** The result a caller of [execute] has received so far, if any. *)
Definition received (r : Returned) (s : State) : option (CL.Outcome CLIResult) :=
  match r with
  | Resolved result => Some (CL.Fulfilled result)
  | Awaiting p => CL.outcome p (limiter s)
  end.

(** [getStats()] *)
Record Stats := mkStats {
  stats_queue : Z * Z * Z;
  stats_circuitBreaker : CircuitBreaker.Stats;
  stats_active : Z;
  stats_totalSpawned : Z
}.

Definition getStats (s : State) : Stats :=
  mkStats (CL.getStats (limiter s))
          (CircuitBreaker.getStats (circuitBreaker s))
          (Z.of_nat (size (activeProcesses (CL.ext (limiter s)))))
          (totalSpawned (CL.ext (limiter s))).

(** The limiter of a supervisor with configuration [cfg]: every tracked
    process belongs to an execution that has not reported yet, every
    execution was started by [executeCommand], [totalSpawned] counts the
    executions started, and an execution for which [execFile] threw has no
    tracked process. *)
Record supervised (cfg : ProcessSupervisorConfig)
    (l : CL.State CLIResult Processes) : Prop := mk_supervised {
  supervised_active : forall id : nat,
    is_Some (activeProcesses (CL.ext l) !! id) ->
    exists call, call ∈ CL.calls l /\ CL.chain call = id /\
                 CL.settled call = None;
  supervised_executor : forall call, call ∈ CL.calls l ->
    CL.executor call = executeCommand cfg;
  supervised_spawned :
    totalSpawned (CL.ext l) = Z.of_nat (length (CL.started l));
  supervised_thrown : forall id : nat,
    is_Some (thrown (CL.ext l) !! id) ->
    activeProcesses (CL.ext l) !! id = None /\ (id < CL.fresh l)%nat
}.

(** The shape of a result: a success carries no error and exit code 0; a
    failure carries an error and no data. *)
Definition well_formed (r : CLIResult) : Prop :=
  if success r
  then error r = None /\ exitCode r = 0
  else data r = None /\ is_Some (error r).

(** The calls that one step makes on the circuit breaker. *)
Definition breaker_ops (s : State) (ev : Event) : list CircuitBreaker.Op :=
  match ev with
  | Execute now _ =>
      if destroyed s then [] else [CircuitBreaker.OpCanExecute now]
  | Exit now id err _ _ =>
      match invocations (CL.ext (limiter s)) !! id, err with
      | None, _ => []
      | Some _, Some _ => [CircuitBreaker.OpRecordFailure now]
      | Some _, None => [CircuitBreaker.OpRecordSuccess]
      end
  | SpawnError now id _ =>
      match invocations (CL.ext (limiter s)) !! id with
      | None => []
      | Some _ => [CircuitBreaker.OpRecordFailure now]
      end
  | ResetCircuitBreaker => [CircuitBreaker.OpReset]
  | Rejection _ | Finally _ _ | Destroy => []
  end.

(** The calls made on the circuit breaker in the course of a history. *)
Fixpoint breaker_trace (s : State) (evs : list Event)
    : list CircuitBreaker.Op :=
  match evs with
  | [] => []
  | ev :: rest => breaker_ops s ev ++ breaker_trace (step s ev) rest
  end.

(** Where rejections come from: a rejected promise was removed from the
    queue by [clear], or belongs to an execution whose [executeCommand]
    promise was rejected; and that happens only when [execFile] threw for
    the command of the execution. *)
Record faulted (cfg : ProcessSupervisorConfig)
    (l : CL.State CLIResult Processes) : Prop := mk_faulted {
  faulted_promise : forall (p : nat) (message : string),
    CL.promises l !! p = Some (CL.Rejected message) ->
    (message = CL.queue_cleared /\ p ∈ CL.cleared l) \/
    exists st, st ∈ CL.started l /\ (p = CL.target st \/ p = CL.chain st) /\
               thrown (CL.ext l) !! CL.chain st = Some message;
  faulted_call : forall call (message : string),
    call ∈ CL.calls l -> CL.settled call = Some (CL.Rejected message) ->
    thrown (CL.ext l) !! CL.chain call = Some message;
  faulted_thrown : forall (id : nat) (message : string),
    thrown (CL.ext l) !! id = Some message ->
    exists st, st ∈ CL.started l /\ CL.chain st = id /\
      execFile_throws (CL.config (CL.request st))
        (effective_timeout cfg (CL.config (CL.request st))) = Some message
}.

(** A destroyed supervisor: nothing is queued, no key is in flight and no
    process is tracked. *)
Definition quiet (s : State) : Prop :=
  destroyed s = true /\ CL.queue (limiter s) = [] /\
  CL.inFlight (limiter s) = ∅ /\
  activeProcesses (CL.ext (limiter s)) = ∅.

End Supervisor.

Arguments Data : clear implicits.
Arguments CLIResult : clear implicits.
Arguments State : clear implicits.
Arguments Event : clear implicits.
Arguments Returned : clear implicits.

(** The events of the limiter inside a supervisor. *)
Abbreviation LimiterEvent J := (CL.Event (CLIResult J) Processes).

End ProcessSupervisor.

(* ===================================================================== *)
(** ** swrCache.ts *)
(* ===================================================================== *)

Module SWRCache.

Section Cache.

Context {T : Type}.

Record CacheEntry := mkEntry {
  data : T;
  fetchedAt : Z;
  ttl : Z
}.

(** Why [get] called the fetcher: to refresh a stale entry in the
    background, or to fill a missing entry while the caller waits. *)
Inductive Purpose := Revalidate | Populate.

#[export] Instance Purpose_eq_dec : EqDecision Purpose.
Proof. solve_decision. Defined.

Definition is_revalidate (p : Purpose) : bool :=
  match p with Revalidate => true | Populate => false end.

(** A call of a fetcher whose callbacks have not all run.  [landed] is set
    once the fetcher's promise has settled; a revalidation is then only
    waiting for its [finally] callback. *)
Record Fetch := mkFetch {
  id : nat;
  key : string;
  ttlMs : Z;
  purpose : Purpose;
  landed : bool
}.

Record State := mkState {
  (* the fields of the class *)
  cache : gmap string CacheEntry;
  pendingRevalidations : gmap string nat;
  (* the run time around the object *)
  fetches : list Fetch;
  fresh : nat;
  (** what the [get] calls that had to wait have returned: [Some v], or
      [None] when the fetcher's error was thrown *)
  delivered : gmap nat (option T);
  (* history, never read by the operations: fetcher and key of each call *)
  fetcherCalls : list (nat * string)
}.

(** [new SWRCache()] *)
Definition create : State := mkState ∅ ∅ [] 0%nat ∅ [].

Definition clear (s : State) : State :=
  mkState ∅ ∅ (fetches s) (fresh s) (delivered s) (fetcherCalls s).

Definition invalidate (k : string) (s : State) : State :=
  mkState (delete k (cache s)) (pendingRevalidations s) (fetches s) (fresh s)
          (delivered s) (fetcherCalls s).

(** What [get] gives its caller: a value at once, or the outcome of the
    fetch it is waiting for. *)
Inductive Returned :=
| Ready (value : T)
| Awaiting (fetch : nat).

Definition call_fetcher (k : string) (ttl_ms : Z) (fetcher : nat)
    (why : Purpose) (s : State) : State :=
  mkState (cache s)
    (if is_revalidate why then <[k := fresh s]> (pendingRevalidations s)
     else pendingRevalidations s)
    (fetches s ++ [mkFetch (fresh s) k ttl_ms why false]) (S (fresh s))
    (delivered s) (fetcherCalls s ++ [(fetcher, k)]).

Definition get (now : Z) (k : string) (ttl_ms : Z) (fetcher : nat)
    (s : State) : Returned * State :=
  match cache s !! k with
  | Some entry =>
      let age := now - fetchedAt entry in
      if age <? ttl entry then (Ready (data entry), s)
      else
        match pendingRevalidations s !! k with
        | Some _ => (Ready (data entry), s)
        | None => (Ready (data entry), call_fetcher k ttl_ms fetcher Revalidate s)
        end
  | None => (Awaiting (fresh s), call_fetcher k ttl_ms fetcher Populate s)
  end.

Definition find_fetch (i : nat) (l : list Fetch) : option Fetch :=
  List.find (fun f => Nat.eqb (id f) i) l.

Definition remove_fetch (i : nat) (l : list Fetch) : list Fetch :=
  filter (fun f => id f <> i) l.

Definition mark_landed (i : nat) (l : list Fetch) : list Fetch :=
  (fun f => if decide (id f = i)
            then mkFetch (id f) (key f) (ttlMs f) (purpose f) true
            else f) <$> l.

(** The promise of fetch [i] settles, with a value or ([None]) an error; the
    [then] callback of a revalidation, or the rest of a waiting [get], runs. *)
Definition on_fetched (now : Z) (i : nat) (result : option T)
    (s : State) : State :=
  match find_fetch i (fetches s) with
  | Some f =>
      if landed f then s
      else
        let cache' :=
          match result with
          | Some v => <[key f := mkEntry v now (ttlMs f)]> (cache s)
          | None => cache s
          end in
        match purpose f with
        | Revalidate =>
            mkState cache' (pendingRevalidations s)
              (mark_landed i (fetches s)) (fresh s) (delivered s)
              (fetcherCalls s)
        | Populate =>
            mkState cache' (pendingRevalidations s)
              (remove_fetch i (fetches s)) (fresh s)
              (<[i := result]> (delivered s)) (fetcherCalls s)
        end
  | None => s
  end.

(** The [finally] callback of revalidation [i] runs. *)
Definition on_finally (i : nat) (s : State) : State :=
  match find_fetch i (fetches s) with
  | Some f =>
      if landed f && is_revalidate (purpose f) then
        mkState (cache s) (delete (key f) (pendingRevalidations s))
          (remove_fetch i (fetches s)) (fresh s) (delivered s)
          (fetcherCalls s)
      else s
  | None => s
  end.

Inductive Event :=
| Get (now : Z) (k : string) (ttl_ms : Z) (fetcher : nat)
| Invalidate (k : string)
| Clear
| Fetched (now : Z) (i : nat) (result : option T)
| Finally (i : nat).

Definition step (s : State) (ev : Event) : State :=
  match ev with
  | Get now k ttl_ms fetcher => snd (get now k ttl_ms fetcher s)
  | Invalidate k => invalidate k s
  | Clear => clear s
  | Fetched now i result => on_fetched now i result s
  | Finally i => on_finally i s
  end.

Definition run (s : State) (evs : list Event) : State := foldl step s evs.


(** The event is the settlement of the promise of fetch [i]. *)
Definition is_fetched (i : nat) (ev : Event) : bool :=
  match ev with Fetched _ j _ => Nat.eqb j i | _ => false end.

(** A [get] call for key [k], given as time, [ttlMs] and fetcher. *)
Definition get_of (k : string) (g : Z * Z * nat) : Event :=
  Get g.1.1 k g.1.2 g.2.


End Cache.

Arguments CacheEntry : clear implicits.
Arguments State : clear implicits.
Arguments Event : clear implicits.
Arguments Returned : clear implicits.

(** *** Invariants of the cache, used to state and prove its properties *)

Section Invariants.

Context {T : Type}.
Implicit Types (s : State T).

(** The bookkeeping of the cache: every marker in [pendingRevalidations]
    belongs to a revalidation that is in flight, and fetches are told apart
    by their identity. *)
Record wf (s : State T) : Prop := mk_wf {
  wf_marker : forall (k : string) (i : nat),
    pendingRevalidations s !! k = Some i ->
    exists f, f ∈ fetches s /\ id f = i /\ key f = k /\ purpose f = Revalidate;
  wf_distinct : NoDup (id <$> fetches s);
  wf_allocated : forall f, f ∈ fetches s -> (id f < fresh s)%nat
}.



End Invariants.

End SWRCache.

(* ===================================================================== *)
(** ** Sample inputs for the concrete scenarios below *)
(* ===================================================================== *)

(* ===================================================================== *)
(** ** [capabilities.ts]: reading a version out of the output of a tool *)

Module Capabilities.

(** A JavaScript string is a sequence of UTF-16 code units. *)
Definition units (s : string) : list N :=
  Ascii.N_of_ascii <$> String.list_ascii_of_string s.

(** [\d]: the code units of [0] to [9]. *)
Definition is_digit (c : N) : bool := ((48 <=? c) && (c <=? 57))%N.

(** The code unit of the full stop. *)
Definition dot : N := 46%N.

(** Matching in the style of the ECMAScript specification: a matcher is
    given the rest of the input and a continuation for what follows in the
    pattern, and answers with the input left after the whole match, or
    [None] on failure. *)
Definition Matcher : Type :=
  list N -> (list N -> option (list N)) -> option (list N).

(** [\d+], greedy: one digit, then as many more as the continuation
    accepts, trying the longest run first. *)
Fixpoint digits (s : list N) (k : list N -> option (list N))
    : option (list N) :=
  match s with
  | c :: rest =>
      if is_digit c then
        match digits rest k with
        | Some r => Some r
        | None => k rest
        end
      else None
  | [] => None
  end.

(** A single literal character. *)
Definition literal (c : N) : Matcher :=
  fun s k =>
    match s with
    | c' :: rest => if (c' =? c)%N then k rest else None
    | [] => None
    end.

(** [/(\d+\.\d+\.\d+)/] tried at the head of [s]: the input left after the
    match. *)
Definition version_at (s : list N) : option (list N) :=
  digits s (fun s1 =>
  literal dot s1 (fun s2 =>
  digits s2 (fun s3 =>
  literal dot s3 (fun s4 =>
  digits s4 Some)))).

(** [parseVersion(output)]: [String.prototype.match] tries the pattern at
    every position from the left; [match[1]] is the text matched. *)
Fixpoint parseVersion (output : list N) : option (list N) :=
  match version_at output with
  | Some rest => Some (take (length output - length rest) output)
  | None =>
      match output with
      | [] => None
      | _ :: later => parseVersion later
      end
  end.

(** A run of one or more digits. *)
Definition digit_run (d : list N) : Prop :=
  d <> [] /\ Forall (fun c => is_digit c = true) d.

(** Three runs of digits separated by full stops. *)
Definition version_shape (v : list N) : Prop :=
  exists d1 d2 d3, digit_run d1 /\ digit_run d2 /\ digit_run d3 /\
                   v = d1 ++ dot :: d2 ++ dot :: d3.

(** The input does not begin with a digit. *)
Definition no_digit_ahead (s : list N) : Prop :=
  match s with
  | c :: _ => is_digit c = false
  | [] => True
  end.

End Capabilities.

Module Samples.

Import ConcurrencyLimiter.

(** An executor that touches no state of its own. *)
Definition idle : Executor unit := fun _ _ _ e => e.

Definition status : CLICommandConfig :=
  mkConfig "gt" ["status"] None None None.

(** A request that opts out of deduplication. *)
Definition slow : CLICommandConfig :=
  mkConfig "gt" ["slow"] None None (Some false).

Definition first : CLICommandConfig :=
  mkConfig "cmd" ["first"] None None (Some false).

Definition second : CLICommandConfig :=
  mkConfig "cmd" ["second"] None None (Some false).

Definition split : CLICommandConfig := mkConfig "c" ["a"; "b"] None None None.


Definition mail : CLICommandConfig :=
  mkConfig "gt" ["mail"] None None None.

(** A [JSON.parse] that accepts nothing. *)
Definition no_json : string -> option (option unit) := fun _ => None.

(** A [JSON.parse] that accepts [null] and nothing else. *)
Definition only_null : string -> option (option unit) :=
  fun text => if String.eqb text "null" then Some None else None.

(** An [execFile] that never throws. *)
Definition never_throws : CLICommandConfig -> Z -> option string :=
  fun _ _ => None.

(** An [execFile] that refuses a negative timeout, as Node does. *)
Definition range_checked : CLICommandConfig -> Z -> option string :=
  fun _ timeout => if timeout <? 0 then Some "ERR_OUT_OF_RANGE" else None.

(** A request with a negative timeout. *)
Definition hasty : CLICommandConfig :=
  mkConfig "gt" ["status"] (Some (-5)) None (Some false).

(** Four requests at once. *)
Definition burst : list (Event string unit) :=
  [Execute 0 first idle; Execute 0 second idle;
   Execute 0 slow idle; Execute 0 status idle].

End Samples.

Module CacheSamples.

Import SWRCache.

(** A revalidation of ["k"] is started and never finishes; the cache is
    cleared; the key is fetched anew. *)
Definition forgotten_revalidation : list (Event string) :=
  [Get 1000 "k" 5000 0; Fetched 1000 0 (Some "v1");
   Get 7000 "k" 5000 1;
   Clear;
   Get 7001 "k" 5000 2; Fetched 7002 2 (Some "v2")].

End CacheSamples.

(* ===================================================================== *)
(** ** Properties of the circuit breaker *)
(* ===================================================================== *)

Section BreakerFacts.
Import CircuitBreaker.

Lemma recordFailure_closed now b :
  state b = CLOSED ->
  recordFailure now b =
    mk (if threshold b <=? failureCount b + 1 then OPEN else CLOSED)
       (failureCount b + 1) now (successCount b) (threshold b) (resetTimeMs b).
Proof.
  intros Hs. unfold recordFailure. simpl. rewrite Hs.
  destruct (threshold b <=? failureCount b + 1); reflexivity.
Qed.

(** While the breaker stays below its threshold the failure counter is the
    number of failures recorded since it was last zero. *)
Lemma recordFailures_below times : forall b,
  state b = CLOSED ->
  failureCount b + Z.of_nat (length times) < threshold b ->
  let b' := recordFailures times b in
  state b' = CLOSED /\
  failureCount b' = failureCount b + Z.of_nat (length times) /\
  threshold b' = threshold b /\ resetTimeMs b' = resetTimeMs b.
Proof.
  induction times as [|now times IH]; intros b Hs Hlt; simpl in *.
  - repeat split; try assumption; lia.
  - assert (Hstep : recordFailure now b =
              mk CLOSED (failureCount b + 1) now (successCount b)
                 (threshold b) (resetTimeMs b)).
    { rewrite recordFailure_closed by exact Hs.
      destruct (Z.leb_spec (threshold b) (failureCount b + 1)); [lia|reflexivity]. }
    unfold recordFailures in *. simpl. rewrite Hstep.
    specialize (IH (mk CLOSED (failureCount b + 1) now (successCount b)
                       (threshold b) (resetTimeMs b))).
    simpl in IH. destruct IH as (H1 & H2 & H3 & H4); [reflexivity|lia|].
    repeat split; try assumption. lia.
Qed.

Lemma same_behaviour_apply op b1 b2 :
  same_behaviour b1 b2 ->
  fst (apply op b1) = fst (apply op b2) /\
  same_behaviour (snd (apply op b1)) (snd (apply op b2)).
Proof.
  intros (Hs & Hf & Hl & Ht & Hr & Hc).
  destruct b1 as [s1 f1 l1 c1 t1 r1], b2 as [s2 f2 l2 c2 t2 r2];
    simpl in *; subst.
  destruct op as [now| |now|]; destruct s2; simpl;
    unfold canExecute, recordSuccess, recordFailure, reset, same_behaviour;
    simpl; try rewrite Hc by reflexivity;
    repeat match goal with
           | |- context [if ?c then _ else _] => destruct c
           end;
    simpl; repeat split; intros; congruence.
Qed.

Lemma same_behaviour_observe ops : forall b1 b2,
  same_behaviour b1 b2 -> observe ops b1 = observe ops b2.
Proof.
  induction ops as [|op ops IH]; intros b1 b2 Hsame; [reflexivity|].
  destruct (same_behaviour_apply op b1 b2 Hsame) as [Hres Hnext].
  simpl. destruct (apply op b1) as [r1 b1'], (apply op b2) as [r2 b2'].
  simpl in *. subst r2.
  destruct Hnext as (Hs & Hrest). unfold getState. rewrite Hs.
  f_equal. apply IH. split; [exact Hs|exact Hrest].
Qed.

Lemma breaker_run_cons op ops b :
  run (op :: ops) b = run ops (snd (apply op b)).
Proof. reflexivity. Qed.

Lemma breaker_run_app ops1 ops2 b :
  run (ops1 ++ ops2) b = run ops2 (run ops1 b).
Proof. unfold run. by rewrite foldl_app. Qed.

Lemma run_resetTimeMs ops : forall b, resetTimeMs (run ops b) = resetTimeMs b.
Proof.
  induction ops as [|op ops IH]; intros b; [done|].
  rewrite breaker_run_cons, IH. destruct b as [st f l c th r].
  destruct op as [now| |now|]; destruct st; simpl;
    unfold canExecute, recordSuccess, recordFailure, reset; simpl;
    repeat match goal with
           | |- context [if ?c then _ else _] => destruct c
           end; reflexivity.
Qed.

(** Whenever the breaker is not closed, [lastFailureTime] is the time of the
    last [recordFailure()] call. *)
Lemma last_failure_tracks ops : forall b seen,
  (state b <> CLOSED -> seen = Some (lastFailureTime b)) ->
  state (run ops b) <> CLOSED ->
  last_failure_from seen ops = Some (lastFailureTime (run ops b)).
Proof.
  induction ops as [|op ops IH]; intros b seen Hseen Hopen.
  - simpl in *. by apply Hseen.
  - rewrite breaker_run_cons in Hopen. rewrite breaker_run_cons.
    destruct op as [now| |now|]; simpl; apply IH; try done.
    + simpl. unfold canExecute. destruct b as [st f l c th r].
      destruct st; simpl in *; try done;
        repeat match goal with
               | |- context [if ?c then _ else _] => destruct c
               end; simpl; try done; intros _; by apply Hseen.
    + simpl. unfold recordSuccess. destruct b as [st f l c th r].
      destruct st; simpl in *; try done;
        repeat match goal with
               | |- context [if ?c then _ else _] => destruct c
               end; simpl; try done; intros _; by apply Hseen.
    + simpl. intros _. unfold recordFailure. destruct b as [st f l c th r].
      destruct st; simpl; try done; by destruct (th <=? f + 1).
Qed.

End BreakerFacts.

Section BreakerClaims.
Import CircuitBreaker.

Lemma recordFailures_snoc times now b :
  recordFailures (times ++ [now]) b = recordFailure now (recordFailures times b).
Proof. unfold recordFailures. rewrite foldl_app. reflexivity. Qed.

Lemma canExecute_open now o :
  state o = OPEN ->
  (now - lastFailureTime o < resetTimeMs o -> canExecute now o = (false, o)) /\
  (resetTimeMs o <= now - lastFailureTime o ->
     canExecute now o =
       (true, mk HALF_OPEN (failureCount o) (lastFailureTime o) 0
                 (threshold o) (resetTimeMs o))).
Proof.
  intros Ho. unfold canExecute. rewrite Ho.
  destruct (Z.leb_spec (resetTimeMs o) (now - lastFailureTime o));
    split; intros; (reflexivity || lia).
Qed.

(** C3. For every threshold [N >= 1] and every [resetTimeMs = T]: from a
  Closed breaker whose failure counter is zero, fewer than [N] consecutive
  [recordFailure()] calls leave it Closed and the [N]-th makes it Open,
  stamped with the time of that call.  While Open, [canExecute()] answers
  false and changes nothing as long as less than [T] has elapsed since the
  last failure, and answers true from elapsed time [T] on, the same call
  moving the breaker to HalfOpen with a zero success count.  The last
  failure is the last [recordFailure()] call of the whole history, whatever
  the state in which it was made: after any sequence of operations that
  leaves the breaker Open such a call exists, its time is what
  [lastFailureTime] holds, and the cool-down is counted from it. *)
Theorem breaker_threshold_and_cooldown (N : nat) (T : Z) (b : t) :
  (1 <= N)%nat ->
  state b = CLOSED -> failureCount b = 0 ->
  threshold b = Z.of_nat N -> resetTimeMs b = T ->
  (forall times : list Z, (length times < N)%nat ->
     state (recordFailures times b) = CLOSED) /\
  (forall times : list Z, length times = N ->
     state (recordFailures times b) = OPEN /\
     last times = Some (lastFailureTime (recordFailures times b)) /\
     resetTimeMs (recordFailures times b) = T) /\
  (forall (o : t) (now : Z), state o = OPEN -> resetTimeMs o = T ->
     (now - lastFailureTime o < T -> canExecute now o = (false, o)) /\
     (T <= now - lastFailureTime o ->
        canExecute now o =
          (true, mk HALF_OPEN (failureCount o) (lastFailureTime o) 0
                    (threshold o) (resetTimeMs o)))) /\
  (forall ops : list Op, state (run ops b) = OPEN ->
     exists failed : Z,
       last_failure ops = Some failed /\
       lastFailureTime (run ops b) = failed /\
       forall now : Z,
         (now - failed < T -> canExecute now (run ops b) = (false, run ops b)) /\
         (T <= now - failed ->
            fst (canExecute now (run ops b)) = true /\
            state (snd (canExecute now (run ops b))) = HALF_OPEN /\
            successCount (snd (canExecute now (run ops b))) = 0)).
Proof.
  intros HN Hs Hf Ht Hr. split; [|split; [|split]].
  - intros times Hlen.
    apply (recordFailures_below times b Hs). lia.
  - intros times Hlen.
    destruct (decide (times = [])) as [->|Hne]; [simpl in Hlen; lia|].
    destruct (exists_last Hne) as (front & now & ->).
    rewrite length_app in Hlen. simpl in Hlen.
    rewrite recordFailures_snoc, last_snoc.
    destruct (recordFailures_below front b Hs) as (Hs' & Hf' & Ht' & Hr'); [lia|].
    rewrite recordFailure_closed by exact Hs'. simpl.
    rewrite Ht', Hf', Hf, Ht, Hr', Hr.
    destruct (Z.leb_spec (Z.of_nat N) (0 + Z.of_nat (length front) + 1));
      [auto|lia].
  - intros o now Ho HT. subst T. rewrite <- HT. apply canExecute_open, Ho.
  - intros ops Hopen.
    assert (Htrack : last_failure ops = Some (lastFailureTime (run ops b))).
    { apply last_failure_tracks; [by rewrite Hs|by rewrite Hopen]. }
    exists (lastFailureTime (run ops b)). split; [done|]. split; [done|].
    intros now.
    destruct (canExecute_open now (run ops b) Hopen) as [Hcold Hwarm].
    rewrite run_resetTimeMs, Hr in Hcold, Hwarm.
    split; [exact Hcold|]. intros Hnow. by rewrite (Hwarm Hnow).
Qed.

Lemma breaker_threshold_and_cooldown_witness :
  let b := create 2 10000 in
  let ops := [OpRecordFailure 0; OpRecordFailure 1; OpRecordFailure 5000] in
  state (recordFailures [0; 1] b) = OPEN /\
  last_failure ops = Some 5000 /\
  canExecute 10001 (run ops b) = (false, run ops b) /\
  fst (canExecute 15000 (run ops b)) = true.
Proof.
  destruct (breaker_threshold_and_cooldown 2 10000 (create 2 10000))
    as (_ & Hopen & _ & Hlast);
    [lia | reflexivity | reflexivity | reflexivity | reflexivity |].
  destruct (Hlast [OpRecordFailure 0; OpRecordFailure 1; OpRecordFailure 5000])
    as (failed & Hfailed & _ & Hcool); [reflexivity|].
  injection Hfailed as <-.
  split; [by apply (Hopen [0; 1])|]. split; [reflexivity|].
  split; [apply (Hcool 10001); lia|apply (Hcool 15000); lia].
Defined.

(** Scenario A of the specification, evaluated. *)
Example breaker_scenario_A :
  let b := recordFailures [0; 0] (create 2 10000) in
  state b = OPEN /\
  canExecute 9999 b = (false, b) /\
  fst (canExecute 10000 b) = true /\
  state (snd (canExecute 10000 b)) = HALF_OPEN /\
  state (recordSuccess (recordSuccess (snd (canExecute 10000 b)))) = CLOSED.
Proof. repeat split. Qed.

(** C4, as the code has it.  In HalfOpen, entered with a zero success
  count: one [recordSuccess()] leaves the breaker HalfOpen, the second
  closes it with [failureCount = 0], [successCount = 0] and
  [lastFailureTime = 0]; a single [recordFailure()] after zero or after one
  success re-opens it and stamps [lastFailureTime].  [recordFailure()] does
  not touch the success count: after one success and a failure [getStats()]
  reports [successCount = 1].  The count is without effect from then on:
  the breaker re-opened after one success answers every later sequence of
  [canExecute], [recordSuccess], [recordFailure] and [reset] calls exactly
  as the one re-opened after none, and the count is set to zero when
  [canExecute()] next moves the breaker to HalfOpen. *)
Theorem breaker_half_open_recovery (b : t) (now : Z) :
  state b = HALF_OPEN -> successCount b = 0 ->
  let b1 := recordSuccess b in
  let b2 := recordSuccess b1 in
  (state b1 = HALF_OPEN /\ successCount b1 = 1) /\
  (state b2 = CLOSED /\ failureCount b2 = 0 /\ successCount b2 = 0 /\
   lastFailureTime b2 = 0) /\
  (state (recordFailure now b) = OPEN /\
   lastFailureTime (recordFailure now b) = now) /\
  (state (recordFailure now b1) = OPEN /\
   lastFailureTime (recordFailure now b1) = now) /\
  (stats_successCount (getStats (recordFailure now b1)) = 1 /\
   stats_successCount (getStats (recordFailure now b)) = 0) /\
  (forall ops : list Op,
     observe ops (recordFailure now b1) = observe ops (recordFailure now b)) /\
  (forall later : Z, resetTimeMs b <= later - now ->
     fst (canExecute later (recordFailure now b1)) = true /\
     state (snd (canExecute later (recordFailure now b1))) = HALF_OPEN /\
     successCount (snd (canExecute later (recordFailure now b1))) = 0).
Proof.
  intros Hs Hc. destruct b as [s f l c th r]. simpl in *. subst s c.
  cbv zeta. unfold recordSuccess, recordFailure. simpl.
  repeat split.
  - intros ops. apply same_behaviour_observe.
    unfold same_behaviour. simpl. repeat split; intros; congruence.
  - unfold canExecute. simpl.
    destruct (Z.leb_spec r (later - now)); [reflexivity|lia].
  - unfold canExecute. simpl.
    destruct (Z.leb_spec r (later - now)); [reflexivity|lia].
  - unfold canExecute. simpl.
    destruct (Z.leb_spec r (later - now)); [reflexivity|lia].
Qed.

Lemma breaker_half_open_recovery_witness :
  let b := mk HALF_OPEN 2 0 0 2 10000 in
  state (recordSuccess (recordSuccess b)) = CLOSED /\
  state (recordFailure 10500 (recordSuccess b)) = OPEN /\
  lastFailureTime (recordFailure 10500 (recordSuccess b)) = 10500 /\
  stats_successCount (getStats (recordFailure 10500 (recordSuccess b))) = 1.
Proof.
  pose proof (breaker_half_open_recovery (mk HALF_OPEN 2 0 0 2 10000) 10500
                eq_refl eq_refl) as H.
  cbv zeta in H.
  destruct H as (_ & (Hclosed & _) & _ & (Hopen & Hstamp) & (Hkept & _) & _).
  exact (conj Hclosed (conj Hopen (conj Hstamp Hkept))).
Defined.

(** A breaker with threshold 2 is opened by two failures and becomes
    half-open after its reset time; one success is recorded, then a failure:
    [getStats()] still reports the success, where a breaker that had discarded
    it would report none. *)
Lemma failure_keeps_partial_success_count :
  let half_open :=
    run [OpRecordFailure 0; OpRecordFailure 0; OpCanExecute 10000]
        (create 2 10000) in
  let reopened :=
    run [OpRecordSuccess; OpRecordFailure 10500] half_open in
  state half_open = HALF_OPEN /\
  stats_state (getStats reopened) = OPEN /\
  stats_successCount (getStats reopened) = 1.
Proof. repeat split. Qed.

End BreakerClaims.

(* ===================================================================== *)
(** ** Properties of the concurrency limiter *)
(* ===================================================================== *)

Section LimiterFacts.
Import ConcurrencyLimiter.
Context {T E : Type}.
Implicit Types (s : State T E) (c k : Call T E) (r : QueuedRequest).

Lemma wf_create (m : Z) (e : E) : wf (create (T:=T) m e).
Proof.
  split; simpl; try done; try constructor; intros ? H; inversion H.
Qed.

Lemma find_call_Some (c : nat) (l : list (Call T E)) k :
  find_call c l = Some k -> k ∈ l /\ chain k = c.
Proof.
  unfold find_call. intros H. apply find_some in H as [Hin Heq].
  split; [by apply list_elem_of_In | by apply Nat.eqb_eq].
Qed.

Lemma find_call_None (c : nat) (l : list (Call T E)) :
  find_call c l = None -> forall k, k ∈ l -> chain k <> c.
Proof.
  unfold find_call. intros H k Hk Heq.
  apply list_elem_of_In in Hk.
  pose proof (find_none _ _ H k Hk) as Hf. simpl in Hf.
  apply Nat.eqb_neq in Hf. done.
Qed.

Lemma remove_call_length (c : nat) (l : list (Call T E)) k :
  k ∈ l -> chain k = c -> NoDup (chain <$> l) ->
  length l = S (length (remove_call c l)).
Proof.
  unfold remove_call. induction l as [|x l IH]; intros Hin Hc Hnd.
  - inversion Hin.
  - rewrite fmap_cons in Hnd. apply NoDup_cons in Hnd as [Hx Hnd].
    destruct (decide (chain x = c)) as [Heq|Hne].
    + rewrite filter_cons_False by (intros ?; done). simpl. f_equal.
      assert (Hall : forall y, y ∈ l -> chain y <> c).
      { intros y Hy Hyc. apply Hx. rewrite Heq, <- Hyc.
        by apply list_elem_of_fmap_2. }
      clear -Hall. induction l as [|y l IH]; [done|].
      rewrite filter_cons_True by (apply Hall; left). simpl. f_equal.
      apply IH. intros z Hz. apply Hall. by right.
    + rewrite filter_cons_True by done. simpl. f_equal.
      apply IH; [|done|done].
      apply elem_of_cons in Hin as [->|Hin]; [done|done].
Qed.

Lemma NoDup_fmap_eq {A B : Type} (f : A -> B) (l : list A) (x y : A) :
  NoDup (f <$> l) -> x ∈ l -> y ∈ l -> f x = f y -> x = y.
Proof.
  induction l as [|a l IH]; intros Hnd Hx Hy Hf; [inversion Hx|].
  rewrite fmap_cons in Hnd. apply NoDup_cons in Hnd as [Ha Hnd].
  apply elem_of_cons in Hx as [->|Hx]; apply elem_of_cons in Hy as [->|Hy].
  - done.
  - exfalso. apply Ha. rewrite Hf. by apply list_elem_of_fmap_2.
  - exfalso. apply Ha. rewrite <- Hf. by apply list_elem_of_fmap_2.
  - by apply IH.
Qed.

Section Distinct.
Variable s : State T E.
Hypothesis Hnd : NoDup (ids s).

Lemma queue_not_target r c : r ∈ queue s -> c ∈ calls s -> promise r <> target c.
Proof.
  intros Hr Hc Heq. unfold ids in Hnd.
  apply NoDup_app in Hnd as (_ & Hdis & _).
  apply (Hdis (promise r)); [by apply list_elem_of_fmap_2|].
  apply elem_of_app. left. rewrite Heq. by apply list_elem_of_fmap_2.
Qed.

Lemma queue_not_chain r c : r ∈ queue s -> c ∈ calls s -> promise r <> chain c.
Proof.
  intros Hr Hc Heq. unfold ids in Hnd.
  apply NoDup_app in Hnd as (_ & Hdis & _).
  apply (Hdis (promise r)); [by apply list_elem_of_fmap_2|].
  apply elem_of_app. right. rewrite Heq. by apply list_elem_of_fmap_2.
Qed.

Lemma target_not_chain c1 c2 : c1 ∈ calls s -> c2 ∈ calls s -> target c1 <> chain c2.
Proof.
  intros H1 H2 Heq. unfold ids in Hnd.
  apply NoDup_app in Hnd as (_ & _ & Hnd').
  apply NoDup_app in Hnd' as (_ & Hdis & _).
  apply (Hdis (target c1)); [by apply list_elem_of_fmap_2|].
  rewrite Heq. by apply list_elem_of_fmap_2.
Qed.

Lemma chains_nodup : NoDup (chain <$> calls s).
Proof.
  unfold ids in Hnd. apply NoDup_app in Hnd as (_ & _ & Hnd').
  by apply NoDup_app in Hnd' as (_ & _ & ?).
Qed.

Lemma targets_nodup : NoDup (target <$> calls s).
Proof.
  unfold ids in Hnd. apply NoDup_app in Hnd as (_ & _ & Hnd').
  by apply NoDup_app in Hnd' as (? & _ & _).
Qed.

Lemma queue_nodup : NoDup (promise <$> queue s).
Proof. unfold ids in Hnd. by apply NoDup_app in Hnd as (? & _ & _). Qed.

Lemma same_chain c1 c2 : c1 ∈ calls s -> c2 ∈ calls s -> chain c1 = chain c2 -> c1 = c2.
Proof. apply NoDup_fmap_eq, chains_nodup. Qed.

Lemma same_target c1 c2 : c1 ∈ calls s -> c2 ∈ calls s -> target c1 = target c2 -> c1 = c2.
Proof. apply NoDup_fmap_eq, targets_nodup. Qed.

End Distinct.

Lemma set_queue_same s : set_queue (queue s) s = s.
Proof. by destruct s. Qed.

Lemma begin_wf now ex req rest s :
  wf s -> queue s = req :: rest -> wf (begin now ex req (set_queue rest s)).
Proof.
  intros [Hcnt Hnd Hfr Hst Hpe Hch Htg] Hq.
  assert (Hperm : ids (begin now ex req (set_queue rest s)) ≡ₚ fresh s :: ids s).
  { unfold ids. simpl. rewrite Hq, !fmap_app. simpl. solve_Permutation. }
  assert (Hreq : req ∈ queue s) by (rewrite Hq; left).
  assert (Hnew : promises s !! fresh s = None).
  { destruct (promises s !! fresh s) eqn:Hl; [|done].
    apply Hst in Hl. lia. }
  split; simpl.
  - rewrite length_app. simpl. lia.
  - rewrite Hperm. apply NoDup_cons. split; [|done].
    intros Hin. apply Hfr in Hin. lia.
  - intros i Hi. rewrite Hperm in Hi.
    apply elem_of_cons in Hi as [->|Hi]; [lia|]. apply Hfr in Hi. lia.
  - intros p o Hp. apply Hst in Hp. lia.
  - intros r Hr. apply Hpe. rewrite Hq. by right.
  - intros c Hc. apply elem_of_app in Hc as [Hc|Hc]; [by apply Hch|].
    apply list_elem_of_singleton in Hc as ->. done.
  - intros c Hc. apply elem_of_app in Hc as [Hc|Hc]; [by apply Htg|].
    apply list_elem_of_singleton in Hc as ->. simpl. by apply Hpe.
Qed.

Lemma drain_wf now ex pending : forall s,
  wf s -> queue s = pending -> wf (drain now ex pending s).
Proof.
  induction pending as [|req rest IH]; intros s Hwf Hq; simpl.
  - rewrite <- Hq, set_queue_same. done.
  - destruct (activeCount s <? maxConcurrency s).
    + apply IH; [by apply begin_wf|done].
    + rewrite <- Hq, set_queue_same. done.
Qed.

Lemma processQueue_wf now ex s : wf s -> wf (processQueue now ex s).
Proof. intros. by apply drain_wf. Qed.

Lemma execute_wf now cfg ex s : wf s -> wf (snd (execute now cfg ex s)).
Proof.
  intros Hwf. unfold execute.
  destruct (if dedupeEnabled cfg then inFlight s !! getDedupeKey cfg else None);
    [done|]. simpl.
  apply processQueue_wf.
  destruct Hwf as [Hcnt Hnd Hfr Hst Hpe Hch Htg].
  assert (Hnew : promises s !! fresh s = None).
  { destruct (promises s !! fresh s) eqn:Hl; [|done].
    apply Hst in Hl. lia. }
  match goal with |- wf ?s' =>
    assert (Hperm : ids s' ≡ₚ fresh s :: ids s)
  end.
  { unfold ids. simpl. rewrite !fmap_app. simpl. solve_Permutation. }
  split; simpl; try done.
  - rewrite Hperm. apply NoDup_cons. split; [|done].
    intros Hin. apply Hfr in Hin. lia.
  - intros i Hi. rewrite Hperm in Hi.
    apply elem_of_cons in Hi as [->|Hi]; [lia|]. apply Hfr in Hi. lia.
  - intros p o Hp. apply Hst in Hp. lia.
  - intros r Hr. apply elem_of_app in Hr as [Hr|Hr]; [by apply Hpe|].
    apply list_elem_of_singleton in Hr as ->. done.
Qed.

Lemma mark_settled_chain (c : nat) (o : Outcome T) (l : list (Call T E)) :
  chain <$> mark_settled c o l = chain <$> l.
Proof.
  unfold mark_settled. rewrite <- list_fmap_compose. apply list_fmap_ext.
  intros i x _. simpl. by destruct (decide (chain x = c)).
Qed.

Lemma mark_settled_target (c : nat) (o : Outcome T) (l : list (Call T E)) :
  target <$> mark_settled c o l = target <$> l.
Proof.
  unfold mark_settled. rewrite <- list_fmap_compose. apply list_fmap_ext.
  intros i x _. simpl. by destruct (decide (chain x = c)).
Qed.

Lemma mark_settled_elem (c : nat) (o : Outcome T) (l : list (Call T E)) k :
  k ∈ mark_settled c o l ->
  exists k0, k0 ∈ l /\ request k = request k0 /\ key k = key k0 /\
             chain k = chain k0 /\ executor k = executor k0 /\
             settled k = (if decide (chain k0 = c) then Some o else settled k0).
Proof.
  unfold mark_settled. intros Hk.
  apply list_elem_of_fmap in Hk as (k0 & -> & Hk0).
  exists k0. by destruct (decide (chain k0 = c)).
Qed.

Lemma settle_pending (p : nat) (o : Outcome T) (m : gmap nat (Outcome T)) :
  m !! p = None -> settle p o m = <[p := o]> m.
Proof. intros H. unfold settle. by rewrite H. Qed.

Lemma settle_keeps (p q : nat) (o o' : Outcome T) (m : gmap nat (Outcome T)) :
  m !! q = Some o' -> settle p o m !! q = Some o'.
Proof.
  intros H. unfold settle. destruct (m !! p) eqn:Hp; [done|].
  rewrite lookup_insert_ne; [done|]. intros ->. congruence.
Qed.

Lemma settle_other (p q : nat) (o : Outcome T) (m : gmap nat (Outcome T)) :
  p <> q -> settle p o m !! q = m !! q.
Proof.
  intros H. unfold settle. destruct (m !! p) eqn:Hp; [done|].
  by rewrite lookup_insert_ne.
Qed.

Lemma on_settled_wf (c : nat) (o : Outcome T) s : wf s -> wf (on_settled c o s).
Proof.
  intros Hwf. unfold on_settled.
  destruct (find_call c (calls s)) as [call|] eqn:Hfind; [|done].
  destruct (settled call) eqn:Hset; [done|].
  apply find_call_Some in Hfind as [Hin Hc].
  pose proof Hwf as [Hcnt Hnd Hfr Hst Hpe Hch Htg].
  assert (Hp : promises s !! target call = None).
  { rewrite (Htg call Hin). done. }
  fold (target call). rewrite settle_pending by done.
  split; simpl.
  - unfold mark_settled. rewrite length_fmap. done.
  - unfold ids. simpl. rewrite mark_settled_chain, mark_settled_target. done.
  - unfold ids. simpl. rewrite mark_settled_chain, mark_settled_target. done.
  - intros p o' Hl. destruct (decide (p = target call)) as [->|Hne].
    + apply Hfr. unfold ids. apply elem_of_app. right. apply elem_of_app. left.
      by apply list_elem_of_fmap_2.
    + rewrite lookup_insert_ne in Hl by done. by eapply Hst.
  - intros r Hr. rewrite lookup_insert_ne; [by apply Hpe|].
    intros Heq. by eapply (queue_not_target s Hnd r call).
  - intros k Hk. apply mark_settled_elem in Hk as (k0 & Hk0 & _ & _ & Hchain & _).
    rewrite Hchain. rewrite lookup_insert_ne; [by apply Hch|].
    by apply (target_not_chain s Hnd).
  - intros k Hk. apply mark_settled_elem in Hk as (k0 & Hk0 & Hreq & _ & _ & _ & Hs).
    unfold target. rewrite Hreq, Hs. fold (target k0).
    destruct (decide (chain k0 = c)) as [Heq|Hne].
    + assert (k0 = call) as -> by (apply (same_chain s Hnd); congruence).
      by rewrite lookup_insert_eq.
    + rewrite lookup_insert_ne; [by apply Htg|].
      intros Heq. apply Hne.
      assert (call = k0) as <- by (by apply (same_target s Hnd)). done.
Qed.

Lemma drain_set_promises now ex m pending : forall s,
  set_promises m (drain now ex pending s) = drain now ex pending (set_promises m s).
Proof.
  induction pending as [|req rest IH]; intros s; simpl; [done|].
  destruct (activeCount s <? maxConcurrency s); [|done].
  rewrite IH. done.
Qed.

Lemma drain_promises now ex pending : forall s,
  promises (drain now ex pending s) = promises s.
Proof.
  induction pending as [|req rest IH]; intros s; simpl; [done|].
  destruct (activeCount s <? maxConcurrency s); [|done].
  rewrite IH. done.
Qed.

Lemma remove_call_sub (c : nat) (l : list (Call T E)) k :
  k ∈ remove_call c l -> k ∈ l /\ chain k <> c.
Proof. unfold remove_call. intros H. apply list_elem_of_filter in H. tauto. Qed.

Lemma on_finally_cases now (c : nat) s :
  on_finally now c s = s \/
  exists call o,
    call ∈ calls s /\ chain call = c /\ settled call = Some o /\
    on_finally now c s =
      drain now (executor call) (queue s)
        (set_promises (settle c o (promises s)) (release call s)).
Proof.
  unfold on_finally.
  destruct (find_call c (calls s)) as [call|] eqn:Hfind; [|by left].
  destruct (settled call) as [o|] eqn:Hset; [|by left].
  apply find_call_Some in Hfind as [Hin Hc].
  right. exists call, o. repeat split; try done.
  cbv zeta. unfold processQueue.
  by rewrite drain_promises, drain_set_promises.
Qed.

Lemma release_wf (c : nat) call o s :
  wf s -> call ∈ calls s -> chain call = c -> settled call = Some o ->
  wf (set_promises (settle c o (promises s)) (release call s)).
Proof.
  intros Hwf Hin Hc Hset.
  pose proof Hwf as [Hcnt Hnd Hfr Hst Hpe Hch Htg].
  assert (Hsub : forall k, k ∈ remove_call c (calls s) -> k ∈ calls s /\ chain k <> c).
  { intros k Hk. by apply remove_call_sub. }
  assert (Hpc : promises s !! c = None) by (rewrite <- Hc; by apply Hch).
  rewrite settle_pending by done. rewrite <- Hc in Hsub.
  split; simpl.
  - rewrite (remove_call_length (chain call) (calls s) call Hin eq_refl
               (chains_nodup s Hnd)) in Hcnt.
    lia.
  - apply (sublist_NoDup _ (ids s)); [exact Hnd|]. unfold ids. simpl.
    apply sublist_app; [done|].
    apply sublist_app; apply fmap_sublist, sublist_filter.
  - intros i Hi. apply Hfr. unfold ids in *. simpl in Hi.
    rewrite !elem_of_app in Hi. rewrite !elem_of_app.
    destruct Hi as [Hi|[Hi|Hi]]; [by left| |].
    + right; left. apply list_elem_of_fmap in Hi as (k & -> & Hk).
      apply list_elem_of_fmap_2. by apply Hsub.
    + right; right. apply list_elem_of_fmap in Hi as (k & -> & Hk).
      apply list_elem_of_fmap_2. by apply Hsub.
  - intros p o' Hl. destruct (decide (p = c)) as [->|Hne].
    + apply Hfr. unfold ids. rewrite !elem_of_app. right; right.
      rewrite <- Hc. by apply list_elem_of_fmap_2.
    + rewrite lookup_insert_ne in Hl by done. by eapply Hst.
  - intros r Hr. rewrite lookup_insert_ne; [by apply Hpe|].
    rewrite <- Hc. intros Heq. by eapply (queue_not_chain s Hnd r call).
  - intros k Hk. apply Hsub in Hk as [Hk Hne].
    rewrite lookup_insert_ne; [by apply Hch|]. congruence.
  - intros k Hk. apply Hsub in Hk as [Hk Hne].
    rewrite lookup_insert_ne; [by apply Htg|].
    rewrite <- Hc. intros Heq. by eapply (target_not_chain s Hnd k call).
Qed.

Lemma on_finally_wf now (c : nat) s : wf s -> wf (on_finally now c s).
Proof.
  intros Hwf.
  destruct (on_finally_cases now c s) as [->|(call & o & Hin & Hc & Hset & ->)];
    [done|].
  apply drain_wf; [|done]. by apply release_wf.
Qed.

Lemma reject_all_keeps q : forall (m : gmap nat (Outcome T)) (p : nat) o,
  m !! p = Some o -> reject_all q m !! p = Some o.
Proof.
  induction q as [|r q IH]; intros m p o H; simpl; [done|].
  apply IH. by apply settle_keeps.
Qed.

Lemma reject_all_other q : forall (m : gmap nat (Outcome T)) (p : nat),
  p ∉ promise <$> q -> reject_all q m !! p = m !! p.
Proof.
  induction q as [|r q IH]; intros m p H; simpl; [done|].
  rewrite fmap_cons in H. apply not_elem_of_cons in H as [Hne Hq].
  unfold reject_all in *. rewrite IH by done. by apply settle_other.
Qed.

Lemma reject_all_inv q : forall (m : gmap nat (Outcome T)) (p : nat) o,
  reject_all q m !! p = Some o ->
  m !! p = Some o \/ (p ∈ promise <$> q /\ o = Rejected queue_cleared).
Proof.
  induction q as [|r q IH]; intros m p o H; simpl in *; [by left|].
  apply IH in H as [H|[Hin ->]].
  - unfold settle in H. destruct (m !! promise r) eqn:Hr; [by left|].
    destruct (decide (promise r = p)) as [<-|Hne].
    + rewrite lookup_insert_eq in H. inversion H. right. split; [left|done].
    + rewrite lookup_insert_ne in H by done. by left.
  - right. split; [by right|done].
Qed.

Lemma reject_all_pending q : forall (m : gmap nat (Outcome T)) (p : nat),
  p ∈ promise <$> q -> m !! p = None ->
  reject_all q m !! p = Some (Rejected queue_cleared).
Proof.
  induction q as [|r q IH]; intros m p Hin Hm; simpl in *; [inversion Hin|].
  destruct (decide (promise r = p)) as [Heq|Hne].
  - apply reject_all_keeps. rewrite Heq, settle_pending by done.
    by rewrite lookup_insert_eq.
  - apply elem_of_cons in Hin as [?|Hin]; [congruence|].
    apply IH; [done|]. by rewrite settle_other.
Qed.

Lemma clear_wf s : wf s -> wf (clear s).
Proof.
  intros [Hcnt Hnd Hfr Hst Hpe Hch Htg]. unfold clear.
  fold (reject_all (queue s) (promises s)).
  split; simpl.
  - done.
  - apply (sublist_NoDup _ (ids s)); [exact Hnd|]. unfold ids. simpl.
    by apply sublist_inserts_l.
  - intros i Hi. apply Hfr. unfold ids in *. simpl in Hi.
    apply elem_of_app. by right.
  - intros p o Hl. apply reject_all_inv in Hl as [Hl|[Hin _]]; [by eapply Hst|].
    apply Hfr. unfold ids. apply elem_of_app. by left.
  - intros r Hr. inversion Hr.
  - intros c Hc. rewrite reject_all_other; [by apply Hch|].
    intros Hin. apply list_elem_of_fmap in Hin as (r & Heq & Hr).
    symmetry in Heq. by eapply (queue_not_chain s Hnd r c).
  - intros c Hc. rewrite reject_all_other; [by apply Htg|].
    intros Hin. apply list_elem_of_fmap in Hin as (r & Heq & Hr).
    symmetry in Heq. by eapply (queue_not_target s Hnd r c).
Qed.

Lemma step_wf s (ev : Event T E) : wf s -> wf (step s ev).
Proof.
  destruct ev; simpl.
  - apply execute_wf.
  - apply on_settled_wf.
  - apply on_finally_wf.
  - apply clear_wf.
  - by intros [].
Qed.

Lemma run_cons s (ev : Event T E) evs : run s (ev :: evs) = run (step s ev) evs.
Proof. reflexivity. Qed.

Lemma run_app s (evs1 evs2 : list (Event T E)) :
  run s (evs1 ++ evs2) = run (run s evs1) evs2.
Proof. unfold run. apply foldl_app. Qed.

Lemma run_wf (evs : list (Event T E)) : forall s, wf s -> wf (run s evs).
Proof.
  induction evs as [|ev evs IH]; intros s Hwf; [done|].
  rewrite run_cons. apply IH. by apply step_wf.
Qed.

(** *** The concurrency bound *)

Lemma drain_bounded now ex pending : forall s,
  bounded s -> bounded (drain now ex pending s).
Proof.
  unfold bounded.
  induction pending as [|req rest IH]; intros s Hb; simpl; [done|].
  destruct (Z.ltb_spec (activeCount s) (maxConcurrency s)); [|done].
  apply IH. simpl. lia.
Qed.

Lemma drain_saturated now ex pending : forall s,
  saturated (drain now ex pending s).
Proof.
  unfold saturated.
  induction pending as [|req rest IH]; intros s; simpl; [by left|].
  destruct (Z.ltb_spec (activeCount s) (maxConcurrency s)); [apply IH|].
  right. done.
Qed.

Lemma drain_maxConcurrency now ex pending : forall s,
  maxConcurrency (drain now ex pending s) = maxConcurrency s.
Proof.
  induction pending as [|req rest IH]; intros s; simpl; [done|].
  destruct (activeCount s <? maxConcurrency s); [|done].
  by rewrite IH.
Qed.

Lemma step_maxConcurrency s (ev : Event T E) :
  maxConcurrency (step s ev) = maxConcurrency s.
Proof.
  destruct ev as [now cfg ex|c o|now c| |f]; simpl; try done.
  - unfold execute.
    destruct (if dedupeEnabled cfg then inFlight s !! getDedupeKey cfg else None);
      [done|]. simpl. unfold processQueue. by rewrite drain_maxConcurrency.
  - unfold on_settled. destruct (find_call c (calls s)) as [call|]; [|done].
    by destruct (settled call).
  - destruct (on_finally_cases now c s) as [->|(call & o & _ & _ & _ & ->)];
      [done|]. by rewrite drain_maxConcurrency.
Qed.

Lemma run_maxConcurrency (evs : list (Event T E)) : forall s,
  maxConcurrency (run s evs) = maxConcurrency s.
Proof.
  induction evs as [|ev evs IH]; intros s; [done|].
  by rewrite run_cons, IH, step_maxConcurrency.
Qed.

Lemma step_bounded s (ev : Event T E) : bounded s -> bounded (step s ev).
Proof.
  intros Hb. destruct ev as [now cfg ex|c o|now c| |f]; simpl; try done.
  - unfold execute.
    destruct (if dedupeEnabled cfg then inFlight s !! getDedupeKey cfg else None);
      [done|]. simpl. by apply drain_bounded.
  - unfold on_settled. destruct (find_call c (calls s)) as [call|]; [|done].
    by destruct (settled call).
  - destruct (on_finally_cases now c s) as [->|(call & o & _ & _ & _ & ->)];
      [done|]. apply drain_bounded. unfold bounded in *. simpl. lia.
Qed.

Lemma run_bounded (evs : list (Event T E)) : forall s,
  bounded s -> bounded (run s evs).
Proof.
  induction evs as [|ev evs IH]; intros s Hb; [done|].
  rewrite run_cons. apply IH. by apply step_bounded.
Qed.

Lemma step_saturated s (ev : Event T E) : saturated s -> saturated (step s ev).
Proof.
  intros Hb. destruct ev as [now cfg ex|c o|now c| |f]; simpl; try done.
  - unfold execute.
    destruct (if dedupeEnabled cfg then inFlight s !! getDedupeKey cfg else None);
      [done|]. simpl. apply drain_saturated.
  - unfold on_settled. destruct (find_call c (calls s)) as [call|]; [|done].
    by destruct (settled call).
  - destruct (on_finally_cases now c s) as [->|(call & o & _ & _ & _ & ->)];
      [done|]. apply drain_saturated.
  - by left.
Qed.

Lemma run_saturated (evs : list (Event T E)) : forall s,
  saturated s -> saturated (run s evs).
Proof.
  induction evs as [|ev evs IH]; intros s Hb; [done|].
  rewrite run_cons. apply IH. by apply step_saturated.
Qed.

(** C6. For every [maxConcurrency = M >= 0] and every sequence of
    [execute] calls, settlements, [finally] callbacks, [clear] calls and
    executor-side events, starting from a new limiter: [activeCount] is the
    number of executions whose [finally] callback has not run yet, and it
    never exceeds [M]; so neither does the number of requests whose executor
    has not settled.  (Every prefix of a sequence is a sequence, so the bound
    holds at every point; inside [processQueue] each iteration is guarded by
    [activeCount < maxConcurrency].) *)
Theorem concurrency_bound (M : Z) (e : E) (evs : list (Event T E)) :
  0 <= M ->
  let s := run (create M e) evs in
  maxConcurrency s = M /\
  activeCount s = Z.of_nat (length (calls s)) /\
  activeCount s <= M /\
  Z.of_nat (length (executing s)) <= M.
Proof.
  intros HM s.
  assert (Hmax : maxConcurrency s = M) by apply run_maxConcurrency.
  assert (Hb : bounded s) by (apply run_bounded; unfold bounded; simpl; lia).
  assert (Hwf : wf s) by apply run_wf, wf_create.
  unfold bounded in Hb. rewrite Hmax in Hb.
  repeat split; try done.
  - apply Hwf.
  - pose proof (length_filter (fun c : Call T E => settled c = None) (calls s)).
    unfold executing. rewrite (wf_count s Hwf) in Hb. lia.
Qed.

(** *** Shapes of the results of the operations *)

Lemma execute_cases now cfg ex s :
  (exists existing,
     dedupeEnabled cfg = true /\
     inFlight s !! getDedupeKey cfg = Some existing /\
     execute now cfg ex s = (existing, s)) \/
  execute now cfg ex s =
    (fresh s, drain now ex (queue s ++ [mkRequest cfg (fresh s)]) (push cfg s)).
Proof.
  unfold execute. destruct (dedupeEnabled cfg); [|by right].
  destruct (inFlight s !! getDedupeKey cfg) as [existing|]; [|by right].
  left. by exists existing.
Qed.

Lemma on_settled_cases (c : nat) (o : Outcome T) s :
  on_settled c o s = s \/
  exists call,
    call ∈ calls s /\ chain call = c /\ settled call = None /\
    on_settled c o s = resolve_request call o s.
Proof.
  unfold on_settled.
  destruct (find_call c (calls s)) as [call|] eqn:Hfind; [|by left].
  destruct (settled call) eqn:Hset; [by left|].
  apply find_call_Some in Hfind as [Hin Hc].
  right. exists call. subst c. done.
Qed.

(** *** First in, first out *)

Lemma StronglySorted_snoc_lt (l : list nat) (x : nat) :
  StronglySorted lt l -> (forall y, y ∈ l -> (y < x)%nat) ->
  StronglySorted lt (l ++ [x]).
Proof.
  intros Hl Hx. apply StronglySorted_app. split; [|split; [done|]].
  - intros x1 x2 H1 H2. apply list_elem_of_singleton in H2 as ->. by apply Hx.
  - repeat constructor.
Qed.

Lemma begin_pipeline now ex req rest s :
  queue s = req :: rest ->
  pipeline (begin now ex req (set_queue rest s)) = pipeline s.
Proof.
  intros Hq. unfold pipeline. simpl. rewrite Hq, fmap_app, fmap_cons.
  simpl. by rewrite <- app_assoc.
Qed.

Lemma begin_fifo now ex req rest s :
  fifo s -> queue s = req :: rest -> fifo (begin now ex req (set_queue rest s)).
Proof.
  intros [H1 H2 H3 H4 H5] Hq.
  split; rewrite ?(begin_pipeline now ex req rest s Hq); simpl; try done.
  intros p Hp. apply H2 in Hp. lia.
Qed.

Lemma drain_fifo now ex pending : forall s,
  fifo s -> queue s = pending -> fifo (drain now ex pending s).
Proof.
  induction pending as [|req rest IH]; intros s Hf Hq; simpl.
  - by rewrite <- Hq, set_queue_same.
  - destruct (activeCount s <? maxConcurrency s);
      [|by rewrite <- Hq, set_queue_same].
    apply IH; [by apply begin_fifo|done].
Qed.

Lemma push_fifo cfg s : fifo s -> fifo (push cfg s).
Proof.
  intros [H1 H2 H3 H4 H5].
  assert (Hpipe : pipeline (push cfg s) = pipeline s ++ [fresh s]).
  { unfold pipeline. simpl. by rewrite fmap_app, app_assoc. }
  split; rewrite ?Hpipe; simpl.
  - by apply StronglySorted_snoc_lt.
  - intros p Hp. apply elem_of_app in Hp as [Hp|Hp].
    + apply H2 in Hp. lia.
    + apply list_elem_of_singleton in Hp as ->. lia.
  - apply StronglySorted_snoc_lt; [done|]. intros y Hy. by apply H2, H4.
  - intros p Hp. rewrite elem_of_app in *. destruct Hp as [Hp|Hp]; [|by right].
    left. by apply H4.
  - intros p Hp. rewrite elem_of_app in *. destruct Hp as [Hp|Hp].
    + apply H5 in Hp as [Hp|Hp]; [left; by left|by right].
    + left. by right.
Qed.

Lemma step_fifo s (ev : Event T E) : fifo s -> fifo (step s ev).
Proof.
  intros Hf. destruct ev as [now cfg ex|c o|now c| |f]; simpl.
  - destruct (execute_cases now cfg ex s) as [(existing & _ & _ & ->)| ->];
      [done|]. simpl. apply drain_fifo; [by apply push_fifo|done].
  - destruct (on_settled_cases c o s) as [->|(call & _ & _ & _ & ->)]; [done|].
    by destruct Hf.
  - destruct (on_finally_cases now c s) as [->|(call & o & _ & _ & _ & ->)];
      [done|]. apply drain_fifo; [|done]. by destruct Hf.
  - destruct Hf as [H1 H2 H3 H4 H5].
    assert (Hpipe : pipeline (clear s) = target <$> started s).
    { unfold pipeline. simpl. apply app_nil_r. }
    unfold pipeline in H3, H4, H5.
    split; rewrite ?Hpipe; simpl.
    + done.
    + done.
    + by apply StronglySorted_app_1_l in H3.
    + intros p Hp. apply H4. apply elem_of_app. by left.
    + intros p Hp. apply H5 in Hp.
      rewrite !elem_of_app in *. tauto.
  - by destruct Hf.
Qed.

Lemma run_fifo (evs : list (Event T E)) : forall s, fifo s -> fifo (run s evs).
Proof.
  induction evs as [|ev evs IH]; intros s Hf; [done|].
  rewrite run_cons. apply IH. by apply step_fifo.
Qed.

Lemma fifo_create (m : Z) (e : E) : fifo (create (T:=T) m e).
Proof.
  split; simpl; try (by constructor); intros p Hp; inversion Hp.
Qed.

Lemma StronglySorted_lt_lookup (l : list nat) : forall (i j : nat) (a b : nat),
  StronglySorted lt l -> l !! i = Some a -> l !! j = Some b ->
  (i < j)%nat -> (a < b)%nat.
Proof.
  induction l as [|x l IH]; intros i j a b Hs Hi Hj Hij; [done|].
  apply StronglySorted_cons in Hs as [Hall Hs].
  destruct j as [|j]; [lia|]. simpl in Hj.
  destruct i as [|i]; simpl in Hi.
  - inversion Hi; subst. rewrite Forall_forall in Hall.
    apply Hall. by eapply list_elem_of_lookup_2.
  - eapply IH; try done. lia.
Qed.

(** C7. Requests are admitted to execution in the order in which they were
    enqueued.  After any history, if request [a] was enqueued before request
    [b] and [b] has been started, then [a] was started before [b], unless
    [a] was removed from the queue by [clear()] (and so never starts).
    Requests are named by the promise created for them when they are
    enqueued; a call that attaches to an in-flight duplicate is not enqueued. *)
Theorem fifo_admission (M : Z) (e : E) (evs : list (Event T E))
    (i j n : nat) (a b : nat) :
  let s := run (create M e) evs in
  enqueued s !! i = Some a -> enqueued s !! j = Some b -> (i < j)%nat ->
  (target <$> started s) !! n = Some b ->
  a ∈ cleared s \/
  exists m : nat, (m < n)%nat /\ (target <$> started s) !! m = Some a.
Proof.
  intros s Ha Hb Hij Hn.
  assert (Hf : fifo s) by apply run_fifo, fifo_create.
  destruct Hf as [H1 H2 H3 H4 H5].
  assert (Hab : (a < b)%nat) by (by eapply (StronglySorted_lt_lookup (enqueued s) i j)).
  destruct (H5 a) as [Hp|Hc]; [by eapply list_elem_of_lookup_2| |by left].
  right. apply list_elem_of_lookup_1 in Hp as [m Hm].
  assert (Hn' : pipeline s !! n = Some b).
  { unfold pipeline. by apply lookup_app_l_Some. }
  destruct (decide (m < n)%nat) as [Hlt|Hge].
  - exists m. split; [done|]. unfold pipeline in Hm.
    rewrite lookup_app_l in Hm; [done|].
    apply lookup_lt_Some in Hn. lia.
  - exfalso. destruct (decide (m = n)) as [->|Hne].
    + rewrite Hm in Hn'. inversion Hn'. lia.
    + pose proof (StronglySorted_lt_lookup (pipeline s) n m b a H3 Hn' Hm).
      lia.
Qed.

(** *** The in-flight map *)

Lemma tracked_create (m : Z) (e : E) : tracked (create (T:=T) m e).
Proof.
  split; simpl.
  - intros k c H. by rewrite lookup_empty in H.
  - intros call H. inversion H.
Qed.

Lemma begin_tracked now ex req s : tracked s -> tracked (begin now ex req s).
Proof.
  intros [Hs Hk]. split; simpl.
  - intros k c Hl.
    destruct (dedupeEnabled (config req)) eqn:Hd.
    + destruct (decide (getDedupeKey (config req) = k)) as [<-|Hne].
      * rewrite lookup_insert_eq in Hl. inversion Hl; subst.
        eexists. split; [apply elem_of_app; right; by left|]. done.
      * rewrite lookup_insert_ne in Hl by done.
        destruct (Hs k c Hl) as (call & Hin & ?).
        exists call. split; [apply elem_of_app; by left|done].
    + destruct (Hs k c Hl) as (call & Hin & ?).
      exists call. split; [apply elem_of_app; by left|done].
  - intros call Hin. apply elem_of_app in Hin as [Hin|Hin]; [by apply Hk|].
    by apply list_elem_of_singleton in Hin as ->.
Qed.

Lemma drain_tracked now ex pending : forall s,
  tracked s -> tracked (drain now ex pending s).
Proof.
  induction pending as [|req rest IH]; intros s Ht; simpl.
  - by destruct Ht.
  - destruct (activeCount s <? maxConcurrency s); [|by destruct Ht].
    apply IH, begin_tracked. by destruct Ht.
Qed.

Lemma mark_settled_elem_fwd (c : nat) (o : Outcome T) (l : list (Call T E)) k0 :
  k0 ∈ l ->
  exists k, k ∈ mark_settled c o l /\ request k = request k0 /\
            key k = key k0 /\ chain k = chain k0.
Proof.
  intros Hin. unfold mark_settled.
  eexists. split; [by apply list_elem_of_fmap_2|].
  by destruct (decide (chain k0 = c)).
Qed.

Lemma step_tracked s (ev : Event T E) : wf s -> tracked s -> tracked (step s ev).
Proof.
  intros Hwf Ht. destruct ev as [now cfg ex|c o|now c| |f]; simpl.
  - destruct (execute_cases now cfg ex s) as [(existing & _ & _ & ->)| ->];
      [done|]. simpl. apply drain_tracked. by destruct Ht.
  - destruct (on_settled_cases c o s) as [->|(call & _ & _ & _ & ->)]; [done|].
    destruct Ht as [Hs Hk]. split; simpl.
    + intros k c' Hl. destruct (Hs k c' Hl) as (k0 & Hin & Hc & Hkey & Hd).
      destruct (mark_settled_elem_fwd (chain call) o (calls s) k0 Hin)
        as (k1 & Hin1 & Hr1 & Hk1 & Hc1).
      exists k1. rewrite Hr1, Hk1, Hc1. done.
    + intros k1 Hin1.
      apply mark_settled_elem in Hin1 as (k0 & Hin & Hr & Hkey & _).
      rewrite Hr, Hkey. by apply Hk.
  - destruct (on_finally_cases now c s) as [->|(call & o & Hin & Hc & Hset & ->)];
      [done|]. apply drain_tracked.
    destruct Ht as [Hs Hk]. split; simpl.
    + intros k c' Hl. destruct (decide (key call = k)) as [<-|Hne].
      * by rewrite lookup_delete_eq in Hl.
      * rewrite lookup_delete_ne in Hl by done.
        destruct (Hs k c' Hl) as (k0 & Hin0 & Hc0 & Hkey0 & Hd0).
        exists k0. split; [|done].
        unfold remove_call. apply list_elem_of_filter. split; [|done].
        intros Heq. apply Hne.
        assert (k0 = call) as -> by (by apply (same_chain s (wf_nodup s Hwf))).
        done.
    + intros k0 Hin0. apply remove_call_sub in Hin0 as [Hin0 _]. by apply Hk.
  - destruct Ht as [Hs Hk]. split; simpl; [|done].
    intros k c H. by rewrite lookup_empty in H.
  - by destruct Ht.
Qed.

Lemma run_tracked (evs : list (Event T E)) : forall s,
  wf s -> tracked s -> tracked (run s evs).
Proof.
  induction evs as [|ev evs IH]; intros s Hwf Ht; [done|].
  rewrite run_cons. apply IH; [by apply step_wf|by apply step_tracked].
Qed.

(** *** A request and the promise chained on its execution settle alike *)

Lemma paired_create (m : Z) (e : E) : paired (create (T:=T) m e).
Proof.
  split; simpl; try (by constructor); intros; by match goal with
  | H : _ ∈ [] |- _ => inversion H end.
Qed.

Lemma call_enqueued s k :
  fifo s -> paired s -> k ∈ calls s -> target k ∈ enqueued s.
Proof.
  intros Hf Hp Hk. destruct (paired_calls s Hp k Hk) as (k0 & Hin & Hr & _).
  apply (fifo_known s Hf). unfold pipeline. apply elem_of_app. left.
  unfold target. rewrite <- Hr. by apply (list_elem_of_fmap_2 target).
Qed.

Lemma begin_paired now ex req rest s :
  wf s -> fifo s -> paired s -> queue s = req :: rest ->
  paired (begin now ex req (set_queue rest s)).
Proof.
  intros Hwf Hf [P1 P2 P3 P4 P5] Hq.
  assert (Hnew : promises s !! fresh s = None).
  { destruct (promises s !! fresh s) eqn:Hl; [|done].
    apply (wf_store s Hwf) in Hl. lia. }
  split; simpl.
  - rewrite fmap_app. simpl. apply NoDup_app. split; [done|]. split.
    + intros x Hx Hx'. apply list_elem_of_singleton in Hx' as ->.
      apply list_elem_of_fmap in Hx as (st & Heq & Hst).
      apply P2 in Hst. lia.
    + apply NoDup_singleton.
  - intros st Hst. apply elem_of_app in Hst as [Hst|Hst].
    + apply P2 in Hst. lia.
    + apply list_elem_of_singleton in Hst as ->. simpl. lia.
  - intros st Hst. apply elem_of_app in Hst as [Hst|Hst]; [by apply P3|].
    apply list_elem_of_singleton in Hst as ->. simpl.
    intros Hin. apply (fifo_fresh s Hf) in Hin. lia.
  - intros k Hk. apply elem_of_app in Hk as [Hk|Hk].
    + destruct (P4 k Hk) as (k0 & Hin & ?). exists k0.
      split; [apply elem_of_app; by left|done].
    + apply list_elem_of_singleton in Hk as ->.
      eexists. split; [apply elem_of_app; right; by left|done].
  - intros st o Hst Hl. apply elem_of_app in Hst as [Hst|Hst]; [by apply P5|].
    apply list_elem_of_singleton in Hst as ->. simpl in Hl. congruence.
Qed.

Lemma drain_paired now ex pending : forall s,
  wf s -> fifo s -> paired s -> queue s = pending ->
  paired (drain now ex pending s).
Proof.
  induction pending as [|req rest IH]; intros s Hwf Hf Hp Hq; simpl.
  - by rewrite <- Hq, set_queue_same.
  - destruct (activeCount s <? maxConcurrency s);
      [|by rewrite <- Hq, set_queue_same].
    apply IH; [by apply begin_wf|by apply begin_fifo|by apply begin_paired|done].
Qed.

Lemma push_wf cfg s : wf s -> wf (push cfg s).
Proof.
  intros [Hcnt Hnd Hfr Hst Hpe Hch Htg].
  assert (Hnew : promises s !! fresh s = None).
  { destruct (promises s !! fresh s) eqn:Hl; [|done].
    apply Hst in Hl. lia. }
  assert (Hperm : ids (push cfg s) ≡ₚ fresh s :: ids s).
  { unfold ids. simpl. rewrite !fmap_app. simpl. solve_Permutation. }
  split; simpl; try done.
  - rewrite Hperm. apply NoDup_cons. split; [|done].
    intros Hin. apply Hfr in Hin. lia.
  - intros i Hi. rewrite Hperm in Hi.
    apply elem_of_cons in Hi as [->|Hi]; [lia|]. apply Hfr in Hi. lia.
  - intros p o Hp. apply Hst in Hp. lia.
  - intros r Hr. apply elem_of_app in Hr as [Hr|Hr]; [by apply Hpe|].
    apply list_elem_of_singleton in Hr as ->. done.
Qed.

Lemma step_paired s (ev : Event T E) :
  wf s -> fifo s -> paired s -> paired (step s ev).
Proof.
  intros Hwf Hf Hp. destruct ev as [now cfg ex|c o|now c| |f]; simpl.
  - destruct (execute_cases now cfg ex s) as [(existing & _ & _ & ->)| ->];
      [done|]. simpl.
    apply drain_paired; [by apply push_wf|by apply push_fifo| |done].
    destruct Hp as [P1 P2 P3 P4 P5]. split; simpl; try done.
    + intros st Hst. apply P2 in Hst. lia.
    + intros st Hst Hin. apply elem_of_app in Hin as [Hin|Hin]; [by eapply P3|].
      apply list_elem_of_singleton in Hin. apply P2 in Hst. lia.
  - destruct (on_settled_cases c o s) as [->|(call & Hin & Hc & Hset & ->)];
      [done|].
    pose proof (call_enqueued s call Hf Hp Hin) as Henq.
    destruct Hp as [P1 P2 P3 P4 P5]. split; simpl; try done.
    + intros k Hk. apply mark_settled_elem in Hk as (k0 & Hk0 & Hr & _ & Hch & _).
      destruct (P4 k0 Hk0) as (k1 & Hin1 & Hr1 & Hc1).
      exists k1. rewrite Hr, Hch. done.
    + intros st o' Hst Hl. apply settle_keeps. apply P5; [done|].
      rewrite settle_other in Hl; [done|].
      intros Heq. apply (P3 st Hst). by rewrite <- Heq.
  - destruct (on_finally_cases now c s) as [->|(call & o & Hin & Hc & Hset & ->)];
      [done|].
    apply drain_paired; [by apply release_wf|by destruct Hf| |done].
    pose proof (wf_chain s Hwf call Hin) as Hpc. rewrite Hc in Hpc.
    destruct Hp as [P1 P2 P3 P4 P5]. split; simpl; try done.
    + intros k Hk. apply remove_call_sub in Hk as [Hk _]. by apply P4.
    + intros st o' Hst Hl. rewrite settle_pending in * by done.
      destruct (decide (chain st = c)) as [Heq|Hne].
      * rewrite Heq, lookup_insert_eq in Hl. inversion Hl; subst o'.
        destruct (P4 call Hin) as (k0 & Hin0 & Hr0 & Hc0).
        assert (st = k0) as ->.
        { apply (NoDup_fmap_eq chain (started s)); try done. congruence. }
        unfold target. rewrite Hr0. fold (target call).
        rewrite lookup_insert_ne.
        -- rewrite (wf_target s Hwf call Hin). done.
        -- rewrite <- Hc. intros Heq'. symmetry in Heq'.
           by apply (target_not_chain s (wf_nodup s Hwf) call call).
      * rewrite lookup_insert_ne in Hl by done.
        pose proof (P5 st o' Hst Hl) as Ht.
        rewrite lookup_insert_ne; [done|]. intros Heq. congruence.
  - destruct Hp as [P1 P2 P3 P4 P5]. split; simpl; try done.
    intros st o' Hst Hl. fold (reject_all (queue s) (promises s)) in *.
    apply reject_all_keeps. apply P5; [done|].
    rewrite reject_all_other in Hl; [done|].
    intros Hin. apply (P3 st Hst). apply (fifo_known s Hf).
    unfold pipeline. apply elem_of_app. by right.
  - by destruct Hp.
Qed.

Lemma sane_create (m : Z) (e : E) : sane (create (T:=T) m e).
Proof.
  split; [apply wf_create|apply fifo_create|apply tracked_create|apply paired_create].
Qed.

Lemma step_sane s (ev : Event T E) : sane s -> sane (step s ev).
Proof.
  intros [H1 H2 H3 H4].
  split; [by apply step_wf|by apply step_fifo|by apply step_tracked|by apply step_paired].
Qed.

Lemma run_sane (evs : list (Event T E)) : forall s, sane s -> sane (run s evs).
Proof.
  induction evs as [|ev evs IH]; intros s Hs; [done|].
  rewrite run_cons. apply IH. by apply step_sane.
Qed.

(** *** Rejections come from [clear] alone when executors never reject *)

Lemma honest_create (m : Z) (e : E) : honest (create (T:=T) m e).
Proof.
  split; simpl.
  - intros p msg H. by rewrite lookup_empty in H.
  - intros k o H. inversion H.
  - intros p H. inversion H.
  - intros i H. lia.
Qed.

Lemma begin_ids now ex req rest s :
  queue s = req :: rest ->
  ids (begin now ex req (set_queue rest s)) ≡ₚ fresh s :: ids s.
Proof.
  intros Hq. unfold ids. simpl. rewrite Hq, !fmap_app. simpl. solve_Permutation.
Qed.

Lemma push_ids cfg s : ids (push cfg s) ≡ₚ fresh s :: ids s.
Proof. unfold ids. simpl. rewrite !fmap_app. simpl. solve_Permutation. Qed.

Lemma begin_honest now ex req rest s :
  honest s -> queue s = req :: rest ->
  honest (begin now ex req (set_queue rest s)).
Proof.
  intros [H1 H2 H3 H4] Hq. split; simpl; try done.
  - intros k o Hk Hs. apply elem_of_app in Hk as [Hk|Hk]; [by eapply H2|].
    apply list_elem_of_singleton in Hk as ->. done.
  - intros i Hi. rewrite (begin_ids now ex req rest s Hq).
    destruct (decide (i = fresh s)) as [->|Hne]; [left; by left|].
    destruct (H4 i) as [Hin|Hs]; [lia|left; by right|by right].
Qed.

Lemma drain_honest now ex pending : forall s,
  honest s -> queue s = pending -> honest (drain now ex pending s).
Proof.
  induction pending as [|req rest IH]; intros s Hh Hq; simpl.
  - by rewrite <- Hq, set_queue_same.
  - destruct (activeCount s <? maxConcurrency s);
      [|by rewrite <- Hq, set_queue_same].
    apply IH; [by apply begin_honest|done].
Qed.

Lemma push_honest cfg s : honest s -> honest (push cfg s).
Proof.
  intros [H1 H2 H3 H4]. split; simpl; try done.
  intros i Hi. rewrite (push_ids cfg s).
  destruct (decide (i = fresh s)) as [->|Hne]; [left; by left|].
  destruct (H4 i) as [Hin|Hs]; [lia|left; by right|by right].
Qed.

Lemma settle_inv (p q : nat) (o o' : Outcome T) (m : gmap nat (Outcome T)) :
  settle p o m !! q = Some o' -> m !! q = Some o' \/ (q = p /\ o' = o).
Proof.
  unfold settle. destruct (m !! p) eqn:Hp; [by left|].
  destruct (decide (p = q)) as [->|Hne].
  - rewrite lookup_insert_eq. intros [= ->]. by right.
  - rewrite lookup_insert_ne by done. by left.
Qed.

Lemma settle_is_Some (p q : nat) (o : Outcome T) (m : gmap nat (Outcome T)) :
  is_Some (m !! q) -> is_Some (settle p o m !! q).
Proof. intros [o' H]. exists o'. by apply settle_keeps. Qed.

Lemma settle_settled (p : nat) (o : Outcome T) (m : gmap nat (Outcome T)) :
  is_Some (settle p o m !! p).
Proof.
  unfold settle. destruct (m !! p) eqn:Hp; [by rewrite Hp|].
  rewrite lookup_insert_eq. done.
Qed.

Lemma resolve_request_ids call o s : ids (resolve_request call o s) = ids s.
Proof. unfold ids. simpl. by rewrite mark_settled_chain, mark_settled_target. Qed.

Lemma step_honest s (ev : Event T E) :
  wf s -> honest s -> resolving ev -> honest (step s ev).
Proof.
  intros Hwf Hh Hev. destruct ev as [now cfg ex|c o|now c| |f]; simpl.
  - destruct (execute_cases now cfg ex s) as [(existing & _ & _ & ->)| ->];
      [done|]. simpl. apply drain_honest; [by apply push_honest|done].
  - destruct (on_settled_cases c o s) as [->|(call & Hin & Hc & Hset & ->)];
      [done|].
    destruct o as [v|msg]; [|done].
    destruct Hh as [H1 H2 H3 H4]. split.
    + intros p msg Hl. simpl in Hl.
      apply settle_inv in Hl as [Hl|[_ Hl]]; [by apply H1|done].
    + intros k o Hk Hs. simpl in Hk.
      apply mark_settled_elem in Hk as (k0 & Hk0 & _ & _ & _ & _ & Hs').
      rewrite Hs' in Hs. destruct (decide (chain k0 = chain call)).
      * inversion Hs. by eexists.
      * by eapply H2.
    + intros p Hp. simpl. apply settle_keeps. by apply H3.
    + intros i Hi. rewrite resolve_request_ids. simpl in *.
      destruct (H4 i Hi) as [?|?]; [by left|right]. by apply settle_is_Some.
  - destruct (on_finally_cases now c s) as [->|(call & o & Hin & Hc & Hset & ->)];
      [done|].
    apply drain_honest; [|done].
    destruct Hh as [H1 H2 H3 H4].
    destruct (H2 call o Hin Hset) as [v ->].
    split; simpl.
    + intros p msg Hl.
      apply settle_inv in Hl as [Hl|[_ Hl]]; [by apply H1|done].
    + intros k o Hk Hs. apply remove_call_sub in Hk as [Hk _]. by eapply H2.
    + intros p Hp. apply settle_keeps. by apply H3.
    + intros i Hi. destruct (decide (i = c)) as [->|Hic];
        [right; apply settle_settled|].
      destruct (H4 i Hi) as [Hid|Hs]; [|right; by apply settle_is_Some].
      unfold ids in *. simpl. rewrite !elem_of_app in *.
      destruct Hid as [Hid|[Hid|Hid]]; [left; by left| |].
      * apply list_elem_of_fmap in Hid as (k & -> & Hk).
        destruct (decide (chain k = chain call)) as [Heq|Hne].
        -- assert (k = call) as -> by (by apply (same_chain s (wf_nodup s Hwf))).
           right. apply settle_is_Some.
           rewrite (wf_target s Hwf call Hin), Hset. done.
        -- left. right. left. apply list_elem_of_fmap_2.
           unfold remove_call. by apply list_elem_of_filter.
      * apply list_elem_of_fmap in Hid as (k & -> & Hk).
        left. right. right. apply list_elem_of_fmap_2.
        unfold remove_call. apply list_elem_of_filter. split; [|done]. congruence.
  - destruct Hh as [H1 H2 H3 H4].
    split; simpl; fold (reject_all (queue s) (promises s)).
    + intros p msg Hl. apply reject_all_inv in Hl as [Hl|[Hin Heq]].
      * destruct (H1 p msg Hl) as [-> ?]. split; [done|]. apply elem_of_app. by left.
      * inversion Heq. split; [done|]. apply elem_of_app. by right.
    + done.
    + intros p Hp. apply elem_of_app in Hp as [Hp|Hp].
      * apply reject_all_keeps. by apply H3.
      * apply reject_all_pending; [done|].
        apply list_elem_of_fmap in Hp as (r & -> & Hr).
        by apply (wf_pending s Hwf).
    + intros i Hi. destruct (H4 i Hi) as [Hid|[o Hs]].
      * unfold ids in *. simpl. rewrite elem_of_app in Hid.
        destruct Hid as [Hid|Hid]; [|by left].
        right. destruct (promises s !! i) as [o|] eqn:Hl.
        -- exists o. by apply reject_all_keeps.
        -- eexists. by apply reject_all_pending.
      * right. exists o. by apply reject_all_keeps.
  - by destruct Hh.
Qed.

Lemma run_honest (evs : list (Event T E)) : forall s,
  wf s -> honest s -> Forall resolving evs -> honest (run s evs).
Proof.
  induction evs as [|ev evs IH]; intros s Hwf Hh Hall; [done|].
  apply Forall_cons in Hall as [Hev Hall].
  rewrite run_cons. apply IH; [by apply step_wf|by apply step_honest|done].
Qed.

(** Once nothing is executing, nothing is waiting either. *)
Lemma idle_all_settled s :
  wf s -> honest s -> saturated s ->
  calls s = [] -> 1 <= maxConcurrency s ->
  forall i : nat, (i < fresh s)%nat -> is_Some (promises s !! i).
Proof.
  intros Hwf Hh Hsat Hcalls Hmax i Hi.
  assert (Hq : queue s = []).
  { destruct Hsat as [?|Hge]; [done|].
    rewrite (wf_count s Hwf), Hcalls in Hge. simpl in Hge. lia. }
  destruct (honest_accounted s Hh i Hi) as [Hid|?]; [|done].
  unfold ids in Hid. rewrite Hq, Hcalls in Hid. inversion Hid.
Qed.

(** *** Histories only grow *)





Lemma drain_calls now ex pending : forall s k,
  k ∈ calls (drain now ex pending s) ->
  k ∈ calls s \/ (fresh s <= chain k)%nat.
Proof.
  induction pending as [|req rest IH]; intros s k Hk; simpl in Hk; [by left|].
  destruct (activeCount s <? maxConcurrency s); [|by left].
  apply IH in Hk as [Hk|Hk]; simpl in Hk.
  - apply elem_of_app in Hk as [Hk|Hk]; [by left|].
    apply list_elem_of_singleton in Hk as ->. right. simpl. lia.
  - right. lia.
Qed.

Lemma on_finally_gone now (c : nat) s call :
  wf s -> find_call c (calls s) = Some call -> is_Some (settled call) ->
  forall k, k ∈ calls (on_finally now c s) -> chain k <> c.
Proof.
  intros Hwf Hfind [o Hset] k Hk.
  unfold on_finally in Hk. rewrite Hfind, Hset in Hk. simpl in Hk.
  apply find_call_Some in Hfind as [Hin Hc].
  apply drain_calls in Hk as [Hk|Hk]; simpl in Hk.
  - apply remove_call_sub in Hk as [_ Hne]. congruence.
  - assert (c < fresh s)%nat; [|lia].
    apply (wf_fresh s Hwf). unfold ids. rewrite !elem_of_app. right; right.
    rewrite <- Hc. by apply list_elem_of_fmap_2.
Qed.

Lemma find_call_in (l : list (Call T E)) k :
  k ∈ l -> NoDup (chain <$> l) -> find_call (chain k) l = Some k.
Proof.
  intros Hin Hnd. unfold find_call.
  destruct (find (fun k0 => Nat.eqb (chain k0) (chain k)) l) as [k'|] eqn:Hf.
  - apply find_some in Hf as [Hin' Heq]. apply Nat.eqb_eq in Heq.
    apply list_elem_of_In in Hin'. f_equal.
    by apply (NoDup_fmap_eq chain l).
  - apply list_elem_of_In in Hin. pose proof (find_none _ _ Hf k Hin) as Hne.
    simpl in Hne. by rewrite Nat.eqb_refl in Hne.
Qed.



(** C8, as the code has it.  After any history of [execute], settlement,
    [clear] and executor-side events: an entry of [inFlight] always maps the
    key of a request that is executing with deduplication enabled to the
    promise chained on that very execution; starting such a request creates
    the entry; once the [finally] callback of an execution has run no entry
    refers to it; and [clear] empties the map while leaving the executing
    requests alone. *)
Theorem inFlight_only_while_executing (M : Z) (e : E) (evs : list (Event T E)) :
  let s := run (create M e) evs in
  (forall (k : string) (c : nat), inFlight s !! k = Some c ->
     exists call, call ∈ calls s /\ chain call = c /\
       getDedupeKey (config (request call)) = k /\
       dedupeEnabled (config (request call)) = true) /\
  (forall now ex req, dedupeEnabled (config req) = true ->
     inFlight (begin now ex req s) !! getDedupeKey (config req)
       = Some (fresh s)) /\
  (forall now (c : nat) call,
     find_call c (calls s) = Some call -> is_Some (settled call) ->
     forall k : string, inFlight (on_finally now c s) !! k <> Some c) /\
  (inFlight (clear s) = ∅ /\ calls (clear s) = calls s).
Proof.
  intros s.
  assert (Hsane : sane s) by apply run_sane, sane_create.
  destruct Hsane as [Hwf Hf Ht Hp].
  split; [|split; [|split]].
  - intros k c Hl.
    destruct (tracked_sound s Ht _ _ Hl) as (call & Hin & Hch & Hkey & Hde).
    exists call. repeat split; try done.
    by rewrite <- (tracked_keyed s Ht call Hin).
  - intros now ex req Hd. simpl. rewrite Hd. apply lookup_insert_eq.
  - intros now c call Hfind Hset k Hl.
    assert (Ht' : tracked (on_finally now c s)).
    { apply (step_tracked s (Finally now c)); done. }
    destruct (tracked_sound _ Ht' _ _ Hl) as (k0 & Hin0 & Hc0 & _).
    by apply (on_finally_gone now c s call Hwf Hfind Hset k0 Hin0).
  - done.
Qed.

End LimiterFacts.

(** *** Concrete runs of the limiter *)

Section LimiterScenarios.
Import ConcurrencyLimiter Samples.



Lemma concurrency_bound_witness :
  0 <= 2 /\ activeCount (run (create (T:=string) 2 tt) burst) <= 2.
Proof.
  split; [lia|].
  destruct (concurrency_bound (T:=string) 2 tt burst) as (_ & _ & Hle & _);
    [lia|exact Hle].
Defined.

(** Scenario B of the specification: with one slot, "first" is started, then
    "second". *)
Example limiter_scenario_B :
  let s := run (create (T:=string) 1 tt)
             [Execute 0 first idle; Execute 0 second idle;
              Settled 1 (Fulfilled "first"); Finally 10 1] in
  (fun c => config (request c)) <$> started s = [first; second].
Proof. vm_compute. reflexivity. Qed.

Lemma fifo_admission_witness :
  let s := run (create (T:=string) 1 tt)
             [Execute 0 first idle; Execute 0 second idle;
              Settled 1 (Fulfilled "first"); Finally 10 1] in
  0%nat ∈ cleared s \/
  exists m : nat, (m < 1)%nat /\ (target <$> started s) !! m = Some 0%nat.
Proof.
  intros s.
  apply (fifo_admission (T:=string) 1 tt
           [Execute 0 first idle; Execute 0 second idle;
            Settled 1 (Fulfilled "first"); Finally 10 1]
           0 1 1 0 2); [reflexivity|reflexivity|lia|reflexivity].
Defined.

(** [clear] empties [inFlight] while a request with deduplication enabled is
    still executing. *)
Lemma inFlight_emptied_while_executing :
  let s := run (create (T:=string) 4 tt) [Execute 0 status idle; Clear] in
  (exists call : Call string unit,
     call ∈ calls s /\ key call = getDedupeKey status /\
     dedupeEnabled (config (request call)) = true /\ settled call = None) /\
  inFlight s !! getDedupeKey status = None.
Proof.
  split; [|vm_compute; reflexivity].
  exists (mkCall (mkRequest status 0) (getDedupeKey status) 1 idle None).
  split; [left|repeat split].
Qed.


End LimiterScenarios.

Section LimiterMore.
Import ConcurrencyLimiter.
Context {T E : Type}.
Implicit Types (s : State T E).









End LimiterMore.



(* ===================================================================== *)
(** ** Properties of the stale-while-revalidate cache *)
(* ===================================================================== *)

Section CacheFacts.
Import SWRCache.
Context {T : Type}.
Implicit Types (s : State T).

Lemma find_fetch_Some (i : nat) (l : list Fetch) f :
  find_fetch i l = Some f -> f ∈ l /\ id f = i.
Proof.
  unfold find_fetch. intros H. apply find_some in H as [Hin Heq].
  split; [by apply list_elem_of_In | by apply Nat.eqb_eq].
Qed.

Lemma mark_landed_elem (i : nat) (l : list Fetch) f :
  f ∈ mark_landed i l ->
  exists f0, f0 ∈ l /\ id f = id f0 /\ key f = key f0 /\ purpose f = purpose f0.
Proof.
  unfold mark_landed. intros Hf.
  apply list_elem_of_fmap in Hf as (f0 & -> & Hf0).
  exists f0. by destruct (decide (id f0 = i)).
Qed.

Lemma mark_landed_elem_fwd (i : nat) (l : list Fetch) f0 :
  f0 ∈ l ->
  exists f, f ∈ mark_landed i l /\ id f = id f0 /\ key f = key f0 /\
            purpose f = purpose f0.
Proof.
  intros Hin. unfold mark_landed.
  eexists. split; [by apply list_elem_of_fmap_2|].
  by destruct (decide (id f0 = i)).
Qed.

Lemma mark_landed_ids (i : nat) (l : list Fetch) :
  id <$> mark_landed i l = id <$> l.
Proof.
  unfold mark_landed. rewrite <- list_fmap_compose. apply list_fmap_ext.
  intros j x _. simpl. by destruct (decide (id x = i)).
Qed.

Lemma remove_fetch_elem (i : nat) (l : list Fetch) f :
  f ∈ remove_fetch i l <-> f ∈ l /\ id f <> i.
Proof. unfold remove_fetch. rewrite list_elem_of_filter. tauto. Qed.

Lemma cache_wf_create : wf (create (T:=T)).
Proof.
  split; simpl.
  - intros k i H. by rewrite lookup_empty in H.
  - constructor.
  - intros f H. inversion H.
Qed.

Lemma call_fetcher_wf (k : string) ttl_ms fetcher why s :
  wf s -> wf (call_fetcher k ttl_ms fetcher why s).
Proof.
  intros [H1 H2 H3]. split; simpl.
  - intros k' i Hl. destruct why; simpl in Hl.
    + destruct (decide (k = k')) as [<-|Hne].
      * rewrite lookup_insert_eq in Hl. inversion Hl; subst.
        eexists. split; [apply elem_of_app; right; by left|done].
      * rewrite lookup_insert_ne in Hl by done.
        destruct (H1 k' i Hl) as (f & Hin & ?). exists f.
        split; [apply elem_of_app; by left|done].
    + destruct (H1 k' i Hl) as (f & Hin & ?). exists f.
      split; [apply elem_of_app; by left|done].
  - rewrite fmap_app. simpl. apply NoDup_app. split; [done|]. split.
    + intros x Hx Hx'. apply list_elem_of_singleton in Hx' as ->.
      apply list_elem_of_fmap in Hx as (f & Heq & Hf). apply H3 in Hf. lia.
    + apply NoDup_singleton.
  - intros f Hf. apply elem_of_app in Hf as [Hf|Hf].
    + apply H3 in Hf. lia.
    + apply list_elem_of_singleton in Hf as ->. simpl. lia.
Qed.

Lemma get_cases now (k : string) ttl_ms fetcher s :
  (exists entry, cache s !! k = Some entry /\
     get now k ttl_ms fetcher s = (Ready (data entry), s)) \/
  (exists entry, cache s !! k = Some entry /\
     ttl entry <= now - fetchedAt entry /\
     pendingRevalidations s !! k = None /\
     get now k ttl_ms fetcher s =
       (Ready (data entry), call_fetcher k ttl_ms fetcher Revalidate s)) \/
  (cache s !! k = None /\
   get now k ttl_ms fetcher s =
     (Awaiting (fresh s), call_fetcher k ttl_ms fetcher Populate s)).
Proof.
  unfold get. destruct (cache s !! k) as [entry|]; [|by right; right].
  destruct (Z.ltb_spec (now - fetchedAt entry) (ttl entry)).
  - left. by exists entry.
  - destruct (pendingRevalidations s !! k) eqn:Hp.
    + left. by exists entry.
    + right. left. by exists entry.
Qed.

Lemma on_fetched_cases now (i : nat) (result : option T) s :
  on_fetched now i result s = s \/
  exists f cache',
    f ∈ fetches s /\ id f = i /\
    ((purpose f = Revalidate /\
      on_fetched now i result s =
        mkState cache' (pendingRevalidations s) (mark_landed i (fetches s))
                (fresh s) (delivered s) (fetcherCalls s)) \/
     (purpose f = Populate /\
      on_fetched now i result s =
        mkState cache' (pendingRevalidations s) (remove_fetch i (fetches s))
                (fresh s) (<[i := result]> (delivered s)) (fetcherCalls s))).
Proof.
  unfold on_fetched.
  destruct (find_fetch i (fetches s)) as [f|] eqn:Hfind; [|by left].
  destruct (landed f); [by left|].
  apply find_fetch_Some in Hfind as [Hin Hid].
  right. exists f. eexists. split; [done|]. split; [done|].
  destruct (purpose f); [left|right]; done.
Qed.

Lemma cache_on_finally_cases (i : nat) s :
  on_finally i s = s \/
  exists f,
    f ∈ fetches s /\ id f = i /\ purpose f = Revalidate /\
    on_finally i s =
      mkState (cache s) (delete (key f) (pendingRevalidations s))
              (remove_fetch i (fetches s)) (fresh s) (delivered s)
              (fetcherCalls s).
Proof.
  unfold on_finally.
  destruct (find_fetch i (fetches s)) as [f|] eqn:Hfind; [|by left].
  apply find_fetch_Some in Hfind as [Hin Hid].
  destruct (landed f); [|by left].
  destruct (purpose f) eqn:Hp; [|by left]. simpl.
  right. by exists f.
Qed.


Lemma cache_step_wf s (ev : Event T) : wf s -> wf (step s ev).
Proof.
  intros Hwf.
  destruct ev as [now k ttl_ms fetcher|k| |now i result|i]; simpl.
  - destruct (get_cases now k ttl_ms fetcher s)
      as [(entry & _ & ->)|[(entry & _ & _ & _ & ->)|(_ & ->)]]; simpl;
      [done|by apply call_fetcher_wf|by apply call_fetcher_wf].
  - by destruct Hwf.
  - destruct Hwf as [H1 H2 H3]. split; simpl; done.
  - destruct (on_fetched_cases now i result s)
      as [->|(f & cache' & Hin & Hid & [(Hp & ->)|(Hp & ->)])]; [done| |];
      destruct Hwf as [H1 H2 H3]; split; simpl.
    + intros k j Hl. destruct (H1 k j Hl) as (f0 & Hin0 & Hid0 & Hk0 & Hp0).
      destruct (mark_landed_elem_fwd i (fetches s) f0 Hin0)
        as (f1 & Hin1 & Hid1 & Hk1 & Hp1).
      exists f1. rewrite Hid1, Hk1, Hp1. done.
    + by rewrite mark_landed_ids.
    + intros f1 Hf1. apply mark_landed_elem in Hf1 as (f0 & Hin0 & -> & _).
      by apply H3.
    + intros k j Hl. destruct (H1 k j Hl) as (f0 & Hin0 & Hid0 & Hk0 & Hp0).
      exists f0. split; [|done]. apply remove_fetch_elem. split; [done|].
      intros Heq. assert (f0 = f) as ->; [|congruence].
      apply (NoDup_fmap_eq id (fetches s)); try done. congruence.
    + apply (sublist_NoDup _ (id <$> fetches s)); [done|].
      apply fmap_sublist, sublist_filter.
    + intros f1 Hf1. apply remove_fetch_elem in Hf1 as [Hf1 _]. by apply H3.
  - destruct (cache_on_finally_cases i s) as [->|(f & Hin & Hid & Hp & ->)]; [done|].
    destruct Hwf as [H1 H2 H3]. split; simpl.
    + intros k j Hl. destruct (decide (key f = k)) as [<-|Hne].
      * by rewrite lookup_delete_eq in Hl.
      * rewrite lookup_delete_ne in Hl by done.
        destruct (H1 k j Hl) as (f0 & Hin0 & Hid0 & Hk0 & Hp0).
        exists f0. split; [|done]. apply remove_fetch_elem. split; [done|].
        intros Heq. assert (f0 = f) as ->; [|congruence].
        apply (NoDup_fmap_eq id (fetches s)); try done. congruence.
    + apply (sublist_NoDup _ (id <$> fetches s)); [done|].
      apply fmap_sublist, sublist_filter.
    + intros f1 Hf1. apply remove_fetch_elem in Hf1 as [Hf1 _]. by apply H3.
Qed.

Lemma cache_run_cons s (ev : Event T) evs :
  run s (ev :: evs) = run (step s ev) evs.
Proof. reflexivity. Qed.

Lemma cache_run_wf (evs : list (Event T)) : forall s, wf s -> wf (run s evs).
Proof.
  induction evs as [|ev evs IH]; intros s Hwf; [done|].
  rewrite cache_run_cons. by apply IH, cache_step_wf.
Qed.







End CacheFacts.


Section CacheScenarios.
Import SWRCache CacheSamples.


Example cache_scenario_D :
  let s := run (create (T:=string))
             [Get 1000 "k" 5000 0; Fetched 1000 0 (Some "v1")] in
  fst (get 7000 "k" 5000 1 s) = Ready "v1" /\
  let s' := run (snd (get 7000 "k" 5000 1 s))
              [Fetched 7500 1 (Some "v2"); Finally 1] in
  fst (get 8000 "k" 5000 2 s') = Ready "v2".
Proof. vm_compute. repeat split. Qed.


End CacheScenarios.

(* ===================================================================== *)
(** ** Further properties of the circuit breaker *)

Section BreakerMore.
Import CircuitBreaker.

Lemma breaker_run_snoc ops op b :
  run (ops ++ [op]) b = snd (apply op (run ops b)).
Proof. unfold run. by rewrite foldl_app. Qed.

(** What every breaker built by [create] satisfies, whatever is done to it. *)
Lemma apply_invariant (N T : Z) op b :
  1 <= N ->
  threshold b = N /\ resetTimeMs b = T /\
  0 <= successCount b <= 1 /\
  (state b = CLOSED <-> failureCount b < N) /\ 0 <= failureCount b ->
  let b' := snd (apply op b) in
  threshold b' = N /\ resetTimeMs b' = T /\
  0 <= successCount b' <= 1 /\
  (state b' = CLOSED <-> failureCount b' < N) /\ 0 <= failureCount b'.
Proof.
  intros HN (Ht & Hr & Hs & Hc & Hf).
  destruct b as [st f l c th r]. simpl in *. subst th r.
  assert (Hst : (st = CLOSED /\ f < N) \/ (st <> CLOSED /\ N <= f)).
  { destruct (Z.lt_ge_cases f N) as [Hlt|Hge].
    - left. split; [by apply Hc|done].
    - right. split; [|done]. intros Heq. apply Hc in Heq. lia. }
  clear Hc.
  destruct op as [now| |now|]; destruct st;
    destruct Hst as [[Heq Hlt]|[Hne Hge]]; try discriminate; try done;
    simpl;
    unfold canExecute, recordSuccess, recordFailure, reset,
           halfOpenSuccessThreshold; simpl;
    repeat match goal with
           | |- context [if ?x <=? ?y then _ else _] =>
               destruct (Z.leb_spec x y)
           end;
    simpl; repeat split; intros; try lia; try discriminate; try done.
Qed.


Lemma breaker_run_invariant (N T : Z) ops : forall b,
  1 <= N ->
  threshold b = N /\ resetTimeMs b = T /\
  0 <= successCount b <= 1 /\
  (state b = CLOSED <-> failureCount b < N) /\ 0 <= failureCount b ->
  threshold (run ops b) = N /\ resetTimeMs (run ops b) = T /\
  0 <= successCount (run ops b) <= 1 /\
  (state (run ops b) = CLOSED <-> failureCount (run ops b) < N) /\
  0 <= failureCount (run ops b).
Proof.
  induction ops as [|op ops IH]; intros b HN Hb; [exact Hb|].
  change (run (op :: ops) b) with (run ops (snd (apply op b))).
  apply IH; [done|]. by apply apply_invariant.
Qed.

(** X1. For a threshold [N >= 1] and any sequence of [canExecute],
    [recordSuccess], [recordFailure] and [reset] calls on a new breaker, at
    any times: what [getStats] reports satisfies [state = CLOSED] exactly when
    [failureCount < N]; [failureCount] is never negative and [successCount]
    is 0 or 1; the threshold and the reset time are never changed. *)
Theorem breaker_stats_closed_iff_below_threshold (N T : Z) (ops : list Op) :
  1 <= N ->
  let b := run ops (create N T) in
  let st := getStats b in
  threshold b = N /\ resetTimeMs b = T /\
  (stats_state st = CLOSED <-> stats_failureCount st < N) /\
  0 <= stats_failureCount st /\
  0 <= stats_successCount st <= 1.
Proof.
  intros HN b st.
  destruct (breaker_run_invariant N T ops (create N T) HN)
    as (H1 & H2 & H3 & H4 & H5).
  { simpl. repeat split; try lia; done. }
  done.
Qed.

Lemma breaker_stats_closed_iff_below_threshold_witness :
  let st := getStats
              (run [OpRecordFailure 0; OpRecordFailure 1; OpCanExecute 20000;
                    OpRecordSuccess] (create 2 10000)) in
  stats_state st = CLOSED <-> stats_failureCount st < 2.
Proof.
  intros st.
  destruct (breaker_stats_closed_iff_below_threshold 2 10000
              [OpRecordFailure 0; OpRecordFailure 1; OpCanExecute 20000;
               OpRecordSuccess]) as (_ & _ & H & _); [lia|exact H].
Defined.

Lemma open_fails_fast (T : Z) ops : forall b,
  state b = OPEN -> resetTimeMs b = T ->
  cooling (lastFailureTime b) T ops ->
  Forall refused (observe ops b) /\
  state (run ops b) = OPEN /\
  failureCount (run ops b) = failureCount b + failures ops /\
  successCount (run ops b) = successCount b.
Proof.
  induction ops as [|op ops IH]; intros b Hs Hr Hcool.
  - simpl. repeat split; try done. lia.
  - rewrite breaker_run_cons.
    assert (Hnext : state (snd (apply op b)) = OPEN /\
                    resetTimeMs (snd (apply op b)) = T /\
                    cooling (lastFailureTime (snd (apply op b))) T ops /\
                    fst (apply op b) <> Some true /\
                    failureCount (snd (apply op b)) + failures ops
                      = failureCount b + failures (op :: ops) /\
                    successCount (snd (apply op b)) = successCount b).
    { destruct b as [st f l c th r]. simpl in *. subst st r.
      destruct op as [now| |now|]; simpl in *; try done.
      - destruct Hcool as [Hnow Hcool]. unfold canExecute. simpl.
        destruct (Z.leb_spec T (now - l)); [lia|]. simpl. repeat split; done.
      - unfold recordFailure. simpl.
        destruct (th <=? f + 1); simpl; repeat split; try done; lia. }
    destruct Hnext as (Hs' & Hr' & Hcool' & Hres & Hf' & Hc').
    destruct (IH (snd (apply op b)) Hs' Hr' Hcool') as (Hobs & Hrun & Hf & Hc).
    split; [|split; [done|split; [lia|congruence]]].
    simpl. destruct (apply op b) as [res b'] eqn:Happ. simpl in *.
    apply Forall_cons. split; [|done]. by split.
Qed.

(** X2. Take a breaker that is [OPEN] after any history, the last failure
    of which was recorded at [t0], and let [canExecute], [recordSuccess] and
    [recordFailure] calls follow such that every [canExecute] reads a time
    less than [resetTimeMs] after the last failure recorded until then, the
    one at [t0] or a later one.  Then every [canExecute] answers [false], the
    breaker is [OPEN] after every call, and at the end [lastFailureTime] is
    the time of the last failure of the whole history, [failureCount] has
    grown by the number of failures and [successCount] is as it was.
    [recordSuccess] leaves an open breaker exactly as it is. *)
Theorem breaker_open_until_cooldown (N T : Z) (before ops : list Op) (t0 : Z) :
  let b := run before (create N T) in
  state b = OPEN -> last_failure before = Some t0 ->
  cooling t0 T ops ->
  Forall refused (observe ops b) /\
  state (run ops b) = OPEN /\
  last_failure (before ++ ops) = Some (lastFailureTime (run ops b)) /\
  failureCount (run ops b) = failureCount b + failures ops /\
  successCount (run ops b) = successCount b /\
  recordSuccess b = b.
Proof.
  intros b Hs Hlast Hcool.
  assert (Hstamp : lastFailureTime b = t0).
  { assert (Htrack : last_failure before = Some (lastFailureTime b)).
    { apply last_failure_tracks; [done|]. fold b. by rewrite Hs. }
    congruence. }
  assert (Hr : resetTimeMs b = T) by apply run_resetTimeMs.
  destruct (open_fails_fast T ops b Hs Hr) as (Hobs & Hopen & Hf & Hc);
    [by rewrite Hstamp|].
  split; [done|]. split; [done|]. split; [|split; [done|split; [done|]]].
  - unfold b in Hopen |- *. rewrite <- breaker_run_app in Hopen |- *.
    apply last_failure_tracks; [done|]. by rewrite Hopen.
  - unfold recordSuccess. by rewrite Hs.
Qed.

Lemma breaker_open_until_cooldown_witness :
  let b := run [OpRecordFailure 0; OpRecordFailure 100] (create 2 10000) in
  let ops := [OpCanExecute 10099; OpRecordSuccess; OpRecordFailure 5000;
              OpCanExecute 12000] in
  Forall refused (observe ops b) /\
  lastFailureTime (run ops b) = 5000.
Proof.
  destruct (breaker_open_until_cooldown 2 10000
              [OpRecordFailure 0; OpRecordFailure 100]
              [OpCanExecute 10099; OpRecordSuccess; OpRecordFailure 5000;
               OpCanExecute 12000] 100) as (Hobs & _ & Hlast & _).
  - reflexivity.
  - reflexivity.
  - simpl. lia.
  - split; [exact Hobs|]. apply (inj Some). by rewrite <- Hlast.
Defined.

Lemma recordFailures_trip times b :
  state b = CLOSED -> times <> [] ->
  failureCount b + Z.of_nat (length times) = threshold b ->
  state (recordFailures times b) = OPEN.
Proof.
  intros Hs Hne Hlen.
  destruct (exists_last Hne) as (front & now & ->).
  rewrite length_app in Hlen. simpl in Hlen.
  rewrite recordFailures_snoc.
  destruct (recordFailures_below front b Hs) as (Hs' & Hf' & Ht' & _); [lia|].
  rewrite recordFailure_closed by exact Hs'. simpl.
  destruct (Z.leb_spec (threshold (recordFailures front b))
                       (failureCount (recordFailures front b) + 1));
    [done|lia].
Qed.

(** X3. On a closed breaker with no failure counted, fewer than [threshold]
    failures followed by one [recordSuccess] leave the breaker closed with
    [failureCount = 0]: the failures are forgotten, so that afterwards it
    again takes exactly [threshold] consecutive failures to open it (fewer
    leave it closed). *)
Theorem breaker_success_restarts_count (b : t) (before after : list Z) :
  state b = CLOSED -> failureCount b = 0 ->
  (Z.of_nat (length before) < threshold b) ->
  let b1 := recordSuccess (recordFailures before b) in
  state b1 = CLOSED /\ failureCount b1 = 0 /\
  (Z.of_nat (length after) < threshold b ->
     state (recordFailures after b1) = CLOSED) /\
  (Z.of_nat (length after) = threshold b ->
     state (recordFailures after b1) = OPEN).
Proof.
  intros Hs Hf Hlen b1.
  destruct (recordFailures_below before b Hs) as (Hs' & Hf' & Ht' & Hr');
    [lia|].
  assert (Hb1 : state b1 = CLOSED /\ failureCount b1 = 0 /\
                threshold b1 = threshold b).
  { unfold b1, recordSuccess. rewrite Hs'. simpl. done. }
  destruct Hb1 as (Hs1 & Hf1 & Ht1).
  split; [done|]. split; [done|]. split.
  - intros Hafter. apply (recordFailures_below after b1 Hs1). lia.
  - intros Hafter. apply recordFailures_trip; [done| |lia].
    intros ->. simpl in Hafter. lia.
Qed.

Lemma breaker_success_restarts_count_witness :
  let b1 := recordSuccess (recordFailures [0; 1] (create 3 10000)) in
  state (recordFailures [2; 3] b1) = CLOSED.
Proof.
  intros b1.
  destruct (breaker_success_restarts_count (create 3 10000) [0; 1] [2; 3])
    as (_ & _ & Hclosed & _); [reflexivity|reflexivity|simpl; lia|].
  apply Hclosed. simpl. lia.
Defined.

End BreakerMore.

(* ===================================================================== *)
(** ** Further properties of the limiter *)

Section LimiterExtras.
Import ConcurrencyLimiter.
Context {T E : Type}.
Implicit Types (s : State T E) (c k : Call T E) (r : QueuedRequest).

(** X4. For [maxConcurrency = M >= 0], after any sequence of events on a
    new limiter, [getStats] reports [maxConcurrency = M],
    [0 <= active <= M], and a positive [queued] only when [active = M]: a
    request waits in the queue only while every slot is taken. *)
Theorem stats_queue_only_when_full (M : Z) (e : E) (evs : list (Event T E)) :
  0 <= M ->
  let '(queued, active, max) := getStats (run (create M e) evs) in
  max = M /\ 0 <= active <= max /\ (0 < queued -> active = max).
Proof.
  intros HM. set (s := run (create M e) evs). unfold getStats.
  assert (Hwf : wf s) by apply run_wf, wf_create.
  assert (Hsat : saturated s) by (apply run_saturated; by left).
  assert (Hb : bounded s) by (apply run_bounded; unfold bounded; simpl; lia).
  assert (Hmax : maxConcurrency s = M) by apply run_maxConcurrency.
  unfold bounded in Hb. pose proof (wf_count s Hwf) as Hcnt.
  split; [done|]. split; [lia|]. intros Hq.
  destruct Hsat as [Hnil|Hge]; [|lia]. rewrite Hnil in Hq. simpl in Hq. lia.
Qed.

(** *** Settled promises stay as they are *)

Lemma step_outcome_stable s (ev : Event T E) (p : nat) (o : Outcome T) :
  outcome p s = Some o -> outcome p (step s ev) = Some o.
Proof.
  unfold outcome. intros Hp.
  destruct ev as [now cfg ex|c o'|now c| |f]; simpl; try done.
  - destruct (execute_cases now cfg ex s) as [(existing & _ & _ & ->)| ->];
      [done|]. simpl. by rewrite drain_promises.
  - destruct (on_settled_cases c o' s) as [->|(call & _ & _ & _ & ->)]; [done|].
    simpl. by apply settle_keeps.
  - destruct (on_finally_cases now c s) as [->|(call & o' & _ & _ & _ & ->)];
      [done|]. rewrite drain_promises. simpl. by apply settle_keeps.
  - fold (reject_all (queue s) (promises s)). by apply reject_all_keeps.
Qed.

Lemma run_outcome_stable (evs : list (Event T E)) : forall s (p : nat) o,
  outcome p s = Some o -> outcome p (run s evs) = Some o.
Proof.
  induction evs as [|ev evs IH]; intros s p o Hp; [done|].
  rewrite run_cons. by apply IH, step_outcome_stable.
Qed.

(** X5. While an execution has not settled, the caller's promise is
    pending; when the executor's promise settles with an outcome (a value or
    a rejection), the caller's promise settles with that same outcome, and
    nothing that happens later (a second settlement, [finally], [clear],
    further requests) changes it. *)
Theorem result_propagates_unchanged (M : Z) (e : E) (evs : list (Event T E))
    (call : Call T E) (o : Outcome T) (later : list (Event T E)) :
  let s := run (create M e) evs in
  call ∈ calls s -> settled call = None ->
  outcome (promise (request call)) s = None /\
  outcome (promise (request call))
          (run s (Settled (chain call) o :: later)) = Some o.
Proof.
  intros s Hin Hset.
  assert (Hwf : wf s) by apply run_wf, wf_create.
  split.
  - unfold outcome. fold (target call). by rewrite (wf_target s Hwf call Hin).
  - rewrite run_cons. apply run_outcome_stable.
    simpl. unfold on_settled.
    rewrite (find_call_in (calls s) call Hin (chains_nodup s (wf_nodup s Hwf))).
    rewrite Hset. unfold outcome. simpl.
    rewrite settle_pending; [apply lookup_insert_eq|].
    fold (target call). by rewrite (wf_target s Hwf call Hin).
Qed.

(** X6. In any state a new limiter can reach, [clear()] rejects the promise
    of every queued request, which was pending, with "Queue cleared" and
    empties the queue; it does not touch the executions under way: the calls
    and [activeCount] are as before, their callers' promises are as before
    and the executors' chained promises stay pending. *)
Theorem clear_rejects_queued_only (M : Z) (e : E) (evs : list (Event T E)) :
  let s := run (create M e) evs in
  (forall r, r ∈ queue s ->
     outcome (promise r) s = None /\
     outcome (promise r) (clear s) = Some (Rejected queue_cleared)) /\
  queue (clear s) = [] /\
  calls (clear s) = calls s /\ activeCount (clear s) = activeCount s /\
  (forall call, call ∈ calls s ->
     outcome (promise (request call)) (clear s)
       = outcome (promise (request call)) s /\
     outcome (chain call) (clear s) = None).
Proof.
  intros s.
  assert (Hwf : wf s) by apply run_wf, wf_create.
  pose proof (wf_nodup s Hwf) as Hnd.
  split; [|repeat split; try done].
  - intros r Hr. pose proof (wf_pending s Hwf r Hr) as Hp. split; [done|].
    unfold outcome, clear. simpl. fold (reject_all (queue s) (promises s)).
    apply reject_all_pending; [by apply list_elem_of_fmap_2|done].
  - unfold outcome, clear. simpl. fold (reject_all (queue s) (promises s)).
    apply reject_all_other. intros Hin.
    apply list_elem_of_fmap in Hin as (r & Heq & Hr).
    symmetry in Heq. by apply (queue_not_target s Hnd r call).
  - unfold outcome, clear. simpl. fold (reject_all (queue s) (promises s)).
    rewrite reject_all_other; [by apply (wf_chain s Hwf)|]. intros Hin.
    apply list_elem_of_fmap in Hin as (r & Heq & Hr).
    symmetry in Heq. by apply (queue_not_chain s Hnd r call).
Qed.

Lemma StronglySorted_lt_NoDup (l : list nat) : StronglySorted lt l -> NoDup l.
Proof.
  induction 1 as [|x l Hs IH Hall]; [constructor|].
  apply NoDup_cons. split; [|done].
  intros Hin. rewrite Forall_forall in Hall. apply Hall in Hin. lia.
Qed.

Lemma drain_cleared_apart now ex pending : forall s,
  cleared_apart s -> queue s = pending ->
  cleared_apart (drain now ex pending s).
Proof.
  induction pending as [|req rest IH]; intros s Hc Hq; simpl.
  - by rewrite <- Hq, set_queue_same.
  - destruct (activeCount s <? maxConcurrency s);
      [|by rewrite <- Hq, set_queue_same].
    apply IH; [|done].
    intros p Hp. rewrite (begin_pipeline now ex req rest s Hq). simpl.
    destruct (Hc p Hp) as [? ?]. split; [done|]. unfold begin, set_queue. simpl. lia.
Qed.

Lemma step_cleared_apart s (ev : Event T E) :
  fifo s -> cleared_apart s -> cleared_apart (step s ev).
Proof.
  intros Hf Hc. destruct ev as [now cfg ex|c o|now c| |f]; simpl; try done.
  - destruct (execute_cases now cfg ex s) as [(existing & _ & _ & ->)| ->];
      [done|]. simpl. apply drain_cleared_apart; [|done].
    intros p Hp. simpl in Hp. destruct (Hc p Hp) as [Hnot Hlt].
    split; [|simpl; lia].
    unfold pipeline in *. simpl. rewrite fmap_app, app_assoc.
    intros Hin. apply elem_of_app in Hin as [Hin|Hin]; [done|].
    apply list_elem_of_singleton in Hin. simpl in Hin. lia.
  - by destruct (on_settled_cases c o s) as [->|(call & _ & _ & _ & ->)].
  - destruct (on_finally_cases now c s) as [->|(call & o & _ & _ & _ & ->)];
      [done|]. by apply drain_cleared_apart.
  - intros p Hp. simpl in Hp. unfold pipeline. simpl. rewrite app_nil_r.
    apply elem_of_app in Hp as [Hp|Hp].
    + destruct (Hc p Hp) as [Hnot Hlt]. split; [|done].
      intros Hin. apply Hnot. unfold pipeline. apply elem_of_app. by left.
    + split.
      * intros Hin.
        pose proof (StronglySorted_lt_NoDup _ (fifo_pipeline s Hf)) as Hnd.
        unfold pipeline in Hnd. apply NoDup_app in Hnd as (_ & Hdis & _).
        by apply (Hdis p).
      * apply (fifo_fresh s Hf), (fifo_known s Hf).
        unfold pipeline. apply elem_of_app. by right.
Qed.

Lemma run_cleared_apart (evs : list (Event T E)) : forall s,
  fifo s -> cleared_apart s -> cleared_apart (run s evs).
Proof.
  induction evs as [|ev evs IH]; intros s Hf Hc; [done|].
  rewrite run_cons. apply IH; [by apply step_fifo|by apply step_cleared_apart].
Qed.

(** X7. In any state a new limiter can reach: no request has been handed
    to an executor twice; every request handed to an executor had been
    enqueued by [execute]; a request still in the queue has not been handed
    to an executor; and a request that [clear] removed from the queue has
    never been and is never handed to an executor. *)
Theorem started_once (M : Z) (e : E) (evs : list (Event T E)) :
  let s := run (create M e) evs in
  NoDup (target <$> started s) /\
  (forall st, st ∈ started s -> target st ∈ enqueued s) /\
  (forall r, r ∈ queue s -> promise r ∉ target <$> started s) /\
  (forall p : nat, p ∈ cleared s -> p ∉ target <$> started s).
Proof.
  intros s.
  assert (Hf : fifo s) by apply run_fifo, fifo_create.
  assert (Hc : cleared_apart s).
  { apply run_cleared_apart; [apply fifo_create|]. intros p Hp. inversion Hp. }
  pose proof (StronglySorted_lt_NoDup _ (fifo_pipeline s Hf)) as Hnd.
  unfold pipeline in Hnd. apply NoDup_app in Hnd as (Hnd1 & Hdis & _).
  split; [done|]. split; [|split].
  - intros st Hst. apply (fifo_known s Hf). unfold pipeline.
    apply elem_of_app. left. by apply list_elem_of_fmap_2.
  - intros r Hr Hin. apply (Hdis _ Hin). by apply list_elem_of_fmap_2.
  - intros p Hp Hin. destruct (Hc p Hp) as [Hnot _]. apply Hnot.
    unfold pipeline. apply elem_of_app. by left.
Qed.


Lemma drain_full now ex pending : forall s,
  maxConcurrency s <= activeCount s -> queue s = pending ->
  drain now ex pending s = s.
Proof.
  intros s Hge Hq. destruct pending as [|req rest]; simpl.
  - by rewrite <- Hq, set_queue_same.
  - destruct (Z.ltb_spec (activeCount s) (maxConcurrency s)); [lia|].
    by rewrite <- Hq, set_queue_same.
Qed.

(** X8. When the queue is not empty and the [finally] callback of a
    settled execution runs, exactly the request at the head of the queue is
    started, and it is started with the executor of the execution that has
    just finished (the one [processQueue] was called with), not with the one
    that was passed to [execute] together with the request; [activeCount] is
    the same before and after. *)
Theorem queued_request_runs_with_releasing_executor (M : Z) (e : E)
    (evs : list (Event T E)) (call : Call T E) (o : Outcome T)
    (r : QueuedRequest) (rest : list QueuedRequest) (now : Z) :
  0 <= M ->
  let s := run (create M e) evs in
  call ∈ calls s -> settled call = Some o -> queue s = r :: rest ->
  let s' := step s (Finally now (chain call)) in
  queue s' = rest /\
  calls s' = remove_call (chain call) (calls s)
             ++ [mkCall r (getDedupeKey (config r)) (fresh s) (executor call) None] /\
  ext s' = executor call now (config r) (fresh s) (ext s) /\
  activeCount s' = activeCount s.
Proof.
  intros HM s Hin Hset Hq s'.
  assert (Hwf : wf s) by apply run_wf, wf_create.
  assert (Hsat : saturated s) by (apply run_saturated; by left).
  assert (Hb : bounded s) by (apply run_bounded; unfold bounded; simpl; lia).
  unfold bounded in Hb.
  assert (Hfull : activeCount s = maxConcurrency s).
  { destruct Hsat as [Hnil|Hge]; [by rewrite Hq in Hnil|lia]. }
  unfold s'. simpl. unfold on_finally.
  rewrite (find_call_in (calls s) call Hin (chains_nodup s (wf_nodup s Hwf))).
  rewrite Hset. unfold processQueue. simpl. rewrite Hq. simpl.
  destruct (Z.ltb_spec (activeCount s - 1) (maxConcurrency s)) as [_|?]; [|lia].
  rewrite drain_full; [|simpl; lia|done]. simpl. repeat split; lia.
Qed.

(** *** No request is lost *)

Lemma drain_accounted now ex pending : forall s,
  accounted s -> queue s = pending -> accounted (drain now ex pending s).
Proof.
  induction pending as [|req rest IH]; intros s Ha Hq; simpl.
  - by rewrite <- Hq, set_queue_same.
  - destruct (activeCount s <? maxConcurrency s);
      [|by rewrite <- Hq, set_queue_same].
    apply IH; [|done]. intros i Hi.
    rewrite (begin_ids now ex req rest s Hq). simpl in Hi.
    destruct (decide (i = fresh s)) as [->|Hne]; [left; by left|].
    destruct (Ha i) as [?|?]; [lia|left; by right|by right].
Qed.

Lemma step_accounted s (ev : Event T E) :
  wf s -> accounted s -> accounted (step s ev).
Proof.
  intros Hwf H4. destruct ev as [now cfg ex|c o|now c| |f]; simpl; try done.
  - destruct (execute_cases now cfg ex s) as [(existing & _ & _ & ->)| ->];
      [done|]. simpl. apply drain_accounted; [|done].
    intros i Hi. rewrite push_ids. simpl in Hi.
    destruct (decide (i = fresh s)) as [->|Hne]; [left; by left|].
    destruct (H4 i) as [?|?]; [lia|left; by right|by right].
  - destruct (on_settled_cases c o s) as [->|(call & Hin & Hc & Hset & ->)];
      [done|].
    intros i Hi. rewrite resolve_request_ids. simpl in *.
    destruct (H4 i Hi) as [?|?]; [by left|right]. by apply settle_is_Some.
  - destruct (on_finally_cases now c s) as [->|(call & o & Hin & Hc & Hset & ->)];
      [done|].
    apply drain_accounted; [|done].
    intros i Hi. simpl in Hi. simpl.
    destruct (decide (i = c)) as [->|Hic]; [right; apply settle_settled|].
    destruct (H4 i Hi) as [Hid|Hs]; [|right; by apply settle_is_Some].
    unfold ids in *. simpl. rewrite !elem_of_app in *.
    destruct Hid as [Hid|[Hid|Hid]]; [left; by left| |].
    + apply list_elem_of_fmap in Hid as (k & -> & Hk).
      destruct (decide (chain k = chain call)) as [Heq|Hne].
      * assert (k = call) as -> by (by apply (same_chain s (wf_nodup s Hwf))).
        right. apply settle_is_Some.
        rewrite (wf_target s Hwf call Hin), Hset. done.
      * left. right. left. apply list_elem_of_fmap_2.
        unfold remove_call. by apply list_elem_of_filter.
    + apply list_elem_of_fmap in Hid as (k & -> & Hk).
      left. right. right. apply list_elem_of_fmap_2.
      unfold remove_call. apply list_elem_of_filter. split; [|done]. congruence.
  - intros i Hi. simpl in Hi. simpl. fold (reject_all (queue s) (promises s)).
    destruct (H4 i Hi) as [Hid|[o Hs]].
    + unfold ids in *. simpl. rewrite elem_of_app in Hid.
      destruct Hid as [Hid|Hid]; [|by left].
      right. destruct (promises s !! i) as [o|] eqn:Hl.
      * exists o. by apply reject_all_keeps.
      * eexists. by apply reject_all_pending.
    + right. exists o. by apply reject_all_keeps.
Qed.

Lemma run_accounted (evs : list (Event T E)) : forall s,
  wf s -> accounted s -> accounted (run s evs).
Proof.
  induction evs as [|ev evs IH]; intros s Hwf Ha; [done|].
  rewrite run_cons. apply IH; [by apply step_wf|by apply step_accounted].
Qed.

(** X9. In any state a new limiter can reach, every request that [execute]
    has enqueued is still in the queue, or is executing with its executor's
    promise unsettled, or has its promise settled: no request is lost.  And
    when [maxConcurrency >= 1] and no execution is under way, the queue is
    empty and every such promise has settled. *)
Theorem no_request_is_lost (M : Z) (e : E) (evs : list (Event T E)) :
  let s := run (create M e) evs in
  (forall p : nat, p ∈ enqueued s ->
     p ∈ promise <$> queue s \/
     (exists call, call ∈ calls s /\ target call = p /\ settled call = None) \/
     is_Some (outcome p s)) /\
  (1 <= M -> calls s = [] ->
   queue s = [] /\ forall p : nat, p ∈ enqueued s -> is_Some (outcome p s)).
Proof.
  intros s.
  assert (Hsane : sane s) by apply run_sane, sane_create.
  destruct Hsane as [Hwf Hf Ht Hp].
  assert (Ha : accounted s).
  { apply run_accounted; [apply wf_create|]. intros i Hi. simpl in Hi. lia. }
  assert (H1 : forall p : nat, p ∈ enqueued s ->
     p ∈ promise <$> queue s \/
     (exists call, call ∈ calls s /\ target call = p /\ settled call = None) \/
     is_Some (outcome p s)).
  { intros p Hp'. destruct (Ha p (fifo_fresh s Hf p Hp')) as [Hid|?];
      [|right; by right].
    unfold ids in Hid. rewrite !elem_of_app in Hid.
    destruct Hid as [?|[Hid|Hid]]; [by left| |].
    - apply list_elem_of_fmap in Hid as (k & -> & Hk). right.
      destruct (settled k) as [o|] eqn:Hs.
      + right. unfold outcome. rewrite (wf_target s Hwf k Hk), Hs. done.
      + left. by exists k.
    - apply list_elem_of_fmap in Hid as (k & -> & Hk).
      destruct (paired_calls s Hp k Hk) as (k0 & Hk0 & _ & Hc).
      exfalso. apply (paired_apart s Hp k0 Hk0). by rewrite Hc. }
  split; [done|]. intros HM Hcalls.
  assert (Hsat : saturated s) by (apply run_saturated; by left).
  assert (Hmax : maxConcurrency s = M) by apply run_maxConcurrency.
  assert (Hq : queue s = []).
  { destruct Hsat as [?|Hge]; [done|].
    rewrite (wf_count s Hwf), Hcalls in Hge. simpl in Hge. lia. }
  split; [done|]. intros p Hp'.
  destruct (H1 p Hp') as [Hin|[(k & Hk & _)|?]]; [|  |done].
  - rewrite Hq in Hin. inversion Hin.
  - rewrite Hcalls in Hk. inversion Hk.
Qed.

End LimiterExtras.

Section LimiterExtraWitnesses.
Import ConcurrencyLimiter Samples.

Lemma stats_queue_only_when_full_witness :
  let '(queued, active, max) :=
    getStats (run (create (T:=string) 1 tt)
                  [Execute 0 slow idle; Execute 1 status idle]) in
  max = 1 /\ 0 <= active <= max /\ (0 < queued -> active = max).
Proof.
  apply (stats_queue_only_when_full 1 tt
           [Execute 0 slow idle; Execute 1 status idle]). lia.
Defined.

Lemma result_propagates_unchanged_witness :
  let s := run (create (T:=string) 1 tt) [Execute 0 slow idle] in
  outcome 0%nat s = None /\
  outcome 0%nat (run s [Settled 1 (Fulfilled "done"); Finally 2 1;
                        Settled 1 (Rejected "late")])
    = Some (Fulfilled "done").
Proof.
  apply (result_propagates_unchanged 1 tt [Execute 0 slow idle]
           (mkCall (T:=string) (mkRequest slow 0%nat) (getDedupeKey slow)
                   1%nat idle None)
           (Fulfilled "done") [Finally 2 1; Settled 1 (Rejected "late")]).
  - vm_compute. apply list_elem_of_here.
  - reflexivity.
Defined.

Lemma queued_request_runs_with_releasing_executor_witness :
  let s := run (create (T:=string) 1 tt)
               [Execute 0 slow idle; Execute 1 status idle;
                Settled 1 (Fulfilled "slow")] in
  let s' := step s (Finally 3 1) in
  queue s' = [] /\
  calls s' = remove_call 1 (calls s)
             ++ [mkCall (mkRequest status 2%nat) (getDedupeKey status)
                        (fresh s) idle None] /\
  ext s' = idle 3 status (fresh s) (ext s) /\
  activeCount s' = activeCount s.
Proof.
  apply (queued_request_runs_with_releasing_executor 1 tt
           [Execute 0 slow idle; Execute 1 status idle;
            Settled 1 (Fulfilled "slow")]
           (mkCall (mkRequest slow 0%nat) (getDedupeKey slow) 1%nat idle
                   (Some (Fulfilled "slow")))
           (Fulfilled "slow") (mkRequest status 2%nat) [] 3).
  - lia.
  - vm_compute. apply list_elem_of_here.
  - reflexivity.
  - reflexivity.
Defined.

End LimiterExtraWitnesses.

(* ===================================================================== *)
(** ** Properties of the process supervisor *)
(* ===================================================================== *)

Section LimiterDelivery.
Import ConcurrencyLimiter.
Context {T E : Type} (P : T -> Prop).
Implicit Types (s : State T E).

Lemma delivering_create (m : Z) (e : E) : delivering P (create (T:=T) m e).
Proof.
  split; simpl.
  - intros p v H. by rewrite lookup_empty in H.
  - intros k v H. inversion H.
Qed.

Lemma drain_delivering now ex pending : forall s,
  delivering P s -> queue s = pending -> delivering P (drain now ex pending s).
Proof.
  induction pending as [|req rest IH]; intros s Hd Hq; simpl.
  - by rewrite <- Hq, set_queue_same.
  - destruct (activeCount s <? maxConcurrency s);
      [|by rewrite <- Hq, set_queue_same].
    apply IH; [|done]. destruct Hd as [H1 H2]. split; simpl; [done|].
    intros k v Hk Hs. apply elem_of_app in Hk as [Hk|Hk]; [by eapply H2|].
    apply list_elem_of_singleton in Hk as ->. done.
Qed.

Lemma step_delivering s (ev : Event T E) :
  delivering P s -> carrying P ev -> delivering P (step s ev).
Proof.
  intros Hd Hev. destruct ev as [now cfg ex|c o|now c| |f]; simpl.
  - destruct (execute_cases now cfg ex s) as [(existing & _ & _ & ->)| ->];
      [done|]. simpl. apply drain_delivering; [|done].
    destruct Hd as [H1 H2]. by split.
  - destruct (on_settled_cases c o s) as [->|(call & Hin & Hc & Hset & ->)];
      [done|].
    destruct Hd as [H1 H2]. split; simpl.
    + intros p v Hl. apply settle_inv in Hl as [Hl|[_ Hl]]; [by eapply H1|].
      subst o. exact Hev.
    + intros k v Hk Hs.
      apply mark_settled_elem in Hk as (k0 & Hk0 & _ & _ & _ & _ & Hs').
      rewrite Hs' in Hs. destruct (decide (chain k0 = chain call)).
      * inversion Hs. subst o. exact Hev.
      * by eapply H2.
  - destruct (on_finally_cases now c s) as [->|(call & o & Hin & Hc & Hset & ->)];
      [done|].
    apply drain_delivering; [|done].
    destruct Hd as [H1 H2]. split; simpl.
    + intros p v Hl. apply settle_inv in Hl as [Hl|[_ Hl]]; [by eapply H1|].
      subst o. by eapply H2.
    + intros k v Hk Hs. apply remove_call_sub in Hk as [Hk _]. by eapply H2.
  - destruct Hd as [H1 H2]. split; simpl; [|done].
    fold (reject_all (queue s) (promises s)).
    intros p v Hl. apply reject_all_inv in Hl as [Hl|[_ Hl]]; [by eapply H1|done].
  - destruct Hd as [H1 H2]. by split.
Qed.

Lemma run_delivering (evs : list (Event T E)) : forall s,
  delivering P s -> Forall (carrying P) evs -> delivering P (run s evs).
Proof.
  induction evs as [|ev evs IH]; intros s Hd Hall; [done|].
  apply Forall_cons in Hall as [Hev Hall].
  rewrite run_cons. apply IH; [by apply step_delivering|done].
Qed.

End LimiterDelivery.

Section SupervisorFacts.
Import ProcessSupervisor.
Context {J : Type} (JSON_parse : string -> option (option J)).
Context (execFile_throws : CL.CLICommandConfig -> Z -> option string).
Implicit Types (s : State J) (ev : Event)
               (l : CL.State (CLIResult J) Processes).

Local Abbreviation step := (ProcessSupervisor.step JSON_parse execFile_throws).
Local Abbreviation run := (ProcessSupervisor.run JSON_parse execFile_throws).
Local Abbreviation execute := (ProcessSupervisor.execute execFile_throws).
Local Abbreviation executeCommand :=
  (ProcessSupervisor.executeCommand execFile_throws).
Local Abbreviation supervised := (ProcessSupervisor.supervised execFile_throws).
Local Abbreviation faulted := (ProcessSupervisor.faulted execFile_throws).

(** *** A supervisor step as events of its limiter *)

Lemma step_limiter s ev :
  exists evs' : list (LimiterEvent J),
    limiter (step s ev) = CL.run (limiter s) evs'.
Proof.
  destruct ev as [now c|now id err stdout stderr|now id msg|id|now id| |]; simpl.
  - unfold ProcessSupervisor.execute. destruct (destroyed s); [by exists []|].
    destruct (CircuitBreaker.canExecute now (circuitBreaker s)) as [[|] b].
    + exists [CL.Execute now c (executeCommand (config s))]. simpl.
      by destruct (CL.execute now c (executeCommand (config s)) (limiter s)).
    + by exists [].
  - unfold on_exit.
    destruct (invocations (CL.ext (limiter s)) !! id) as [inv|]; [|by exists []].
    by exists [CL.External (forget id);
               CL.Settled id (CL.Fulfilled (completion JSON_parse now inv err stdout stderr))].
  - unfold on_error.
    destruct (invocations (CL.ext (limiter s)) !! id) as [inv|]; [|by exists []].
    by eexists [CL.External (forget id); CL.Settled id (CL.Fulfilled _)].
  - unfold on_rejection.
    destruct (thrown (CL.ext (limiter s)) !! id) as [msg|]; [|by exists []].
    by exists [CL.Settled id (CL.Rejected msg)].
  - by exists [CL.Finally now id].
  - by exists [].
  - by exists [CL.External kill_all; CL.Clear].
Qed.

Lemma supervisor_run_cons s ev evs :
  run s (ev :: evs) = run (step s ev) evs.
Proof. reflexivity. Qed.

Lemma supervisor_run_app s evs1 evs2 :
  run s (evs1 ++ evs2) = run (run s evs1) evs2.
Proof. unfold ProcessSupervisor.run. by rewrite foldl_app. Qed.

Lemma run_limiter (evs : list Event) : forall s,
  exists evs' : list (LimiterEvent J),
    limiter (run s evs) = CL.run (limiter s) evs'.
Proof.
  induction evs as [|ev evs IH]; intros s; [by exists []|].
  rewrite supervisor_run_cons.
  destruct (step_limiter s ev) as (evs1 & Heq1).
  destruct (IH (step s ev)) as (evs2 & Heq2).
  exists (evs1 ++ evs2). by rewrite Heq2, Heq1, run_app.
Qed.

Lemma step_config s ev : config (step s ev) = config s.
Proof.
  destruct ev as [now c|now id err stdout stderr|now id msg|id|now id| |];
    simpl; try done.
  - unfold ProcessSupervisor.execute. destruct (destroyed s); [done|].
    destruct (CircuitBreaker.canExecute now (circuitBreaker s)) as [[|] b];
      [|done].
    by destruct (CL.execute now c (executeCommand (config s)) (limiter s)).
  - unfold on_exit. by destruct (invocations (CL.ext (limiter s)) !! id).
  - unfold on_error. by destruct (invocations (CL.ext (limiter s)) !! id).
  - unfold on_rejection. by destruct (thrown (CL.ext (limiter s)) !! id).
Qed.

Lemma run_config (evs : list Event) : forall s, config (run s evs) = config s.
Proof.
  induction evs as [|ev evs IH]; intros s; [done|].
  rewrite supervisor_run_cons, IH. apply step_config.
Qed.

Lemma step_limiter_sane s ev :
  CL.sane (limiter s) -> CL.sane (limiter (step s ev)).
Proof.
  intros Hs. destruct (step_limiter s ev) as (evs' & ->). by apply run_sane.
Qed.

(** *** What [executeCommand] does to the processes *)

Lemma executeCommand_thrown_keeps cfg now c (id : nat) e (j : nat) msg :
  thrown e !! j = Some msg -> j <> id ->
  thrown (executeCommand cfg now c id e) !! j = Some msg.
Proof.
  intros Hj Hne. unfold ProcessSupervisor.executeCommand.
  destruct (execFile_throws c (effective_timeout cfg c)); simpl; [|done].
  by rewrite lookup_insert_ne.
Qed.

Lemma executeCommand_thrown_inv cfg now c (id : nat) e (j : nat) msg :
  thrown (executeCommand cfg now c id e) !! j = Some msg ->
  thrown e !! j = Some msg \/
  (j = id /\ execFile_throws c (effective_timeout cfg c) = Some msg).
Proof.
  unfold ProcessSupervisor.executeCommand.
  destruct (execFile_throws c (effective_timeout cfg c)) as [m|] eqn:Hthrows;
    simpl; [|by left].
  destruct (decide (id = j)) as [->|Hne].
  - rewrite lookup_insert_eq. intros [= ->]. by right.
  - rewrite lookup_insert_ne by done. by left.
Qed.

Lemma executeCommand_active_inv cfg now c (id : nat) e (j : nat) :
  is_Some (activeProcesses (executeCommand cfg now c id e) !! j) ->
  is_Some (activeProcesses e !! j) \/
  (j = id /\ execFile_throws c (effective_timeout cfg c) = None).
Proof.
  unfold ProcessSupervisor.executeCommand.
  destruct (execFile_throws c (effective_timeout cfg c)) as [m|] eqn:Hthrows;
    simpl; [by left|].
  destruct (decide (id = j)) as [->|Hne]; [by right|].
  rewrite lookup_insert_ne by done. by left.
Qed.

Lemma executeCommand_totalSpawned cfg now c (id : nat) e :
  totalSpawned (executeCommand cfg now c id e) = totalSpawned e + 1.
Proof.
  unfold ProcessSupervisor.executeCommand.
  by destruct (execFile_throws c (effective_timeout cfg c)).
Qed.

(** *** The processes a supervisor tracks *)

Lemma supervised_create (cfg : ProcessSupervisorConfig) :
  supervised cfg (limiter (create (J:=J) cfg)).
Proof.
  split; simpl.
  - intros id [inv H]. by rewrite lookup_empty in H.
  - intros call H. inversion H.
  - done.
  - intros id [msg H]. by rewrite lookup_empty in H.
Qed.

Lemma supervised_begin cfg now req rest l :
  CL.wf l -> supervised cfg l -> CL.queue l = req :: rest ->
  supervised cfg (CL.begin now (executeCommand cfg) req (CL.set_queue rest l)).
Proof.
  intros Hwf [H1 H2 H3 H4] Hq.
  assert (Hactive : forall id : nat,
            is_Some (activeProcesses (CL.ext l) !! id) -> (id < CL.fresh l)%nat).
  { intros id Hid. destruct (H1 id Hid) as (call & Hin & <- & _).
    apply (CL.wf_fresh l Hwf). unfold CL.ids. rewrite !elem_of_app.
    right. right. by apply list_elem_of_fmap_2. }
  split; simpl.
  - intros id Hid.
    apply executeCommand_active_inv in Hid as [Hid|[-> _]].
    + destruct (H1 id Hid) as (call & Hin & Hc & Hs).
      exists call. split; [apply elem_of_app; by left|done].
    + eexists. split; [apply elem_of_app; right; apply list_elem_of_here|].
      done.
  - intros call Hin. apply elem_of_app in Hin as [Hin|Hin]; [by apply H2|].
    by apply list_elem_of_singleton in Hin as ->.
  - rewrite executeCommand_totalSpawned, length_app. simpl. lia.
  - intros id [msg Hid].
    apply executeCommand_thrown_inv in Hid as [Hid|[-> Hthrows]].
    + destruct (H4 id (ex_intro _ msg Hid)) as [Hnone Hlt].
      split; [|lia].
      destruct (activeProcesses (executeCommand cfg now (CL.config req)
                  (CL.fresh l) (CL.ext l)) !! id) eqn:Hact; [|done].
      destruct (executeCommand_active_inv cfg now (CL.config req) (CL.fresh l)
                  (CL.ext l) id) as [[inv Hold]|[-> _]]; [by eexists| |lia].
      by rewrite Hnone in Hold.
    + split; [|lia].
      destruct (activeProcesses (executeCommand cfg now (CL.config req)
                  (CL.fresh l) (CL.ext l)) !! CL.fresh l) eqn:Hact; [|done].
      destruct (executeCommand_active_inv cfg now (CL.config req) (CL.fresh l)
                  (CL.ext l) (CL.fresh l)) as [Hold|[_ Hnot]]; [by eexists| |].
      * apply Hactive in Hold. lia.
      * congruence.
Qed.

Lemma supervised_drain cfg now pending : forall l,
  CL.wf l -> supervised cfg l -> CL.queue l = pending ->
  supervised cfg (CL.drain now (executeCommand cfg) pending l).
Proof.
  induction pending as [|req rest IH]; intros l Hwf Hs Hq; simpl.
  - by rewrite <- Hq, set_queue_same.
  - destruct (CL.activeCount l <? CL.maxConcurrency l);
      [|by rewrite <- Hq, set_queue_same].
    apply IH; [by apply begin_wf|by apply supervised_begin|done].
Qed.

Lemma supervised_settled cfg (id : nat) (o : CL.Outcome (CLIResult J)) l :
  supervised cfg l ->
  supervised cfg (CL.on_settled id o (CL.touch (forget id) l)).
Proof.
  intros [H1 H2 H3 H4].
  assert (Hthrown : forall id' : nat,
    is_Some (thrown (CL.ext l) !! id') ->
    delete id (activeProcesses (CL.ext l)) !! id' = None /\
    (id' < CL.fresh l)%nat).
  { intros id' Hid'. destruct (H4 id' Hid') as [Hnone Hlt]. split; [|done].
    destruct (decide (id = id')) as [->|Hne];
      [apply lookup_delete_eq|by rewrite lookup_delete_ne]. }
  destruct (on_settled_cases id o (CL.touch (forget id) l))
    as [->|(call & Hin & Hc & Hset & ->)].
  - split; simpl; try done.
    intros id' Hid'. destruct (decide (id' = id)) as [->|Hne].
    + rewrite lookup_delete_eq in Hid'. by destruct Hid'.
    + rewrite lookup_delete_ne in Hid' by done. by apply H1.
  - split; simpl; [| |done|done].
    + intros id' Hid'. destruct (decide (id' = id)) as [->|Hne].
      { rewrite lookup_delete_eq in Hid'. by destruct Hid'. }
      rewrite lookup_delete_ne in Hid' by done.
      destruct (H1 id' Hid') as (k0 & Hk0 & Hc0 & Hs0).
      simpl in Hin. unfold CL.mark_settled.
      eexists. split; [apply list_elem_of_fmap_2; exact Hk0|].
      split; destruct (decide (CL.chain k0 = CL.chain call)); simpl; congruence.
    + intros k Hk.
      apply mark_settled_elem in Hk as (k1 & Hk1 & _ & _ & _ & He & _).
      rewrite He. by apply H2.
Qed.

Lemma supervised_rejected cfg (id : nat) (msg : string) l :
  supervised cfg l -> thrown (CL.ext l) !! id = Some msg ->
  supervised cfg (CL.on_settled id (CL.Rejected msg) l).
Proof.
  intros [H1 H2 H3 H4] Hthrown.
  destruct (on_settled_cases id (CL.Rejected msg) l)
    as [->|(call & Hin & Hc & Hset & ->)]; [done|].
  split; simpl; [| |done|done].
  - intros id' Hid'.
    destruct (H1 id' Hid') as (k0 & Hk0 & Hc0 & Hs0).
    unfold CL.mark_settled.
    eexists. split; [apply list_elem_of_fmap_2; exact Hk0|].
    assert (Hne : CL.chain k0 <> CL.chain call).
    { intros Heq. destruct (H4 id (ex_intro _ msg Hthrown)) as [Hnone _].
      rewrite <- Hc, <- Heq, Hc0 in Hnone. rewrite Hnone in Hid'.
      by destruct Hid'. }
    split; destruct (decide (CL.chain k0 = CL.chain call)); simpl; congruence.
  - intros k Hk.
    apply mark_settled_elem in Hk as (k1 & Hk1 & _ & _ & _ & He & _).
    rewrite He. by apply H2.
Qed.

Lemma supervised_finally cfg now (id : nat) l :
  CL.wf l -> supervised cfg l -> supervised cfg (CL.on_finally now id l).
Proof.
  intros Hwf Hs.
  destruct (on_finally_cases now id l) as [->|(call & o & Hin & Hc & Hset & ->)];
    [done|].
  rewrite (supervised_executor _ cfg l Hs call Hin).
  apply supervised_drain; [by apply release_wf| |done].
  destruct Hs as [H1 H2 H3 H4]. split; simpl; [| |done|done].
  - intros id' Hid'. destruct (H1 id' Hid') as (k & Hk & Hck & Hsk).
    exists k. split; [|done]. unfold CL.remove_call.
    apply list_elem_of_filter. split; [|done].
    intros Heq.
    assert (k = call) by (by apply (same_chain l (CL.wf_nodup l Hwf))).
    congruence.
  - intros k Hk. apply remove_call_sub in Hk as [Hk _]. by apply H2.
Qed.

Lemma step_supervised s ev :
  CL.wf (limiter s) -> supervised (config s) (limiter s) ->
  supervised (config s) (limiter (step s ev)).
Proof.
  intros Hwf Hs.
  destruct ev as [now c|now id err stdout stderr|now id msg|id|now id| |]; simpl.
  - unfold ProcessSupervisor.execute. destruct (destroyed s); [done|].
    destruct (CircuitBreaker.canExecute now (circuitBreaker s)) as [[|] b];
      [|done].
    destruct (execute_cases now c (executeCommand (config s)) (limiter s))
      as [(existing & _ & _ & ->)| ->]; [done|]. simpl.
    apply supervised_drain; [by apply push_wf| |done].
    destruct Hs as [H1 H2 H3 H4]. split; try done.
    intros id Hid. destruct (H4 id Hid) as [? ?]. split; [done|simpl; lia].
  - unfold on_exit.
    destruct (invocations (CL.ext (limiter s)) !! id) as [inv|]; [|done].
    simpl. by apply supervised_settled.
  - unfold on_error.
    destruct (invocations (CL.ext (limiter s)) !! id) as [inv|]; [|done].
    simpl. by apply supervised_settled.
  - unfold on_rejection.
    destruct (thrown (CL.ext (limiter s)) !! id) as [msg|] eqn:Hthrown; [|done].
    simpl. by apply supervised_rejected.
  - by apply supervised_finally.
  - done.
  - destruct Hs as [H1 H2 H3 H4]. split; simpl; [|done|done|].
    + intros id [inv H]. by rewrite lookup_empty in H.
    + intros id Hid. destruct (H4 id Hid) as [_ ?]. split; [apply lookup_empty|done].
Qed.


Lemma run_invariants (evs : list Event) : forall s,
  CL.sane (limiter s) -> supervised (config s) (limiter s) ->
  CL.sane (limiter (run s evs)) /\
  supervised (config s) (limiter (run s evs)).
Proof.
  induction evs as [|ev evs IH]; intros s Hsane Hs; [done|].
  rewrite supervisor_run_cons. rewrite <- (step_config s ev).
  apply IH; [by apply step_limiter_sane|].
  rewrite step_config. apply step_supervised; [apply Hsane|done].
Qed.

(** *** Where rejections come from *)

Lemma faulted_create (cfg : ProcessSupervisorConfig) :
  faulted cfg (limiter (create (J:=J) cfg)).
Proof.
  split; simpl.
  - intros p msg H. by rewrite lookup_empty in H.
  - intros call msg H. inversion H.
  - intros id msg H. by rewrite lookup_empty in H.
Qed.

Lemma faulted_begin cfg now req rest l :
  CL.wf l -> supervised cfg l -> faulted cfg l -> CL.queue l = req :: rest ->
  faulted cfg (CL.begin now (executeCommand cfg) req (CL.set_queue rest l)).
Proof.
  intros Hwf Hs [F1 F2 F3] Hq.
  assert (Hkeep : forall (j : nat) msg, thrown (CL.ext l) !! j = Some msg ->
    thrown (executeCommand cfg now (CL.config req) (CL.fresh l) (CL.ext l)) !! j
      = Some msg).
  { intros j msg Hj. apply executeCommand_thrown_keeps; [done|].
    destruct (supervised_thrown _ cfg l Hs j (ex_intro _ msg Hj)) as [_ Hlt].
    lia. }
  split; simpl.
  - intros p msg Hp. destruct (F1 p msg Hp) as [?|(st & Hst & Hpst & Hth)];
      [by left|right].
    exists st. split; [apply elem_of_app; by left|]. split; [done|].
    by apply Hkeep.
  - intros call msg Hin Hset. apply elem_of_app in Hin as [Hin|Hin].
    + by apply Hkeep, F2.
    + by apply list_elem_of_singleton in Hin as ->.
  - intros id msg Hid.
    apply executeCommand_thrown_inv in Hid as [Hid|[-> Hthrows]].
    + destruct (F3 id msg Hid) as (st & Hst & Hc & Hthrows).
      exists st. split; [apply elem_of_app; by left|done].
    + eexists. split; [apply elem_of_app; right; apply list_elem_of_here|].
      done.
Qed.

Lemma faulted_drain cfg now pending : forall l,
  CL.wf l -> supervised cfg l -> faulted cfg l -> CL.queue l = pending ->
  faulted cfg (CL.drain now (executeCommand cfg) pending l).
Proof.
  induction pending as [|req rest IH]; intros l Hwf Hs Hf Hq; simpl.
  - by rewrite <- Hq, set_queue_same.
  - destruct (CL.activeCount l <? CL.maxConcurrency l);
      [|by rewrite <- Hq, set_queue_same].
    apply IH; [by apply begin_wf|by apply supervised_begin
              |by apply faulted_begin|done].
Qed.

(** The promise of an execution settles: with a result, or with the error
    that [execFile] threw for it. *)
Lemma faulted_settled cfg (id : nat) (o : CL.Outcome (CLIResult J)) l :
  CL.paired l -> faulted cfg l ->
  (forall msg, o = CL.Rejected msg -> thrown (CL.ext l) !! id = Some msg) ->
  faulted cfg (CL.on_settled id o l).
Proof.
  intros Hp [F1 F2 F3] Ho.
  destruct (on_settled_cases id o l) as [->|(call & Hin & Hc & Hset & ->)];
    [done|].
  split; simpl; [| |done].
  - intros p msg Hl. apply settle_inv in Hl as [Hl|[-> Heq]]; [by apply F1|].
    right. destruct (CL.paired_calls l Hp call Hin) as (k0 & Hk0 & Hreq & Hch).
    exists k0. split; [done|]. split.
    + left. unfold CL.target. by rewrite Hreq.
    + rewrite Hch, Hc. by apply Ho.
  - intros k msg Hk Hs.
    apply mark_settled_elem in Hk as (k0 & Hk0 & _ & _ & Hch & _ & Hs').
    rewrite Hs' in Hs. rewrite Hch.
    destruct (decide (CL.chain k0 = CL.chain call)) as [Heq|Hne].
    + rewrite Heq, Hc. apply Ho. congruence.
    + by apply F2.
Qed.

Lemma faulted_touch cfg (f : Processes -> Processes) l :
  (forall e, thrown (f e) = thrown e) -> faulted cfg l ->
  faulted cfg (CL.touch f l).
Proof. intros Hf [F1 F2 F3]. split; simpl; rewrite ?Hf; done. Qed.

Lemma faulted_finally cfg now (id : nat) l :
  CL.wf l -> CL.paired l -> supervised cfg l -> faulted cfg l ->
  faulted cfg (CL.on_finally now id l).
Proof.
  intros Hwf Hp Hs Hf.
  destruct (on_finally_cases now id l) as [->|(call & o & Hin & Hc & Hset & ->)];
    [done|].
  rewrite (supervised_executor _ cfg l Hs call Hin).
  assert (Hs' : supervised cfg (CL.set_promises
                  (CL.settle id o (CL.promises l)) (CL.release call l))).
  { destruct Hs as [H1 H2 H3 H4]. split; simpl; [| |done|done].
    - intros id' Hid'. destruct (H1 id' Hid') as (k & Hk & Hck & Hsk).
      exists k. split; [|done]. unfold CL.remove_call.
      apply list_elem_of_filter. split; [|done].
      intros Heq.
      assert (k = call) by (by apply (same_chain l (CL.wf_nodup l Hwf))).
      congruence.
    - intros k Hk. apply remove_call_sub in Hk as [Hk _]. by apply H2. }
  apply faulted_drain; [by apply release_wf|done| |done].
  destruct Hf as [F1 F2 F3]. split; simpl; [| |done].
  - intros p msg Hl. apply settle_inv in Hl as [Hl|[-> Heq]]; [by apply F1|].
    right. destruct (CL.paired_calls l Hp call Hin) as (k0 & Hk0 & Hreq & Hch).
    exists k0. split; [done|]. split; [right; congruence|].
    rewrite Hch. apply F2; [done|congruence].
  - intros k msg Hk Hsk. apply remove_call_sub in Hk as [Hk _]. by apply F2.
Qed.

Lemma faulted_clear cfg l : faulted cfg l -> faulted cfg (CL.clear l).
Proof.
  intros [F1 F2 F3]. split; simpl; [|done|done].
  fold (CL.reject_all (CL.queue l) (CL.promises l)).
  intros p msg Hl. apply reject_all_inv in Hl as [Hl|[Hin Heq]].
  - destruct (F1 p msg Hl) as [[-> Hp]|?]; [left|by right].
    split; [done|]. apply elem_of_app. by left.
  - left. injection Heq as ->. split; [done|]. apply elem_of_app. by right.
Qed.

Lemma step_faulted s ev :
  CL.sane (limiter s) -> supervised (config s) (limiter s) ->
  faulted (config s) (limiter s) ->
  faulted (config s) (limiter (step s ev)).
Proof.
  intros [Hwf _ _ Hp] Hs Hf.
  destruct ev as [now c|now id err stdout stderr|now id msg|id|now id| |]; simpl.
  - unfold ProcessSupervisor.execute. destruct (destroyed s); [done|].
    destruct (CircuitBreaker.canExecute now (circuitBreaker s)) as [[|] b];
      [|done].
    destruct (execute_cases now c (executeCommand (config s)) (limiter s))
      as [(existing & _ & _ & ->)| ->]; [done|]. simpl.
    apply faulted_drain; [by apply push_wf| | |done].
    + destruct Hs as [H1 H2 H3 H4]. split; try done.
      intros id Hid. destruct (H4 id Hid) as [? ?]. split; [done|simpl; lia].
    + destruct Hf as [F1 F2 F3]. by split.
  - unfold on_exit.
    destruct (invocations (CL.ext (limiter s)) !! id) as [inv|]; [|done].
    simpl. apply faulted_settled; [by destruct Hp|by apply faulted_touch|done].
  - unfold on_error.
    destruct (invocations (CL.ext (limiter s)) !! id) as [inv|]; [|done].
    simpl. apply faulted_settled; [by destruct Hp|by apply faulted_touch|done].
  - unfold on_rejection.
    destruct (thrown (CL.ext (limiter s)) !! id) as [msg|] eqn:Hthrown; [|done].
    simpl. apply faulted_settled; [done|done|]. by intros ? [= <-].
  - by apply faulted_finally.
  - done.
  - by apply faulted_clear, faulted_touch.
Qed.

Lemma run_faulted (evs : list Event) : forall s,
  CL.sane (limiter s) -> supervised (config s) (limiter s) ->
  faulted (config s) (limiter s) ->
  faulted (config s) (limiter (run s evs)).
Proof.
  induction evs as [|ev evs IH]; intros s Hsane Hs Hf; [done|].
  rewrite supervisor_run_cons. rewrite <- (step_config s ev).
  apply IH; [by apply step_limiter_sane| |];
    rewrite step_config; [apply step_supervised; [apply Hsane|done]|].
  by apply step_faulted.
Qed.


(** *** The destroyed flag *)

Lemma step_destroyed s ev :
  destroyed s = true -> destroyed (step s ev) = true.
Proof.
  intros Hd.
  destruct ev as [now c|now id err stdout stderr|now id msg|id|now id| |];
    simpl; try done.
  - unfold ProcessSupervisor.execute. by rewrite Hd.
  - unfold on_exit. by destruct (invocations (CL.ext (limiter s)) !! id).
  - unfold on_error. by destruct (invocations (CL.ext (limiter s)) !! id).
  - unfold on_rejection. by destruct (thrown (CL.ext (limiter s)) !! id).
Qed.

Lemma run_destroyed (evs : list Event) : forall s,
  destroyed s = true -> destroyed (run s evs) = true.
Proof.
  induction evs as [|ev evs IH]; intros s Hd; [done|].
  rewrite supervisor_run_cons. by apply IH, step_destroyed.
Qed.

(** C2. Once [destroy()] has been called, whatever happens afterwards
    (further [execute] calls in any number, callbacks of processes, further
    [destroy] or [resetCircuitBreaker] calls), the supervisor stays
    destroyed, and an [execute] call returns a result with [success = false],
    [exitCode = -1], [duration = 0] and the "destroyed" message and leaves
    the whole state, circuit breaker and limiter included, as it was. *)
Theorem destroyed_latch (s0 : State J) (evs : list Event)
    (now : Z) (c : CL.CLICommandConfig) :
  let s := run (destroy s0) evs in
  isDestroyed s = true /\
  exists r : CLIResult J,
    execute now c s = (Resolved r, s) /\
    success r = false /\ exitCode r = -1 /\ duration r = 0 /\
    data r = None /\ error r = Some destroyed_message /\
    command r = formatCommand c.
Proof.
  intros s.
  assert (Hd : destroyed s = true) by (by apply run_destroyed).
  split; [done|].
  exists (failResult destroyed_message c).
  unfold ProcessSupervisor.execute. rewrite Hd. done.
Qed.



(** *** What holds of every supervisor *)

Lemma create_limiter_invariants (cfg : ProcessSupervisorConfig)
    (evs' : list (LimiterEvent J)) :
  let l := CL.run (limiter (create (J:=J) cfg)) evs' in
  CL.sane l /\ CL.accounted l /\ CL.saturated l /\
  CL.maxConcurrency l = maxConcurrency cfg.
Proof.
  intros l. unfold l. simpl.
  split; [apply run_sane, sane_create|].
  split; [apply run_accounted; [apply wf_create|]; intros i Hi; simpl in Hi; lia|].
  split; [apply run_saturated; by left|].
  by rewrite run_maxConcurrency.
Qed.

Lemma reachable_invariants (cfg : ProcessSupervisorConfig) (evs : list Event) :
  let s := run (create cfg) evs in
  CL.sane (limiter s) /\ CL.accounted (limiter s) /\ CL.saturated (limiter s) /\
  CL.maxConcurrency (limiter s) = maxConcurrency cfg /\
  supervised cfg (limiter s) /\ faulted cfg (limiter s).
Proof.
  intros s.
  destruct (run_limiter evs (create cfg)) as (evs' & Heq). fold s in Heq.
  destruct (create_limiter_invariants cfg evs') as (Hsane & Hacc & Hsat & Hmax).
  rewrite <- Heq in Hsane, Hacc, Hsat, Hmax.
  do 4 (split; [done|]). split.
  - apply (run_invariants evs (create cfg)); [apply sane_create|].
    apply supervised_create.
  - apply (run_faulted evs (create cfg));
      [apply sane_create|apply supervised_create|apply faulted_create].
Qed.



End SupervisorFacts.

Section SupervisorScenarios.
Import ProcessSupervisor Samples.


(** [execFile] refuses a negative timeout by throwing.  The error is caught
    nowhere: the caller's promise is rejected with it, although the
    supervisor has not been destroyed; the breaker records nothing, no
    process is tracked, and the slot is released by the [finally] callback. *)
Example execFile_throw_rejects_caller :
  let s1 := create (J:=unit) DEFAULT_SUPERVISOR_CONFIG in
  let r := fst (execute range_checked 0 hasty s1) in
  let s2 := run no_json range_checked (snd (execute range_checked 0 hasty s1))
              [Rejection 1; Finally 1 1] in
  received r s2 = Some (CL.Rejected "ERR_OUT_OF_RANGE") /\
  destroyed s2 = false /\
  CircuitBreaker.failureCount (circuitBreaker s2) = 0 /\
  totalSpawned (CL.ext (limiter s2)) = 1 /\
  activeProcesses (CL.ext (limiter s2)) = ∅ /\
  CL.activeCount (limiter s2) = 0.
Proof. vm_compute. repeat split. Qed.

(** A process that prints [null] and exits normally: the result is a success
    whose data is [null]. *)
Example success_with_null_data :
  let s := run only_null never_throws (create DEFAULT_SUPERVISOR_CONFIG)
             [Execute 0 status; Exit 5 1 None "null" EmptyString] in
  received (Awaiting 0) s
  = Some (CL.Fulfilled (mkResult true None None 0 5 "gt status")).
Proof. vm_compute. reflexivity. Qed.

(** Scenario C of the specification: with [circuitBreakerThreshold = 1], after
    one failed invocation the next [execute] is refused without spawning. *)
Example supervisor_scenario_C :
  let s := run no_json never_throws (create (mkConfig 30000 4 1 15000))
             [Execute 0 status;
              Exit 5 1 (Some (mkExecError false "boom" (Some 1))) EmptyString "oops";
              Finally 5 1;
              Execute 10 status] in
  CircuitBreaker.state (circuitBreaker s) = CircuitBreaker.OPEN /\
  totalSpawned (CL.ext (limiter s)) = 1 /\
  fst (execute never_throws 10 status s)
  = Resolved (failResult open_message status).
Proof. vm_compute. repeat split. Qed.

End SupervisorScenarios.

Section SupervisorMore.
Import ProcessSupervisor.
Context {J : Type} (JSON_parse : string -> option (option J)).
Context (execFile_throws : CL.CLICommandConfig -> Z -> option string).
Implicit Types (s : State J) (ev : Event)
               (l : CL.State (CLIResult J) Processes).

Local Abbreviation step := (ProcessSupervisor.step JSON_parse execFile_throws).
Local Abbreviation run := (ProcessSupervisor.run JSON_parse execFile_throws).
Local Abbreviation execute := (ProcessSupervisor.execute execFile_throws).
Local Abbreviation executeCommand :=
  (ProcessSupervisor.executeCommand execFile_throws).
Local Abbreviation supervised := (ProcessSupervisor.supervised execFile_throws).
Local Abbreviation breaker_trace :=
  (ProcessSupervisor.breaker_trace JSON_parse execFile_throws).

(** *** The breaker of a supervisor *)

Lemma step_breaker s ev :
  circuitBreaker (step s ev)
  = CircuitBreaker.run (breaker_ops s ev) (circuitBreaker s).
Proof.
  destruct ev as [now c|now id err stdout stderr|now id msg|id|now id| |]; simpl.
  - unfold ProcessSupervisor.execute. destruct (destroyed s); [done|]. simpl.
    destruct (CircuitBreaker.canExecute now (circuitBreaker s)) as [[|] b];
      [|done].
    by destruct (CL.execute now c (executeCommand (config s)) (limiter s)).
  - unfold on_exit.
    destruct (invocations (CL.ext (limiter s)) !! id) as [inv|]; [|done].
    by destruct err.
  - unfold on_error.
    by destruct (invocations (CL.ext (limiter s)) !! id) as [inv|].
  - unfold on_rejection.
    by destruct (thrown (CL.ext (limiter s)) !! id).
  - done.
  - done.
  - done.
Qed.

Lemma run_breaker (evs : list Event) : forall s,
  circuitBreaker (run s evs)
  = CircuitBreaker.run (breaker_trace s evs) (circuitBreaker s).
Proof.
  induction evs as [|ev evs IH]; intros s; [done|].
  rewrite (supervisor_run_cons JSON_parse execFile_throws). simpl.
  by rewrite breaker_run_app, <- step_breaker, IH.
Qed.

(** *** Counting *)

Lemma keys_le_length {A} (m : gmap nat A) (l : list nat) :
  (forall i : nat, is_Some (m !! i) -> i ∈ l) ->
  (size m <= length l)%nat.
Proof.
  intros Hsub. rewrite <- length_map_to_list, <- (length_fmap fst).
  apply submseteq_length, NoDup_submseteq; [apply NoDup_fst_map_to_list|].
  intros i Hi. apply Hsub.
  apply list_elem_of_fmap in Hi as ([i' a] & -> & Hin).
  apply elem_of_map_to_list in Hin. by exists a.
Qed.

Lemma active_le_calls cfg l :
  supervised cfg l ->
  (size (activeProcesses (CL.ext l)) <= length (CL.calls l))%nat.
Proof.
  intros Hs. rewrite <- (length_fmap CL.chain).
  apply keys_le_length. intros i Hi.
  destruct (supervised_active _ cfg l Hs i Hi) as (call & Hin & <- & _).
  by apply list_elem_of_fmap_2.
Qed.

Lemma calls_le_started l :
  CL.wf l -> CL.paired l -> (length (CL.calls l) <= length (CL.started l))%nat.
Proof.
  intros Hwf Hp.
  rewrite <- (length_fmap CL.chain (CL.calls l)).
  rewrite <- (length_fmap CL.chain (CL.started l)).
  apply submseteq_length, NoDup_submseteq;
    [apply (chains_nodup l (CL.wf_nodup l Hwf))|].
  intros i Hi. apply list_elem_of_fmap in Hi as (k & -> & Hk).
  destruct (CL.paired_calls l Hp k Hk) as (k0 & Hk0 & _ & <-).
  by apply list_elem_of_fmap_2.
Qed.

Lemma reachable_breaker (cfg : ProcessSupervisorConfig) (evs : list Event) :
  1 <= circuitBreakerThreshold cfg ->
  let b := circuitBreaker (run (create cfg) evs) in
  b = CircuitBreaker.run (breaker_trace (create cfg) evs)
        (CircuitBreaker.create (circuitBreakerThreshold cfg)
                               (circuitBreakerResetTime cfg)) /\
  CircuitBreaker.resetTimeMs b = circuitBreakerResetTime cfg /\
  (CircuitBreaker.state b = CircuitBreaker.CLOSED
   <-> CircuitBreaker.failureCount b < circuitBreakerThreshold cfg) /\
  (CircuitBreaker.state b <> CircuitBreaker.CLOSED ->
   CircuitBreaker.last_failure (breaker_trace (create cfg) evs)
   = Some (CircuitBreaker.lastFailureTime b)).
Proof.
  intros HN b.
  assert (Hb : b = CircuitBreaker.run (breaker_trace (create cfg) evs)
                     (CircuitBreaker.create (circuitBreakerThreshold cfg)
                                            (circuitBreakerResetTime cfg))).
  { unfold b. by rewrite run_breaker. }
  split; [exact Hb|].
  destruct (breaker_run_invariant (circuitBreakerThreshold cfg)
              (circuitBreakerResetTime cfg) (breaker_trace (create cfg) evs)
              (CircuitBreaker.create (circuitBreakerThreshold cfg)
                                     (circuitBreakerResetTime cfg)) HN)
    as (_ & Hreset & _ & Hclosed & _).
  { simpl. repeat split; try lia; done. }
  rewrite <- Hb in Hreset, Hclosed.
  split; [done|]. split; [done|].
  intros Hopen. rewrite Hb in Hopen |- *.
  by apply last_failure_tracks.
Qed.

(** X10. For a supervisor created with [maxConcurrency >= 0] and
    [circuitBreakerThreshold >= 1], after any sequence of [execute] calls,
    process callbacks, rejections of [executeCommand], [finally] callbacks,
    [resetCircuitBreaker] and [destroy] calls, [getStats()] is consistent:
    the limiter reports the configured [maxConcurrency]; the number of
    tracked processes is at most the limiter's [active] count, which is at
    most [maxConcurrency] and at most [totalSpawned]; requests are queued
    only while [active] equals [maxConcurrency]; and the breaker's state is
    [CLOSED] exactly when its [failureCount] is below the threshold. *)
Theorem supervisor_stats_consistent (cfg : ProcessSupervisorConfig)
    (evs : list Event) :
  0 <= maxConcurrency cfg -> 1 <= circuitBreakerThreshold cfg ->
  let st := getStats (run (create cfg) evs) in
  let '(queued, active, max) := stats_queue st in
  max = maxConcurrency cfg /\
  0 <= stats_active st <= active /\ active <= max /\
  active <= stats_totalSpawned st /\
  (0 < queued -> active = max) /\
  (CircuitBreaker.stats_state (stats_circuitBreaker st) = CircuitBreaker.CLOSED
   <-> CircuitBreaker.stats_failureCount (stats_circuitBreaker st)
       < circuitBreakerThreshold cfg).
Proof.
  intros HM HN. set (s := run (create cfg) evs).
  unfold getStats, CL.getStats. simpl.
  destruct (reachable_invariants JSON_parse execFile_throws cfg evs)
    as (Hsane & _ & Hsat & Hmax & Hs & _).
  fold s in Hsane, Hsat, Hmax, Hs.
  destruct Hsane as [Hwf Hf Ht Hp].
  assert (Hb : CL.bounded (limiter s)).
  { destruct (run_limiter JSON_parse execFile_throws evs (create cfg))
      as (evs' & Heq).
    fold s in Heq. rewrite Heq. apply run_bounded. unfold CL.bounded. simpl. lia. }
  unfold CL.bounded in Hb.
  pose proof (active_le_calls cfg _ Hs) as Hac.
  pose proof (calls_le_started _ Hwf Hp) as Hcs.
  pose proof (CL.wf_count _ Hwf) as Hcnt.
  pose proof (supervised_spawned _ cfg _ Hs) as Hsp.
  destruct (reachable_breaker cfg evs HN) as (_ & _ & Hclosed & _).
  fold s in Hclosed.
  split; [done|]. split; [lia|]. split; [lia|]. split; [lia|].
  split; [|done]. intros Hq.
  destruct Hsat as [Hnil|Hge]; [|lia]. rewrite Hnil in Hq. simpl in Hq. lia.
Qed.

(** *** After [destroy] *)

Lemma quiet_destroy s : quiet (destroy s).
Proof. by repeat split. Qed.

Lemma quiet_step s ev :
  quiet s ->
  quiet (step s ev) /\
  totalSpawned (CL.ext (limiter (step s ev)))
    = totalSpawned (CL.ext (limiter s)) /\
  CL.started (limiter (step s ev)) = CL.started (limiter s) /\
  killed (CL.ext (limiter (step s ev)))
    = killed (CL.ext (limiter s)).
Proof.
  intros (Hd & Hq & Hi & Ha).
  destruct ev as [now c|now id err stdout stderr|now id msg|id|now id| |]; simpl.
  - unfold ProcessSupervisor.execute. rewrite Hd. by repeat split.
  - unfold on_exit.
    destruct (invocations (CL.ext (limiter s)) !! id) as [inv|];
      [|by repeat split].
    match goal with |- context [CL.on_settled id ?o ?l] =>
      destruct (on_settled_cases id o l) as [->|(call & _ & _ & _ & ->)]
    end; unfold quiet; simpl; rewrite ?Ha, ?delete_empty; by repeat split.
  - unfold on_error.
    destruct (invocations (CL.ext (limiter s)) !! id) as [inv|];
      [|by repeat split].
    match goal with |- context [CL.on_settled id ?o ?l] =>
      destruct (on_settled_cases id o l) as [->|(call & _ & _ & _ & ->)]
    end; unfold quiet; simpl; rewrite ?Ha, ?delete_empty; by repeat split.
  - unfold on_rejection.
    destruct (thrown (CL.ext (limiter s)) !! id) as [msg|];
      [|by repeat split].
    match goal with |- context [CL.on_settled id ?o ?l] =>
      destruct (on_settled_cases id o l) as [->|(call & _ & _ & _ & ->)]
    end; unfold quiet; simpl; by repeat split.
  - destruct (on_finally_cases now id (limiter s))
      as [->|(call & o & _ & _ & _ & ->)]; [by repeat split|].
    rewrite Hq. unfold quiet. simpl. rewrite ?Hi, ?delete_empty. by repeat split.
  - by repeat split.
  - unfold quiet. simpl. rewrite Ha, map_to_list_empty. simpl. rewrite app_nil_r.
    by repeat split.
Qed.

Lemma quiet_run (evs : list Event) : forall s,
  quiet s ->
  quiet (run s evs) /\
  totalSpawned (CL.ext (limiter (run s evs)))
    = totalSpawned (CL.ext (limiter s)) /\
  CL.started (limiter (run s evs)) = CL.started (limiter s) /\
  killed (CL.ext (limiter (run s evs)))
    = killed (CL.ext (limiter s)).
Proof.
  induction evs as [|ev evs IH]; intros s Hq; [split; [exact Hq|by repeat split]|].
  rewrite (supervisor_run_cons JSON_parse execFile_throws).
  destruct (quiet_step s ev Hq) as (Hq1 & Ht1 & Hs1 & Hk1).
  destruct (IH _ Hq1) as (Hq2 & Ht2 & Hs2 & Hk2).
  split; [done|]. split; [congruence|]. split; congruence.
Qed.

Lemma quiet_destroy_same s : quiet s -> destroy s = s.
Proof.
  intros (Hd & Hq & Hi & Ha).
  destruct s as [cfg l b d]. simpl in *. subst d. unfold destroy. simpl.
  f_equal. destruct l as [q i a m pr cs fr ex en st cl]. simpl in *.
  subst q i. unfold CL.clear, CL.touch. simpl. rewrite app_nil_r.
  f_equal. destruct ex as [ap ts iv kl th]. simpl in *. subst ap.
  unfold kill_all. simpl. by rewrite map_to_list_empty, app_nil_r.
Qed.

(** X12. After [destroy()], whatever happens next (further [execute]
    calls, callbacks of the killed processes, [finally] callbacks, further
    [destroy] calls): the supervisor stays destroyed, the queue stays empty,
    no process is tracked, no process is spawned ([totalSpawned] and the list
    of started executions stay as they were), exactly the processes that were
    tracked when [destroy] was called have been sent the kill signal in
    addition to those killed before, and calling [destroy()] again changes
    nothing. *)
Theorem nothing_starts_after_destroy (s0 : State J) (evs : list Event) :
  let s := run (destroy s0) evs in
  let e0 := CL.ext (limiter s0) in
  let e := CL.ext (limiter s) in
  isDestroyed s = true /\
  CL.queue (limiter s) = [] /\
  activeProcesses e = ∅ /\
  totalSpawned e = totalSpawned e0 /\
  CL.started (limiter s) = CL.started (limiter s0) /\
  killed e = killed e0 ++ (map_to_list (activeProcesses e0)).*1 /\
  destroy s = s.
Proof.
  intros s e0 e.
  destruct (quiet_run evs (destroy s0) (quiet_destroy s0))
    as (Hq & Ht & Hs & Hk).
  fold s in Hq, Ht, Hs, Hk.
  pose proof Hq as (Hd & Hqu & Hi & Ha).
  repeat split; try done. by apply quiet_destroy_same.
Qed.

(** *** The shape of results *)

Lemma completion_well_formed now inv err stdout stderr :
  well_formed (completion JSON_parse now inv err stdout stderr).
Proof.
  unfold well_formed, completion. destruct err as [e|]; simpl; by split.
Qed.

Lemma step_limiter_carrying s ev :
  exists evs' : list (LimiterEvent J),
    Forall (CL.carrying well_formed) evs' /\
    limiter (step s ev) = CL.run (limiter s) evs'.
Proof.
  destruct ev as [now c|now id err stdout stderr|now id msg|id|now id| |]; simpl.
  - unfold ProcessSupervisor.execute. destruct (destroyed s); [by exists []|].
    destruct (CircuitBreaker.canExecute now (circuitBreaker s)) as [[|] b].
    + exists [CL.Execute now c (executeCommand (config s))].
      split; [by repeat constructor|]. simpl.
      by destruct (CL.execute now c (executeCommand (config s)) (limiter s)).
    + by exists [].
  - unfold on_exit.
    destruct (invocations (CL.ext (limiter s)) !! id) as [inv|]; [|by exists []].
    exists [CL.External (forget id);
            CL.Settled id (CL.Fulfilled (completion JSON_parse now inv err stdout stderr))].
    split; [|done]. apply Forall_cons; split; [done|].
    apply Forall_cons; split; [|done]. simpl. apply completion_well_formed.
  - unfold on_error.
    destruct (invocations (CL.ext (limiter s)) !! id) as [inv|]; [|by exists []].
    eexists [CL.External (forget id); CL.Settled id (CL.Fulfilled _)].
    split; [|done]. apply Forall_cons; split; [done|].
    apply Forall_cons; split; [|done]. simpl. by split.
  - unfold on_rejection.
    destruct (thrown (CL.ext (limiter s)) !! id) as [msg|]; [|by exists []].
    exists [CL.Settled id (CL.Rejected msg)]. split; [by repeat constructor|done].
  - exists [CL.Finally now id]. split; [by repeat constructor|done].
  - by exists [].
  - exists [CL.External kill_all; CL.Clear]. split; [by repeat constructor|done].
Qed.

Lemma run_limiter_carrying (evs : list Event) : forall s,
  exists evs' : list (LimiterEvent J),
    Forall (CL.carrying well_formed) evs' /\
    limiter (run s evs) = CL.run (limiter s) evs'.
Proof.
  induction evs as [|ev evs IH]; intros s; [by exists []|].
  rewrite (supervisor_run_cons JSON_parse execFile_throws).
  destruct (step_limiter_carrying s ev) as (evs1 & Hall1 & Heq1).
  destruct (IH (step s ev)) as (evs2 & Hall2 & Heq2).
  exists (evs1 ++ evs2). split; [by apply Forall_app|].
  by rewrite Heq2, Heq1, run_app.
Qed.

(** X11. Whatever happened before an [execute] call and whatever happens
    after it, a result that the caller receives has one of two shapes: a
    success with no error and exit code 0, or a failure with an error
    message and no data.  So the error is [null] exactly in a success.  (The
    data of a success may be [null]: it is whatever [JSON.parse] made of the
    output.)  This holds for results of processes, of spawn errors, of
    refusals by the breaker or after [destroy()], and for results shared
    through deduplication. *)
Theorem results_well_formed (cfg : ProcessSupervisorConfig)
    (before : list Event) (now : Z) (c : CL.CLICommandConfig)
    (after : list Event) (result : CLIResult J) :
  let s1 := run (create cfg) before in
  let r := fst (execute now c s1) in
  let s2 := run (snd (execute now c s1)) after in
  received r s2 = Some (CL.Fulfilled result) ->
  ((success result = true /\ error result = None /\ exitCode result = 0) \/
   (success result = false /\ data result = None /\ is_Some (error result))) /\
  (success result = true <-> error result = None).
Proof.
  intros s1 r s2 Hrec.
  assert (Hwf : well_formed result).
  { destruct r as [res|p] eqn:Hr; simpl in Hrec.
    - injection Hrec as <-. unfold r, ProcessSupervisor.execute in Hr.
      destruct (destroyed s1); [by injection Hr as <-|].
      destruct (CircuitBreaker.canExecute now (circuitBreaker s1)) as [[|] b].
      + by destruct (CL.execute now c (executeCommand (config s1)) (limiter s1)).
      + by injection Hr as <-.
    - destruct (run_limiter_carrying (before ++ Execute now c :: after)
                  (create cfg)) as (evs' & Hall & Heq).
      assert (Hs2 : run (create cfg) (before ++ Execute now c :: after) = s2).
      { by rewrite (supervisor_run_app JSON_parse execFile_throws). }
      rewrite Hs2 in Heq.
      assert (Hd : CL.delivering well_formed (limiter s2)).
      { rewrite Heq. apply run_delivering; [apply delivering_create|done]. }
      destruct Hd as [H1 _]. by apply (H1 p). }
  unfold well_formed in Hwf. destruct (success result).
  - destruct Hwf as [He Hx]. split; [by left|]. by split.
  - destruct Hwf as [Hd [e He]]. split; [right; split; [done|by eauto]|].
    split; [done|]. by rewrite He.
Qed.


End SupervisorMore.

Section SupervisorMoreWitnesses.
Import ProcessSupervisor Samples.

Lemma supervisor_stats_consistent_witness :
  let st := getStats (run no_json range_checked (create DEFAULT_SUPERVISOR_CONFIG)
                        [Execute 0 first; Execute 0 second; Execute 0 slow;
                         Execute 0 hasty; Execute 0 mail;
                         Exit 5 1 None "ok" EmptyString; Rejection 7]) in
  let '(queued, active, max) := stats_queue st in
  max = 4 /\
  0 <= stats_active st <= active /\ active <= max /\
  active <= stats_totalSpawned st /\
  (0 < queued -> active = max) /\
  (CircuitBreaker.stats_state (stats_circuitBreaker st) = CircuitBreaker.CLOSED
   <-> CircuitBreaker.stats_failureCount (stats_circuitBreaker st) < 5).
Proof.
  apply (supervisor_stats_consistent no_json range_checked
           DEFAULT_SUPERVISOR_CONFIG
           [Execute 0 first; Execute 0 second; Execute 0 slow;
            Execute 0 hasty; Execute 0 mail;
            Exit 5 1 None "ok" EmptyString; Rejection 7]); simpl; lia.
Defined.

Lemma results_well_formed_witness :
  let result := mkResult true (Some (Text (J:=unit) "ok")) None 0 5 "gt status" in
  ((success result = true /\ error result = None /\ exitCode result = 0) \/
   (success result = false /\ data result = None /\ is_Some (error result))) /\
  (success result = true <-> error result = None).
Proof.
  apply (results_well_formed no_json never_throws DEFAULT_SUPERVISOR_CONFIG
           [Execute 0 first] 1 status
           [Exit 6 3 None "ok" EmptyString; Finally 6 3; Destroy]).
  vm_compute. reflexivity.
Defined.


End SupervisorMoreWitnesses.


(* ===================================================================== *)
(** ** Further properties of the cache *)

Section CacheMore.
Import SWRCache.
Context {T : Type}.
Implicit Types (s : State T) (f : Fetch).

Lemma cache_run_snoc s (evs : list (Event T)) ev :
  run s (evs ++ [ev]) = step (run s evs) ev.
Proof. unfold run. by rewrite foldl_app. Qed.

Lemma cache_run_app s (evs1 evs2 : list (Event T)) :
  run s (evs1 ++ evs2) = run (run s evs1) evs2.
Proof. unfold run. by rewrite foldl_app. Qed.

(** X14. Misses are not coalesced: when key [k] has no entry, every one of
    any number of [get] calls for [k] made before a fetch lands calls its own
    fetcher, in the order of the calls, and each waits for a fetch of its
    own; the cache and the revalidation markers are not touched. *)
Theorem misses_are_not_coalesced (k : string) (gets : list (Z * Z * nat)) :
  forall s, cache s !! k = None ->
  let s' := run s (get_of k <$> gets) in
  fetcherCalls s' = fetcherCalls s ++ ((fun g => (g.2, k)) <$> gets) /\
  (id <$> fetches s') = (id <$> fetches s) ++ seq (fresh s) (length gets) /\
  cache s' = cache s /\
  pendingRevalidations s' = pendingRevalidations s.
Proof.
  induction gets as [|[[now ttl_ms] fetcher] gets IH]; intros s Hmiss; cbv zeta.
  - simpl. by rewrite !app_nil_r.
  - rewrite fmap_cons, cache_run_cons.
    assert (Hstep : step s (get_of k (now, ttl_ms, fetcher))
                    = call_fetcher k ttl_ms fetcher Populate s).
    { simpl. unfold get. by rewrite Hmiss. }
    rewrite Hstep.
    destruct (IH (call_fetcher k ttl_ms fetcher Populate s) Hmiss)
      as (H1 & H2 & H3 & H4).
    rewrite H1, H2, H3, H4. simpl.
    rewrite fmap_app, <- !app_assoc. done.
Qed.

(** *** Where cached entries come from *)

Lemma on_fetched_cache now (i : nat) (result : option T) s :
  cache (on_fetched now i result s) = cache s \/
  exists f v, f ∈ fetches s /\ id f = i /\ landed f = false /\
    result = Some v /\
    cache (on_fetched now i result s)
      = <[key f := mkEntry v now (ttlMs f)]> (cache s).
Proof.
  unfold on_fetched.
  destruct (find_fetch i (fetches s)) as [f|] eqn:Hfind; [|by left].
  apply find_fetch_Some in Hfind as [Hin Hid].
  destruct (landed f) eqn:Hl; [by left|].
  destruct result as [v|].
  - right. exists f, v. by destruct (purpose f).
  - left. by destruct (purpose f).
Qed.

Lemma on_fetched_fetches now (i : nat) (result : option T) s f :
  f ∈ fetches (on_fetched now i result s) ->
  exists f0, f0 ∈ fetches s /\ key f = key f0 /\ ttlMs f = ttlMs f0.
Proof.
  unfold on_fetched.
  destruct (find_fetch i (fetches s)) as [f1|]; [|by exists f].
  destruct (landed f1); [by exists f|].
  destruct (purpose f1); simpl; intros Hf.
  - unfold mark_landed in Hf.
    apply list_elem_of_fmap in Hf as (f0 & -> & Hf0).
    exists f0. by destruct (decide (id f0 = i)).
  - apply remove_fetch_elem in Hf as [Hf _]. by exists f.
Qed.

Lemma on_finally_fetches (i : nat) s f :
  f ∈ fetches (on_finally i s) -> f ∈ fetches s.
Proof.
  destruct (cache_on_finally_cases i s) as [->|(f1 & _ & _ & _ & ->)]; [done|].
  simpl. intros Hf. by apply remove_fetch_elem in Hf as [Hf _].
Qed.

Lemma on_finally_cache (i : nat) s : cache (on_finally i s) = cache s.
Proof.
  by destruct (cache_on_finally_cases i s) as [->|(f1 & _ & _ & _ & ->)].
Qed.

(** X15. After any sequence of events on a new cache, every entry in the
    cache holds a value that some fetcher delivered successfully, its
    [fetchedAt] is the time at which that value arrived, and its [ttl] is the
    [ttlMs] of some [get] call for that key; and every fetch under way was
    started by a [get] call for its key with its [ttlMs].  In particular the
    error of a failed fetch is never cached. *)
Theorem cached_entries_come_from_fetchers (evs : list (Event T)) :
  let s := run create evs in
  (forall f, f ∈ fetches s ->
     exists now fetcher, Get now (key f) (ttlMs f) fetcher ∈ evs) /\
  (forall (k : string) entry, cache s !! k = Some entry ->
     (exists i : nat, Fetched (fetchedAt entry) i (Some (data entry)) ∈ evs) /\
     (exists now fetcher, Get now k (ttl entry) fetcher ∈ evs)).
Proof.
  induction evs as [|ev evs IH] using rev_ind; simpl.
  - split; [intros f H; inversion H|].
    intros k entry H. by rewrite lookup_empty in H.
  - rewrite cache_run_snoc. destruct IH as [IHf IHc].
    set (s := run create evs) in *.
    assert (IHf' : forall f, f ∈ fetches s ->
              exists now fetcher, Get now (key f) (ttlMs f) fetcher ∈ evs ++ [ev]).
    { intros f Hf. destruct (IHf f Hf) as (now & fetcher & H).
      exists now, fetcher. apply elem_of_app. by left. }
    assert (IHc' : forall (k : string) entry, cache s !! k = Some entry ->
       (exists i : nat, Fetched (fetchedAt entry) i (Some (data entry)) ∈ evs ++ [ev]) /\
       (exists now fetcher, Get now k (ttl entry) fetcher ∈ evs ++ [ev])).
    { intros k entry Hl. destruct (IHc k entry Hl) as [(i & Hi) (now & fetcher & H)].
      split; [exists i|exists now, fetcher]; apply elem_of_app; by left. }
    clear IHf IHc.
    destruct ev as [now k ttl_ms fetcher|k| |now i result|i]; simpl.
    + assert (Hnew : forall why f,
                f ∈ fetches (call_fetcher k ttl_ms fetcher why s) ->
                exists now0 fetcher0,
                  Get now0 (key f) (ttlMs f) fetcher0
                    ∈ evs ++ [Get now k ttl_ms fetcher]).
      { intros why f Hf. simpl in Hf. apply elem_of_app in Hf as [Hf|Hf];
          [by apply IHf'|].
        apply list_elem_of_singleton in Hf as ->. simpl.
        exists now, fetcher. apply elem_of_app. right. apply list_elem_of_here. }
      destruct (get_cases now k ttl_ms fetcher s)
        as [(entry & _ & ->)|[(entry & _ & _ & _ & ->)|(_ & ->)]]; simpl;
        (split; [first [exact IHf' | apply Hnew]|exact IHc']).
    + split; [done|]. intros k' entry Hl.
      apply lookup_delete_Some in Hl as [_ Hl]. by apply IHc'.
    + split; [done|]. intros k' entry Hl. by rewrite lookup_empty in Hl.
    + split.
      * intros f Hf.
        apply on_fetched_fetches in Hf as (f0 & Hf0 & -> & ->). by apply IHf'.
      * intros k entry Hl.
        destruct (on_fetched_cache now i result s)
          as [Heq|(f & v & Hf & Hid & _ & -> & Heq)]; rewrite Heq in Hl;
          [by apply IHc'|]. destruct (decide (key f = k)) as [<-|Hne].
        -- rewrite lookup_insert_eq in Hl. injection Hl as <-. simpl. split.
           ++ exists i. apply elem_of_app. right. apply list_elem_of_here.
           ++ by apply IHf'.
        -- rewrite lookup_insert_ne in Hl by done. by apply IHc'.
    + split.
      * intros f Hf. apply on_finally_fetches in Hf. by apply IHf'.
      * rewrite on_finally_cache. done.
Qed.

(** *** A fetch in flight cannot be cancelled *)

Lemma find_fetch_in (l : list Fetch) f :
  f ∈ l -> NoDup (id <$> l) -> find_fetch (id f) l = Some f.
Proof.
  intros Hin Hnd. unfold find_fetch.
  destruct (find (fun f0 => Nat.eqb (id f0) (id f)) l) as [f'|] eqn:Hf.
  - apply find_some in Hf as [Hin' Heq]. apply Nat.eqb_eq in Heq.
    apply list_elem_of_In in Hin'. f_equal.
    by apply (NoDup_fmap_eq id l).
  - apply list_elem_of_In in Hin. pose proof (find_none _ _ Hf f Hin) as Hne.
    simpl in Hne. by rewrite Nat.eqb_refl in Hne.
Qed.

Lemma step_in_flight s (ev : Event T) f :
  wf s -> f ∈ fetches s -> landed f = false ->
  is_fetched (id f) ev = false ->
  f ∈ fetches (step s ev).
Proof.
  intros Hwf Hin Hl Hev.
  destruct ev as [now k ttl_ms fetcher|k| |now i result|i]; simpl; try done.
  - destruct (get_cases now k ttl_ms fetcher s)
      as [(entry & _ & ->)|[(entry & _ & _ & _ & ->)|(_ & ->)]]; simpl;
      [done|apply elem_of_app; by left|apply elem_of_app; by left].
  - simpl in Hev. apply Nat.eqb_neq in Hev.
    unfold on_fetched.
    destruct (find_fetch i (fetches s)) as [f1|]; [|done].
    destruct (landed f1); [done|].
    destruct (purpose f1); simpl.
    + unfold mark_landed. apply list_elem_of_fmap. exists f.
      split; [|done]. destruct (decide (id f = i)); [congruence|done].
    + apply remove_fetch_elem. split; [done|congruence].
  - unfold on_finally.
    destruct (find_fetch i (fetches s)) as [f1|] eqn:Hfind; [|done].
    apply find_fetch_Some in Hfind as [Hin1 Hid1].
    destruct (landed f1) eqn:Hl1; [|done].
    destruct (purpose f1); simpl; [|done].
    apply remove_fetch_elem. split; [done|]. intros Heq.
    assert (f = f1).
    { apply (NoDup_fmap_eq id (fetches s)); [apply Hwf|done|done|congruence]. }
    congruence.
Qed.

Lemma run_in_flight (evs : list (Event T)) f : forall s,
  wf s -> f ∈ fetches s -> landed f = false ->
  Forall (fun ev => is_fetched (id f) ev = false) evs ->
  f ∈ fetches (run s evs).
Proof.
  induction evs as [|ev evs IH]; intros s Hwf Hin Hl Hall; [done|].
  apply Forall_cons in Hall as [Hev Hall]. rewrite cache_run_cons.
  apply IH; [by apply cache_step_wf|by apply step_in_flight|done|done].
Qed.

(** X16. A fetch under way cannot be cancelled.  Take a fetch (for a stale
    or a missing entry) whose promise has not settled, and let any [get],
    [invalidate], [clear] and callbacks of other fetches follow.  When its
    promise then settles with a value at time [now], the cache holds that
    value for the fetch's key with [fetchedAt = now] and the [ttlMs] of the
    [get] call that started the fetch, even if the key was invalidated or the
    cache cleared in between; when it settles with an error, the entry of
    the key is left as it is.  A [get] call waiting for the fetch receives
    exactly that outcome. *)
Theorem fetch_in_flight_lands (before mid : list (Event T)) (f : Fetch)
    (now : Z) (result : option T) :
  let s := run create before in
  let s1 := run s mid in
  let s2 := step s1 (Fetched now (id f) result) in
  f ∈ fetches s -> landed f = false ->
  Forall (fun ev => is_fetched (id f) ev = false) mid ->
  cache s2 !! key f =
    match result with
    | Some v => Some (mkEntry v now (ttlMs f))
    | None => cache s1 !! key f
    end /\
  (purpose f = Populate -> delivered s2 !! id f = Some result).
Proof.
  intros s s1 s2 Hin Hl Hall.
  assert (Hwf : wf s) by apply cache_run_wf, cache_wf_create.
  assert (Hwf1 : wf s1) by (by apply cache_run_wf).
  assert (Hin1 : f ∈ fetches s1) by (by apply run_in_flight).
  unfold s2. simpl. unfold on_fetched.
  rewrite (find_fetch_in (fetches s1) f Hin1 (wf_distinct s1 Hwf1)), Hl.
  split.
  - destruct result as [v|]; destruct (purpose f); simpl;
      by rewrite ?lookup_insert_eq.
  - intros ->. simpl. by rewrite lookup_insert_eq.
Qed.

End CacheMore.

Section CacheMoreWitnesses.
Import SWRCache CacheSamples.

Lemma misses_are_not_coalesced_witness :
  let s' := run (create (T:=string))
                (get_of "k" <$> [(0, 5000, 1%nat); (1, 5000, 2%nat)]) in
  fetcherCalls s' = [(1%nat, "k"); (2%nat, "k")].
Proof.
  intros s'.
  destruct (misses_are_not_coalesced "k" [(0, 5000, 1%nat); (1, 5000, 2%nat)]
              (create (T:=string))) as (H & _); [reflexivity|exact H].
Defined.

Lemma cached_entries_come_from_fetchers_witness :
  (exists i : nat,
     Fetched 7002 i (Some "v2") ∈ forgotten_revalidation) /\
  (exists now fetcher, Get now "k" 5000 fetcher ∈ forgotten_revalidation).
Proof.
  destruct (cached_entries_come_from_fetchers forgotten_revalidation)
    as [_ Hcache].
  apply (Hcache "k" (mkEntry "v2" 7002 5000)).
  vm_compute. reflexivity.
Defined.

Lemma fetch_in_flight_lands_witness :
  let s1 := run (create (T:=string))
                [Get 0 "k" 5000 0; Clear; Invalidate "k"; Finally 0] in
  let s2 := step s1 (Fetched 9 0 (Some "late")) in
  cache s1 !! "k" = None /\
  cache s2 !! "k" = Some (mkEntry "late" 9 5000) /\
  delivered s2 !! 0%nat = Some (Some "late").
Proof.
  destruct (fetch_in_flight_lands (T:=string) [Get 0 "k" 5000 0]
              [Clear; Invalidate "k"; Finally 0]
              (mkFetch 0 "k" 5000 Populate false) 9 (Some "late"))
    as [Hc Hd].
  - vm_compute. apply list_elem_of_here.
  - reflexivity.
  - repeat constructor.
  - split; [reflexivity|]. split; [exact Hc|]. by apply Hd.
Defined.

End CacheMoreWitnesses.

(* ===================================================================== *)
(** ** Properties of [parseVersion] *)

Section VersionFacts.
Import Capabilities.
Implicit Types (s d v rest : list N) (k : list N -> option (list N)).

Lemma digits_inv s k r :
  digits s k = Some r ->
  exists d rest, s = d ++ rest /\ digit_run d /\ k rest = Some r.
Proof.
  revert r. induction s as [|c s IH]; intros r H; simpl in H; [done|].
  destruct (is_digit c) eqn:Hc; [|done].
  destruct (digits s k) as [r'|] eqn:Hd.
  - injection H as <-. destruct (IH r' eq_refl) as (d & rest & -> & [Hne Hall] & Hk).
    exists (c :: d), rest. repeat split; try done. by constructor.
  - exists [c], s. repeat split; try done. by repeat constructor.
Qed.

Lemma digits_intro d rest k :
  digit_run d -> is_Some (k rest) -> is_Some (digits (d ++ rest) k).
Proof.
  intros [Hne Hall] Hk. induction d as [|c d IH]; [done|]. simpl.
  apply Forall_cons in Hall as [Hc Hall]. rewrite Hc.
  destruct d as [|c' d].
  - simpl. by destruct (digits rest k).
  - destruct IH as [r Hr]; [done|done|]. by rewrite Hr.
Qed.

Lemma digits_no_digit s k : no_digit_ahead s -> digits s k = None.
Proof. destruct s as [|c s]; simpl; [done|]. by intros ->. Qed.

Lemma digits_longest d rest k r :
  digit_run d -> no_digit_ahead rest -> k rest = Some r ->
  digits (d ++ rest) k = Some r.
Proof.
  intros [Hne Hall] Hrest Hk. induction d as [|c d IH]; [done|]. simpl.
  apply Forall_cons in Hall as [Hc Hall]. rewrite Hc.
  destruct d as [|c' d].
  - simpl. by rewrite digits_no_digit.
  - by rewrite IH.
Qed.

Lemma digits_greedy s r : digits s Some = Some r -> no_digit_ahead r.
Proof.
  revert r. induction s as [|c s IH]; intros r H; simpl in H; [done|].
  destruct (is_digit c) eqn:Hc; [|done].
  destruct (digits s Some) as [r'|] eqn:Hd.
  - injection H as <-. by apply IH.
  - injection H as <-. destruct s as [|c' s]; [done|]. simpl in *.
    destruct (is_digit c'); [|done].
    by destruct (digits s Some).
Qed.

Lemma literal_inv c s k r :
  literal c s k = Some r -> exists rest, s = c :: rest /\ k rest = Some r.
Proof.
  destruct s as [|c' s]; simpl; [done|].
  destruct (N.eqb_spec c' c) as [->|]; [|done]. intros H. by exists s.
Qed.

Lemma literal_here c s k : literal c (c :: s) k = k s.
Proof. simpl. by rewrite N.eqb_refl. Qed.

Lemma dot_no_digit s : no_digit_ahead (dot :: s).
Proof. reflexivity. Qed.

Lemma version_at_inv s rest :
  version_at s = Some rest ->
  exists v, version_shape v /\ s = v ++ rest /\ no_digit_ahead rest.
Proof.
  unfold version_at. intros H.
  apply digits_inv in H as (d1 & s1 & -> & Hd1 & H).
  apply literal_inv in H as (s2 & -> & H).
  apply digits_inv in H as (d2 & s3 & -> & Hd2 & H).
  apply literal_inv in H as (s4 & -> & H).
  pose proof (digits_greedy _ _ H) as Hgreedy.
  apply digits_inv in H as (d3 & s5 & -> & Hd3 & [= ->]).
  exists (d1 ++ dot :: d2 ++ dot :: d3). split; [by exists d1, d2, d3|].
  split; [|done]. by rewrite <- !app_assoc; simpl; rewrite <- !app_assoc.
Qed.

Lemma version_at_intro v rest :
  version_shape v -> is_Some (version_at (v ++ rest)).
Proof.
  intros (d1 & d2 & d3 & Hd1 & Hd2 & Hd3 & ->). unfold version_at.
  rewrite <- app_assoc. apply digits_intro; [done|].
  rewrite <- app_comm_cons, literal_here, <- app_assoc.
  apply digits_intro; [done|].
  rewrite <- app_comm_cons, literal_here. by apply digits_intro.
Qed.

Lemma version_at_exact v rest :
  version_shape v -> no_digit_ahead rest -> version_at (v ++ rest) = Some rest.
Proof.
  intros (d1 & d2 & d3 & Hd1 & Hd2 & Hd3 & ->) Hrest. unfold version_at.
  rewrite <- app_assoc. apply digits_longest; [done|apply dot_no_digit|].
  rewrite <- app_comm_cons, literal_here, <- app_assoc.
  apply digits_longest; [done|apply dot_no_digit|].
  rewrite <- app_comm_cons, literal_here. by apply digits_longest.
Qed.

Lemma take_matched v rest :
  take (length (v ++ rest) - length rest) (v ++ rest) = v.
Proof.
  rewrite length_app.
  replace (length v + length rest - length rest)%nat with (length v) by lia.
  by rewrite take_app_length.
Qed.

Lemma parseVersion_here s :
  parseVersion s =
    match version_at s with
    | Some rest => Some (take (length s - length rest) s)
    | None => match s with [] => None | _ :: later => parseVersion later end
    end.
Proof. by destruct s. Qed.

(** X17. When [parseVersion] answers with a text, that text is three runs
    of digits separated by two full stops, it occurs in the output, it is not
    followed by a further digit, and the pattern matches at no earlier
    position of the output.  And [parseVersion] answers [null] exactly when
    no part of the output has that shape. *)
Theorem parseVersion_finds_a_version (output : list N) :
  (forall v, parseVersion output = Some v ->
     version_shape v /\
     exists before after,
       output = before ++ v ++ after /\ no_digit_ahead after /\
       forall skipped later, before = skipped ++ later -> later <> [] ->
         version_at (later ++ v ++ after) = None) /\
  (parseVersion output = None <->
   forall before v after, version_shape v -> output <> before ++ v ++ after).
Proof.
  split.
  - induction output as [|c s IH]; intros v H; rewrite parseVersion_here in H.
    + destruct (version_at []) as [rest|] eqn:Hat; [|done].
      apply version_at_inv in Hat as (v' & Hshape & Heq & Hnd).
      rewrite Heq, take_matched in H. injection H as <-.
      split; [done|]. exists [], rest. split; [done|]. split; [done|].
      intros skipped later Hnil Hne. by destruct skipped, later.
    + destruct (version_at (c :: s)) as [rest|] eqn:Hat.
      * apply version_at_inv in Hat as (v' & Hshape & Heq & Hnd).
        rewrite Heq, take_matched in H. injection H as <-.
        split; [done|]. exists [], rest. split; [done|]. split; [done|].
        intros skipped later Hnil Hne. by destruct skipped, later.
      * destruct (IH v H) as (Hshape & before & after & -> & Hnd & Hleft).
        split; [done|]. exists (c :: before), after.
        split; [done|]. split; [done|].
        intros skipped later Heq Hne. destruct skipped as [|c' skipped].
        -- simpl in Heq. subst later. exact Hat.
        -- injection Heq as -> ->. by apply (Hleft skipped).
  - split.
    + induction output as [|c s IH]; intros H before v after Hshape Heq;
        rewrite parseVersion_here in H.
      * destruct before; [|done]. simpl in Heq.
        destruct (version_at_intro v after Hshape) as [r Hr].
        rewrite <- Heq in Hr. by rewrite Hr in H.
      * destruct (version_at (c :: s)) as [rest|] eqn:Hat; [done|].
        destruct before as [|c' before].
        -- simpl in Heq. destruct (version_at_intro v after Hshape) as [r Hr].
           rewrite <- Heq in Hr. congruence.
        -- injection Heq as -> ->. by apply (IH H before v after).
    + induction output as [|c s IH]; intros H; rewrite parseVersion_here.
      * destruct (version_at []) as [rest|] eqn:Hat; [|done].
        apply version_at_inv in Hat as (v & Hshape & Heq & _).
        by destruct (H [] v rest Hshape).
      * destruct (version_at (c :: s)) as [rest|] eqn:Hat.
        -- apply version_at_inv in Hat as (v & Hshape & Heq & _).
           by destruct (H [] v rest Hshape).
        -- apply IH. intros before v after Hshape ->.
           by apply (H (c :: before) v after Hshape).
Qed.

Lemma version_at_no_digit s : no_digit_ahead s -> version_at s = None.
Proof. apply digits_no_digit. Qed.

(** X18. When a version (three runs of digits separated by full stops) is
    preceded by text without any digit and not followed by a digit,
    [parseVersion] returns exactly that version; in particular it returns a
    version unchanged. *)
Theorem parseVersion_extracts (before v after : list N) :
  Forall (fun c => is_digit c = false) before ->
  version_shape v -> no_digit_ahead after ->
  parseVersion (before ++ v ++ after) = Some v /\
  parseVersion v = Some v.
Proof.
  intros Hbefore Hshape Hafter.
  assert (Hhere : forall rest, no_digit_ahead rest ->
            parseVersion (v ++ rest) = Some v).
  { intros rest Hrest. rewrite parseVersion_here.
    rewrite (version_at_exact v rest Hshape Hrest). by rewrite take_matched. }
  split.
  - induction before as [|c before IH]; [by apply Hhere|].
    apply Forall_cons in Hbefore as [Hc Hbefore].
    rewrite <- app_comm_cons, parseVersion_here.
    rewrite (version_at_no_digit (c :: before ++ v ++ after)) by exact Hc.
    by apply IH.
  - rewrite <- (app_nil_r v) at 1. by apply Hhere.
Qed.

Lemma parseVersion_extracts_witness :
  parseVersion (units "gt version 0.3.12 (go)") = Some (units "0.3.12").
Proof.
  apply (parseVersion_extracts (units "gt version ") (units "0.3.12")
           (units " (go)")).
  - by repeat constructor.
  - exists (units "0"), (units "3"), (units "12").
    repeat split; try done; by repeat constructor.
  - reflexivity.
Defined.

End VersionFacts.
